(** * cf-pages-functions-loader-hono: a shallow embedding of [loadPageFunctions.js]

  The definitions follow the source file:
  - [JsString]: the JavaScript string primitives the loader relies on;
  - [PathCompiler]: [filepathToRoutes], the bracket-syntax route compiler;
  - [Js], [Http], [Hono]: JavaScript values, the host's [JSON], [Headers]
    and [Response], and the context of one request;
  - [Reconciler]: [ensureVaryOrigin], [cloneWithExtraHeaders],
    [toMutableResponse], [getSharedMutableResponse] and the global wrapper;
  - [Chain]: [composeCFChain] with its single-use continuations, for
    handlers that await each call of their continuation;
  - [AsyncChain]: [composeCFChain] again, with promises and the job queue,
    for handlers that may go on without awaiting;
  - [Orchestrator]: the depth-sorted registration of directory middleware;
  - [Plumbing], [Wrappers]: [createSharedProxy], [makeCFContext] and
    [makeRouteHandler];
  - [Loader], [LazyLoader]: [loadFunctions], for modules that are loaded and
    with the imports that load them.
  The properties come after them, one module of facts per component. The
  debug output of the source ([dbg]) has no effect on any result and is left
  out, and with it the [trace] arguments that only label it. *)

From Stdlib Require Import ZArith Ascii String List Bool Lia.
From stdpp Require Import base gmap strings list sorting pretty.

Import ListNotations.
Local Open Scope Z_scope.

(** ** JavaScript string primitives *)

Module JsString.

(** [s.length] *)
Definition len (s : string) : nat := String.length s.

(** [s.startsWith(p)] *)
Definition startsWith (s p : string) : bool := String.prefix p s.

(** Characters of [s] from position [n] on: [s.slice(n)] for [0 <= n]. *)
Fixpoint drop_str (n : nat) (s : string) : string :=
  match n, s with
  | O, _ => s
  | S n', String _ s' => drop_str n' s'
  | S _, EmptyString => EmptyString
  end.

(** The first [n] characters of [s]. *)
Fixpoint take_str (n : nat) (s : string) : string :=
  match n, s with
  | O, _ => EmptyString
  | S n', String c s' => String c (take_str n' s')
  | S _, EmptyString => EmptyString
  end.

(** [s.endsWith(p)] *)
Definition endsWith (s p : string) : bool :=
  (len p <=? len s)%nat && String.eqb (drop_str (len s - len p) s) p.

(** [s.slice(a, -b)] for non-negative [a] and [b]: the characters from
    position [a] up to (excluding) position [length - b]; empty when the
    end does not lie after the start. *)
Definition slice_neg (s : string) (a b : nat) : string :=
  take_str (len s - b - a) (drop_str a s).

(** [s.replace(/\\/g, "/")] *)
Fixpoint backslashes_to_slashes (s : string) : string :=
  match s with
  | EmptyString => EmptyString
  | String c s' =>
      String (if Ascii.eqb c "\"%char then "/"%char else c)
             (backslashes_to_slashes s')
  end.

(** [s.replace(/^\/+/, "")] *)
Fixpoint strip_leading_slashes (s : string) : string :=
  match s with
  | String c s' => if Ascii.eqb c "/"%char then strip_leading_slashes s' else s
  | EmptyString => EmptyString
  end.

(** [s.replace(/\/+$/, "")]: the leftmost match of a run of slashes that
    reaches the end of the input is the whole trailing run. *)
Definition strip_trailing_slashes (s : string) : string :=
  String.rev (strip_leading_slashes (String.rev s)).

(** [s.split(c)] for a one-character separator; the empty string splits
    into one empty piece. *)
Fixpoint split_on (c : ascii) (s : string) : list string :=
  match s with
  | EmptyString => [EmptyString]
  | String a s' =>
      if Ascii.eqb a c then EmptyString :: split_on c s'
      else match split_on c s' with
           | piece :: rest => String a piece :: rest
           | [] => [String a EmptyString]
           end
  end.

(** Truthiness of a string, as used by [.filter(Boolean)]. *)
Definition nonempty (s : string) : bool :=
  match s with EmptyString => false | _ => true end.

(** [pieces.join(sep)] *)
Definition join (sep : string) (pieces : list string) : string :=
  String.concat sep pieces.

(** The character class [[A-Za-z0-9_]]. *)
Definition is_word_char (c : ascii) : bool :=
  let n := nat_of_ascii c in
  ((65 <=? n) && (n <=? 90) || (97 <=? n) && (n <=? 122)
   || (48 <=? n) && (n <=? 57) || (n =? 95))%nat.

(** Longest run of word characters at the head of [s], and what follows. *)
Fixpoint span_word (s : string) : string * string :=
  match s with
  | String c s' =>
      if is_word_char c
      then let '(w, r) := span_word s' in (String c w, r)
      else (EmptyString, s)
  | EmptyString => (EmptyString, EmptyString)
  end.

(** White space as [trim] sees it, among code units below 256. *)
Definition is_js_space (c : ascii) : bool :=
  let n := nat_of_ascii c in
  ((9 <=? n) && (n <=? 13) || (n =? 32) || (n =? 160))%nat.

Fixpoint trimStart (s : string) : string :=
  match s with
  | String c s' => if is_js_space c then trimStart s' else s
  | EmptyString => EmptyString
  end.

(** [s.trim()] *)
Definition trim (s : string) : string :=
  String.rev (trimStart (String.rev (trimStart s))).

(** [toLowerCase] on one code unit below 256: the letters A-Z and the
    upper-case letters of the Latin-1 supplement. *)
Definition lower_char (c : ascii) : ascii :=
  let n := nat_of_ascii c in
  if ((65 <=? n) && (n <=? 90)
      || (192 <=? n) && (n <=? 222) && negb (n =? 215))%nat
  then ascii_of_nat (n + 32) else c.

(** [s.toLowerCase()] *)
Fixpoint toLowerCase (s : string) : string :=
  match s with
  | EmptyString => EmptyString
  | String c s' => String (lower_char c) (toLowerCase s')
  end.

(** [toUpperCase] on one code unit: the letters a-z; the letters of the
    Latin-1 supplement never become ASCII and are left as they are. *)
Definition upper_char (c : ascii) : ascii :=
  let n := nat_of_ascii c in
  if ((97 <=? n) && (n <=? 122))%nat then ascii_of_nat (n - 32) else c.

(** [s.toUpperCase()] *)
Fixpoint toUpperCase (s : string) : string :=
  match s with
  | EmptyString => EmptyString
  | String c s' => String (upper_char c) (toUpperCase s')
  end.

(** [arr.includes(x)] on strings *)
Definition includes (arr : list string) (x : string) : bool :=
  existsb (String.eqb x) arr.

(** Insertion-ordered set, as [new Set(...)] iterates it. *)
Definition set_add (x : string) (l : list string) : list string :=
  if existsb (String.eqb x) l then l else l ++ [x].

Definition set_of_list (l : list string) : list string :=
  fold_left (fun acc x => set_add x acc) l [].

End JsString.

(** ** The path compiler: [filepathToRoutes] *)

Module PathCompiler.
Import JsString.

Record Route := mkRoute { path : string; arrayParams : list string }.

Record Compiled := mkCompiled { routes : list Route; isMiddleware : bool }.

(** [baseDir = "../functions"], the default parameter. *)
Definition default_baseDir : string := "../functions".

(** [p.match(/\.([jt]s)$/)] *)
Definition has_script_ext (p : string) : bool :=
  endsWith p ".js" || endsWith p ".ts".

(** [rawSegs.pop()]: the list without its last element, and that element. *)
Definition pop (l : list string) : list string * option string :=
  match rev l with
  | [] => ([], None)
  | x :: r => (rev r, Some x)
  end.

(** [expand(seg)]: the alternatives one raw segment stands for, each a
    list of zero or one compiled segments. *)
Definition expand (seg : string) : list (list string) :=
  if startsWith seg "[[..." && endsWith seg "]]" then
    let n := slice_neg seg 5 2 in
    [ []; [(":" +:+ n +:+ "{.+}")] ]
  else if startsWith seg "[[" && endsWith seg "]]" then
    let n := slice_neg seg 2 2 in
    [ []; [(":" +:+ n)] ]
  else if startsWith seg "[..." && endsWith seg "]" then
    let n := slice_neg seg 4 1 in
    [ [(":" +:+ n +:+ "{.+}")] ]
  else if startsWith seg "[" && endsWith seg "]" then
    let n := slice_neg seg 1 1 in
    [ [(":" +:+ n)] ]
  else [ [seg] ].

(** One round of the product loop: every prefix extended by every choice,
    prefixes outermost. *)
Definition extend (routesParts : list (list string))
                  (choices : list (list string)) : list (list string) :=
  flat_map (fun pref => map (fun choice => pref ++ choice) choices) routesParts.

(** [r.match(/\/:([A-Za-z0-9_]+)$/)]: some position holds ["/:"] followed
    by one or more word characters up to the end of the input. *)
Fixpoint ends_in_plain_param (r : string) : bool :=
  match r with
  | EmptyString => false
  | String c r' =>
      (Ascii.eqb c "/"%char
       && match r' with
          | String d w =>
              Ascii.eqb d ":"%char && nonempty w
              && String.eqb (snd (span_word w)) EmptyString
          | EmptyString => false
          end)
      || ends_in_plain_param r'
  end.

(** [lastRaw.match(/^\[\[([A-Za-z0-9_]+)\]\]$/)?.[1] || null] *)
Definition optional_tail (lastRaw : string) : option string :=
  if startsWith lastRaw "[[" then
    let '(w, r) := span_word (drop_str 2 lastRaw) in
    if nonempty w && String.eqb r "]]" then Some w else None
  else None.

(** The regular expression [/:([A-Za-z0-9_]+)\{\.\+\}/] tried at the head
    of [s]: the captured name and the input after the match. *)
Definition rest_param_here (s : string) : option (string * string) :=
  match s with
  | String c s1 =>
      if Ascii.eqb c ":"%char then
        let '(w, r) := span_word s1 in
        if nonempty w && startsWith r "{.+}" then Some (w, drop_str 4 r)
        else None
      else None
  | EmptyString => None
  end.

(** [pathStr.matchAll(/:([A-Za-z0-9_]+)\{\.\+\}/g)]: the captures of the
    successive non-overlapping matches, left to right. [fuel] bounds the
    number of positions visited. *)
Fixpoint rest_params (fuel : nat) (s : string) : list string :=
  match fuel with
  | O => []
  | S fuel' =>
      match rest_param_here s with
      | Some (w, r) => w :: rest_params fuel' r
      | None =>
          match s with
          | String _ s' => rest_params fuel' s'
          | EmptyString => []
          end
      end
  end.

Definition matchAll_rest_params (s : string) : list string :=
  rest_params (S (len s)) s.

Definition route_of (optTail : option string) (pathStr : string) : Route :=
  let arrayParams := set_of_list (matchAll_rest_params pathStr) in
  let arrayParams :=
    match optTail with
    | Some t =>
        if endsWith pathStr ("/:" +:+ t)
           || endsWith pathStr ("/:" +:+ t +:+ "{.+}")
        then set_add t arrayParams
        else arrayParams
    | None => arrayParams
    end in
  mkRoute pathStr arrayParams.

Definition filepathToRoutes (filepath : string) (baseDir : option string)
  : Compiled :=
  let baseDir := default default_baseDir baseDir in
  let posixPath := backslashes_to_slashes filepath in
  let posixBase := strip_trailing_slashes (backslashes_to_slashes baseDir) in
  let p := if startsWith posixPath (posixBase +:+ "/")
           then drop_str (len posixBase + 1) posixPath
           else posixPath in
  let p := if has_script_ext p then slice_neg p 0 3 else p in
  let rawSegs := filter nonempty (split_on "/" p) in
  let '(popped, last) := pop rawSegs in
  let isMiddleware :=
    match last with Some l => String.eqb l "_middleware" | None => false end in
  let rawSegs :=
    if isMiddleware then popped
    else match last with
         | Some l =>
             if nonempty l && negb (String.eqb l "index")
             then popped ++ [l] else popped
         | None => popped
         end in
  let parts := map expand rawSegs in
  let routesParts := fold_left extend parts [ [] ] in
  let baseRoutes :=
    set_of_list
      (map (fun pp =>
              "/" +:+ strip_leading_slashes (join "/" (filter nonempty pp)))
           routesParts) in
  let baseRoutes :=
    match baseRoutes with [] => ["/"] | _ => baseRoutes end in
  let augmented :=
    fold_left
      (fun acc r =>
         if ends_in_plain_param r then set_add (r +:+ "{.+}") acc else acc)
      baseRoutes (set_of_list baseRoutes) in
  let lastRaw := List.last rawSegs EmptyString in
  let optTail := optional_tail lastRaw in
  mkCompiled (map (route_of optTail) augmented) isMiddleware.

End PathCompiler.

(** ** JavaScript values, completions and conversions *)

Module Js.
Import JsString.

(** What a [throw] carries: the two built-in error classes the host
    raises on its own, and [new Error(message)]. *)
Inductive JsError :=
| TypeError
| RangeError
| Error (message : string).

(** Outcome of evaluating an expression or awaiting a promise. *)
Inductive Completion (A : Type) :=
| Returned (a : A)
| Raised (e : JsError).
Arguments Returned {A} a.
Arguments Raised {A} e.

Definition bindC {A B} (c : Completion A) (k : A -> Completion B)
  : Completion B :=
  match c with
  | Returned a => k a
  | Raised e => Raised e
  end.

Notation "'try!' x := c 'in' k" := (bindC c (fun x => k))
  (at level 10, x name, c at level 100, k at level 200).

(** A [Headers] object: field values by byte-lowercased field name. *)
Abbreviation Headers := (gmap string string).

(** Values. Numbers are restricted to integers; plain objects and arrays
    are trees of their own enumerable properties in enumeration order;
    [Response] and [Request] objects are references, because the loader
    depends on their identity. *)
#[warnings="-register-all"]
Inductive JsValue :=
| VUndefined
| VNull
| VBool (b : bool)
| VNumber (n : Z)
| VBigInt (n : Z)
| VString (s : string)
| VSymbol (description : string)
| VFunction (source : string)
| VResponse (ref : nat)
| VRequest (ref : nat)
| VHeaders (h : Headers)
| VObject (props : list (string * JsValue))
| VArray (items : list JsValue).

(** [Boolean(v)] *)
Definition truthy (v : JsValue) : bool :=
  match v with
  | VUndefined | VNull => false
  | VBool b => b
  | VNumber n | VBigInt n => negb (n =? 0)
  | VString s => nonempty s
  | _ => true
  end.

(** [typeof v] *)
Definition typeof (v : JsValue) : string :=
  match v with
  | VUndefined => "undefined"
  | VBool _ => "boolean"
  | VNumber _ => "number"
  | VBigInt _ => "bigint"
  | VString _ => "string"
  | VSymbol _ => "symbol"
  | VFunction _ => "function"
  | VNull | VResponse _ | VRequest _ | VHeaders _ | VObject _ | VArray _ =>
      "object"
  end.

(** [obj[key]] on a plain object; [undefined] when the property is absent. *)
Fixpoint prop (props : list (string * JsValue)) (key : string) : JsValue :=
  match props with
  | [] => VUndefined
  | (k, v) :: rest => if String.eqb k key then v else prop rest key
  end.

(** [key in obj] on a plain object. *)
Definition has_prop (props : list (string * JsValue)) (key : string) : bool :=
  existsb (fun kv => String.eqb (fst kv) key) props.

(** [String(v)]; a symbol cannot be converted. Elements of an array are
    joined with commas, [null] and [undefined] elements as empty text. *)
Fixpoint toString (v : JsValue) : Completion string :=
  match v with
  | VUndefined => Returned "undefined"
  | VNull => Returned "null"
  | VBool b => Returned (if b then "true" else "false")
  | VNumber n | VBigInt n => Returned (pretty n)
  | VString s => Returned s
  | VSymbol _ => Raised TypeError
  | VFunction source => Returned source
  | VResponse _ => Returned "[object Response]"
  | VRequest _ => Returned "[object Request]"
  | VHeaders _ => Returned "[object Headers]"
  | VObject _ => Returned "[object Object]"
  | VArray items =>
      try! pieces :=
        (fix elems (l : list JsValue) : Completion (list string) :=
           match l with
           | [] => Returned []
           | x :: l' =>
               try! s := match x with
                         | VUndefined | VNull => Returned EmptyString
                         | _ => toString x
                         end in
               try! ss := elems l' in
               Returned (s :: ss)
           end) items in
      Returned (join "," pieces)
  end.

End Js.

(** ** The host's [JSON], [Headers] and [Response] *)

Module Http.
Import JsString Js.

(** *** [JSON.stringify] *)

Definition quote_char : ascii := "034"%char.

Definition hex_digit (n : nat) : ascii :=
  match n with
  | 0 => "0" | 1 => "1" | 2 => "2" | 3 => "3" | 4 => "4" | 5 => "5"
  | 6 => "6" | 7 => "7" | 8 => "8" | 9 => "9" | 10 => "a" | 11 => "b"
  | 12 => "c" | 13 => "d" | 14 => "e" | _ => "f"
  end%char%nat.

(** One code unit inside a JSON string literal. *)
Definition json_escape (c : ascii) : string :=
  let n := nat_of_ascii c in
  if Ascii.eqb c quote_char then String "\" (String quote_char "")
  else if Ascii.eqb c "\" then "\\"
  else if (n =? 8)%nat then "\b"
  else if (n =? 9)%nat then "\t"
  else if (n =? 10)%nat then "\n"
  else if (n =? 12)%nat then "\f"
  else if (n =? 13)%nat then "\r"
  else if (n <? 32)%nat
       then "\u00" +:+ String (hex_digit (n / 16)) (String (hex_digit (n mod 16)) "")
  else String c "".

Fixpoint json_escape_all (s : string) : string :=
  match s with
  | EmptyString => EmptyString
  | String c s' => json_escape c +:+ json_escape_all s'
  end.

Definition json_quote (s : string) : string :=
  String quote_char (json_escape_all s) +:+ String quote_char "".

(** [JSON.stringify(v)]: [None] is the result [undefined]; a BigInt
    anywhere in the value is a [TypeError]. Host objects have no own
    enumerable properties and serialize as an empty object. *)
Fixpoint stringify (v : JsValue) : Completion (option string) :=
  match v with
  | VUndefined | VFunction _ | VSymbol _ => Returned None
  | VNull => Returned (Some "null")
  | VBool b => Returned (Some (if b then "true" else "false"))
  | VNumber n => Returned (Some (pretty n))
  | VBigInt _ => Raised TypeError
  | VString s => Returned (Some (json_quote s))
  | VResponse _ | VRequest _ | VHeaders _ => Returned (Some "{}")
  | VObject props =>
      try! members :=
        (fix go (l : list (string * JsValue)) : Completion (list string) :=
           match l with
           | [] => Returned []
           | (k, x) :: l' =>
               try! sx := stringify x in
               try! rest := go l' in
               Returned match sx with
                        | Some t => (json_quote k +:+ ":" +:+ t) :: rest
                        | None => rest
                        end
           end) props in
      Returned (Some ("{" +:+ join "," members +:+ "}"))
  | VArray items =>
      try! elems :=
        (fix go (l : list JsValue) : Completion (list string) :=
           match l with
           | [] => Returned []
           | x :: l' =>
               try! sx := stringify x in
               try! rest := go l' in
               Returned (default "null" sx :: rest)
           end) items in
      Returned (Some ("[" +:+ join "," elems +:+ "]"))
  end.

(** *** [Headers] *)

(** Byte-lowercasing of a field name. *)
Definition byte_lower (c : ascii) : ascii :=
  let n := nat_of_ascii c in
  if (65 <=? n)%nat && (n <=? 90)%nat then ascii_of_nat (n + 32) else c.

Fixpoint field_name (name : string) : string :=
  match name with
  | EmptyString => EmptyString
  | String c s => String (byte_lower c) (field_name s)
  end.

(** [h.get(name)] *)
Definition headers_get (h : Headers) (name : string) : option string :=
  h !! field_name name.

(** [h.set(name, value)] for a name and a value that satisfy the header
    grammar, which is the case for the two names the loader writes. *)
Definition headers_set (h : Headers) (name value : string) : Headers :=
  <[field_name name := value]> h.

(** [h.append(name, value)] *)
Definition headers_append (h : Headers) (name value : string) : Headers :=
  match h !! field_name name with
  | Some old => <[field_name name := old +:+ ", " +:+ value]> h
  | None => <[field_name name := value]> h
  end.

(** The [token] grammar of field names. *)
Definition is_token_char (c : ascii) : bool :=
  is_word_char c
  || existsb (Ascii.eqb c)
       ["!"; "#"; "$"; "%"; "&"; "'"; "*"; "+"; "-"; "."; "^"; "`"; "|"; "~"]%char.

Fixpoint all_chars (f : ascii -> bool) (s : string) : bool :=
  match s with
  | EmptyString => true
  | String c s' => f c && all_chars f s'
  end.

Definition valid_name (name : string) : bool :=
  nonempty name && all_chars is_token_char name.

Definition is_http_space (c : ascii) : bool :=
  let n := nat_of_ascii c in
  ((n =? 9) || (n =? 10) || (n =? 13) || (n =? 32))%nat.

Fixpoint strip_leading (f : ascii -> bool) (s : string) : string :=
  match s with
  | String c s' => if f c then strip_leading f s' else s
  | EmptyString => EmptyString
  end.

Definition strip_both (f : ascii -> bool) (s : string) : string :=
  String.rev (strip_leading f (String.rev (strip_leading f s))).

Definition valid_value (value : string) : bool :=
  all_chars (fun c => let n := nat_of_ascii c in
                      negb ((n =? 0) || (n =? 10) || (n =? 13))%nat) value.

(** Appending one entry of a [HeadersInit], with the checks of the
    constructor. *)
Definition append_checked (h : Headers) (name : string) (v : JsValue)
  : Completion Headers :=
  try! s := toString v in
  let value := strip_both is_http_space s in
  if valid_name name && valid_value value
  then Returned (headers_append h name value)
  else Raised TypeError.

(** [new Headers(init)] *)
Definition new_Headers (init : JsValue) : Completion Headers :=
  match init with
  | VUndefined => Returned ∅
  | VHeaders h => Returned h
  | VObject props =>
      fold_left (fun acc kv => try! h := acc in append_checked h (fst kv) (snd kv))
                props (Returned ∅)
  | VArray items =>
      fold_left (fun acc item =>
                   try! h := acc in
                   match item with
                   | VArray [k; v] =>
                       try! name := toString k in append_checked h name v
                   | _ => Raised TypeError
                   end)
                items (Returned ∅)
  | VFunction _ | VResponse _ | VRequest _ => Returned ∅
  | _ => Raised TypeError
  end.

(** *** [Response] *)

Record Response := mkResponse {
  status : Z;
  statusText : string;
  body : option string;      (* [None] is the null body *)
  bodyUsed : bool;           (* the body stream was read or is locked *)
  headers : Headers
}.

(** First argument of the constructor: nothing, text, or the stream of
    another response. *)
Inductive BodyInit :=
| InitNull
| InitString (text : string)
| InitStream (content : string) (disturbed : bool).

(** [r.body] *)
Definition body_of (r : Response) : BodyInit :=
  match body r with
  | None => InitNull
  | Some content => InitStream content (bodyUsed r)
  end.

Definition null_body_status (st : Z) : bool :=
  (st =? 101) || (st =? 103) || (st =? 204) || (st =? 205) || (st =? 304).

Definition content_type_text : string := "text/plain;charset=UTF-8".
Definition content_type_json : string := "application/json".

(** [new Response(body, { status, statusText, headers })]: a disturbed
    stream is a [TypeError], a status outside 200..599 a [RangeError], a
    body together with a null-body status a [TypeError]; a text body
    brings its content type unless one is given. The reason-phrase check
    on [statusText] is left out. *)
Definition new_Response (b : BodyInit) (st : Z) (stText : string)
                        (h : Headers) : Completion Response :=
  match b with
  | InitStream _ true => Raised TypeError
  | _ =>
      if (st <? 200) || (599 <? st) then Raised RangeError
      else match b with
           | InitNull => Returned (mkResponse st stText None false h)
           | InitString text =>
               if null_body_status st then Raised TypeError
               else Returned
                      (mkResponse st stText (Some text) false
                         match headers_get h "Content-Type" with
                         | Some _ => h
                         | None => headers_set h "Content-Type" content_type_text
                         end)
           | InitStream content _ =>
               if null_body_status st then Raised TypeError
               else Returned (mkResponse st stText (Some content) false h)
           end
  end.

(** Reading of a decimal numeral; [None] stands for [NaN]. Exponents,
    fractions, signs and other radixes are outside the model. *)
Fixpoint decimal (acc : Z) (s : string) : option Z :=
  match s with
  | EmptyString => Some acc
  | String c s' =>
      match Ascii.is_nat c with
      | Some d => decimal (10 * acc + Z.of_nat d) s'
      | None => None
      end
  end.

(** Conversion of a [status] member to [unsigned short]: [ToNumber], with
    [NaN] read as 0, then reduction modulo 2^16. *)
Definition to_status (v : JsValue) : Completion Z :=
  match v with
  | VNumber n => Returned (n mod 65536)
  | VBool b => Returned (if b then 1 else 0)
  | VUndefined | VNull => Returned 0
  | VBigInt _ | VSymbol _ => Raised TypeError
  | _ =>
      try! s := toString v in
      Returned (default 0 (decimal 0 (trim s)) mod 65536)
  end.

(** Conversion of a constructor's first argument given as a value. *)
Definition body_init_of (v : JsValue) : Completion BodyInit :=
  match v with
  | VUndefined | VNull => Returned InitNull
  | _ => try! s := toString v in Returned (InitString s)
  end.

(** [Response.json(data)] *)
Definition Response_json (data : JsValue) : Completion Response :=
  try! text := stringify data in
  match text with
  | None => Raised TypeError
  | Some t =>
      new_Response (InitString t) 200 ""
                   (headers_set ∅ "Content-Type" content_type_json)
  end.

End Http.

(** ** The Hono context of one request *)

Module Hono.
Import JsString Js Http.

(** Everything one request can reach: the context's key/value store
    ([c.get] / [c.set]), the [Response] objects alive, the context's own
    response [c.res] when it has one, and the next unused reference. *)
Record World := mkWorld {
  vars : gmap string JsValue;
  responses : gmap nat Response;
  c_res : option nat;
  next_ref : nat
}.

Definition empty_world : World := mkWorld ∅ ∅ None 0%nat.

(** Computations that read and write the world and may throw; what was
    written before a throw stays written. *)
Definition M (A : Type) : Type := World -> Completion A * World.

Definition ret {A} (a : A) : M A := fun w => (Returned a, w).

Definition throw {A} (e : JsError) : M A := fun w => (Raised e, w).

Definition bind {A B} (m : M A) (k : A -> M B) : M B :=
  fun w => match m w with
           | (Returned a, w') => k a w'
           | (Raised e, w') => (Raised e, w')
           end.

Notation "'do!' x := m 'in' k" := (bind m (fun x => k))
  (at level 10, x name, m at level 100, k at level 200).

(** Lifting of a computation that does not touch the world. *)
Definition lift {A} (c : Completion A) : M A := fun w => (c, w).

(** [c.get(key)] *)
Definition c_get (key : string) (w : World) : JsValue :=
  default VUndefined (vars w !! key).

(** [c.set(key, value)] *)
Definition c_set (key : string) (v : JsValue) (w : World) : World :=
  mkWorld (<[key := v]> (vars w)) (responses w) (c_res w) (next_ref w).

(** A new object holding [r]. *)
Definition alloc (r : Response) : M nat :=
  fun w => (Returned (next_ref w),
            mkWorld (vars w) (<[next_ref w := r]> (responses w))
                    (c_res w) (S (next_ref w))).

(** [resp.headers.set(name, value)] on the object behind [ref]. *)
Definition set_header (ref : nat) (name value : string) (w : World) : World :=
  mkWorld (vars w)
          (alter (fun r => mkResponse (status r) (statusText r) (body r)
                                      (bodyUsed r)
                                      (headers_set (headers r) name value))
                 ref (responses w))
          (c_res w) (next_ref w).

(** [resp.headers.get(name)] on the object behind [ref]. *)
Definition get_header (ref : nat) (name : string) (w : World) : option string :=
  r ← responses w !! ref; headers_get (headers r) name.

(** [c.res?.headers?.get?.(name)] *)
Definition c_res_header (name : string) (w : World) : option string :=
  ref ← c_res w; get_header ref name w.

(** [c.header(name, value)]: the field is set on the context's response;
    a context without a response yet gets an empty one carrying it. *)
Definition c_header (name value : string) (w : World) : World :=
  match c_res w with
  | Some ref => set_header ref name value w
  | None =>
      mkWorld (vars w)
              (<[next_ref w :=
                   mkResponse 200 "" None false (headers_set ∅ name value)]>
                 (responses w))
              (Some (next_ref w)) (S (next_ref w))
  end.

(** The context's response, when it has one, is a live object. *)
Definition live_res (w : World) : Prop :=
  match c_res w with
  | Some ref => is_Some (responses w !! ref)
  | None => True
  end.

End Hono.

(** ** Response materialization and header reconciliation *)

Module Reconciler.
Import JsString Js Http Hono.

Definition KEY_TRACE : string := "__trace_id__".
Definition KEY_SHARED : string := "__cf_mutable_response__".
Definition KEY_OVERRIDE : string := "__cf_override_request__".

(** [randId()], from the base-36 rendering of [Math.random()]. *)
Definition randId (random36 : string) : string :=
  take_str 8 (drop_str 2 random36).

(** The lower-cased, trimmed comma-separated tokens of a field value. *)
Definition vary_tokens (value : string) : list string :=
  map (fun s => toLowerCase (trim s)) (split_on "," value).

Definition ensureVaryOrigin (w : World) : World :=
  match c_res_header "Vary" w with
  | None => c_header "Vary" "Origin" w
  | Some prev =>
      if negb (nonempty prev) then c_header "Vary" "Origin" w
      else if negb (includes (vary_tokens prev) "origin")
      then c_header "Vary" (prev +:+ ", Origin") w
      else w
  end.

(** [for (const [k, v] of Object.entries(extra)) headers.set(k, v)] *)
Fixpoint set_entries (h : Headers) (extra : list (string * JsValue))
  : Completion Headers :=
  match extra with
  | [] => Returned h
  | (k, v) :: rest =>
      try! value := toString v in
      set_entries (headers_set h k value) rest
  end.

(** Own properties of a value that is not a host object. *)
Definition own_props (v : JsValue) : list (string * JsValue) :=
  match v with VObject props => props | _ => [] end.

(** The copy [cloneWithExtraHeaders] builds, before it becomes an object.
    A [Response] is read through its fields; any other value through its
    own properties, an absent [status] or [statusText] taking the
    constructor's default. *)
Definition clone_of (w : World) (res : JsValue)
                    (extra : list (string * JsValue)) : Completion Response :=
  match res with
  | VResponse ref =>
      match responses w !! ref with
      | Some r =>
          try! h := set_entries (headers r) extra in
          new_Response (body_of r) (status r) (statusText r) h
      | None => Raised TypeError
      end
  | _ =>
      let props := own_props res in
      try! h0 := new_Headers (prop props "headers") in
      try! h := set_entries h0 extra in
      try! b := body_init_of (prop props "body") in
      try! st := match prop props "status" with
                 | VUndefined => Returned 200
                 | v => to_status v
                 end in
      try! stText := match prop props "statusText" with
                     | VUndefined | VNull => Returned EmptyString
                     | v => toString v
                     end in
      new_Response b st stText h
  end.

Definition cloneWithExtraHeaders (res : JsValue)
                                 (extra : list (string * JsValue)) : M nat :=
  fun w => bind (lift (clone_of w res extra)) alloc w.

(** The [try] block of the object case. *)
Definition rebuild (res : JsValue) : Completion Response :=
  match res with
  | VObject props =>
      if truthy (prop props "status") && truthy (prop props "headers")
         && (has_prop props "body" || has_prop props "bodyUsed")
      then
        try! h := new_Headers (prop props "headers") in
        try! b := body_init_of (prop props "body") in
        try! st := to_status (prop props "status") in
        new_Response b st "" h
      else Response_json res
  | _ => Response_json res
  end.

(** The response [toMutableResponse] builds, before it becomes an object.
    A reference denotes a live object; the branch for one that does not is
    never taken from a world the loader built. *)
Definition normalized (w : World) (res : JsValue) : Completion Response :=
  match res with
  | VUndefined | VNull => new_Response InitNull 204 "" ∅
  | VResponse ref =>
      match responses w !! ref with
      | Some r => new_Response (body_of r) (status r) (statusText r) (headers r)
      | None => Raised TypeError
      end
  | _ =>
      if String.eqb (typeof res) "object" then
        match rebuild res with
        | Returned out => Returned out
        | Raised _ => Response_json res
        end
      else
        try! b := body_init_of res in
        new_Response b 200 "" ∅
  end.

Definition toMutableResponse (res : JsValue) : M nat :=
  fun w => bind (lift (normalized w res)) alloc w.

(** [v instanceof Response] *)
Definition is_Response (v : JsValue) : bool :=
  match v with VResponse _ => true | _ => false end.

Definition getSharedMutableResponse (next : M JsValue) : M JsValue :=
  fun w =>
    let shared := c_get KEY_SHARED w in
    if truthy shared then (Returned shared, w)
    else
      (do! downstream := next in
       fun w1 =>
         let downstreamResponse :=
           if is_Response downstream then downstream
           else match c_res w1 with
                | Some ref => VResponse ref
                | None => downstream
                end in
         (do! ref := toMutableResponse downstreamResponse in
          fun w2 => (Returned (VResponse ref),
                     c_set KEY_SHARED (VResponse ref) w2)) w1) w.

(** [c.get("__trace_id__") || randId()] *)
Definition trace_of (random36 : string) (w : World) : JsValue :=
  let t := c_get KEY_TRACE w in
  if truthy t then t else VString (randId random36).

(** The response the global wrapper clones: the stored one when some
    middleware materialized it, the normalized result of [next()] otherwise. *)
Definition materialized (res : JsValue) : M JsValue :=
  fun w =>
    let stored := c_get KEY_SHARED w in
    if truthy stored then (Returned stored, w)
    else (do! ref := toMutableResponse res in ret (VResponse ref)) w.

(** The handler [loadFunctions] registers first, at ["/*"]. *)
Definition globalWrapper (next : M JsValue) (random36 : string) : M nat :=
  fun w =>
    let trace := trace_of random36 w in
    (do! res := next in
     do! shared := materialized res in
     do! value := lift (toString trace) in
     fun w2 =>
       cloneWithExtraHeaders shared [("X-Trace-Id", trace)]
                             (c_header "X-Trace-Id" value w2))
      (c_set KEY_TRACE trace w).

(** A response the constructor accepts as the source of a copy: a status
    in 200..599 and, when there is a body, a stream that was not read and a
    status that allows a body. *)
Definition intact (r : Response) : bool :=
  (200 <=? status r) && (status r <=? 599)
  && match body r with
     | None => true
     | Some _ => negb (bodyUsed r) && negb (null_body_status (status r))
     end.

(** The values [toMutableResponse] turns into a response: no value, an
    intact response, a primitive that is not a symbol, and an object that
    [JSON.stringify] can serialize. *)
Definition normalizable (w : World) (res : JsValue) : bool :=
  match res with
  | VUndefined | VNull => true
  | VResponse ref =>
      match responses w !! ref with
      | Some r => intact r
      | None => false
      end
  | VSymbol _ => false
  | VBool _ | VNumber _ | VBigInt _ | VString _ | VFunction _ => true
  | VRequest _ | VHeaders _ | VObject _ | VArray _ =>
      match stringify res with
      | Returned (Some _) => true
      | _ => false
      end
  end.

End Reconciler.

(** ** The chain composer: [composeCFChain] *)

Module Chain.
Import JsString Js Http Hono Reconciler.

(** The context handed to handlers. [locals] and [data] are views of the
    context store, which lives in the world; [waitUntil] forwards to the
    host and plays no part in the chain. *)
Record CfContext := mkCfContext {
  request : JsValue;
  env : JsValue;
  params : JsValue
}.

(** What a handler does, as far as the chain can tell: it acts on the
    world and reads it, awaits its continuation (seeing how that
    completes, as a [try]/[catch] around [await next()] would), and ends
    by returning a value or by throwing. Returning nothing is returning
    [VUndefined]. Every [next()] is awaited before the handler goes on, and
    the replacement request passed to it, if any, is a [Request] object,
    given by its reference. *)
Inductive Prog :=
| Return (v : JsValue)
| Throw (e : JsError)
| CallNext (reqOverride : option nat) (k : Completion JsValue -> Prog)
| Act (f : World -> World) (k : Prog)
| Observe (k : World -> Prog).

(** A handler function; both calling conventions ([fn(ctx, next)] for a
    declared arity of two or more, [fn(ctx)] with [ctx.next] otherwise)
    hand it the same continuation. *)
Record Handler := mkHandler { arity : nat; fn : CfContext -> Prog }.

(** One entry of a module's export. *)
Inductive Entry :=
| Callable (h : Handler)
| NotCallable (v : JsValue).

(** The export itself: an array of entries or a single value. *)
Inductive Exported :=
| Sequence (entries : list Entry)
| Single (entry : Entry).

(** Points of a run that the source marks with a debug line or a throw. *)
Inductive Event :=
| Enter (i : Z)        (* handler [i] is invoked *)
| CallFinal            (* [finalNext()] is invoked *)
| Violation.           (* the protocol error is thrown *)

(** State of one [run]: the closure variable [idx], the events so far,
    and the world. *)
Record RunState := mkRunState {
  idx : Z;
  events : list Event;
  world : World
}.

Definition protocol_error : JsError := Error "next() called multiple times".

Definition note (e : Event) (st : RunState) : RunState :=
  mkRunState (idx st) (events st ++ [e]) (world st).

Definition set_idx (i : Z) (st : RunState) : RunState :=
  mkRunState i (events st) (world st).

Definition on_world (f : World -> World) (st : RunState) : RunState :=
  mkRunState (idx st) (events st) (f (world st)).

(** The first half of [stepNext]: a replacement request that is not the
    context's own request is cloned and stored as the pending override. *)
Definition store_override (ctx : CfContext) (reqOverride : option nat)
                          (w : World) : World :=
  match reqOverride with
  | Some ref =>
      if match request ctx with
         | VRequest own => negb (ref =? own)%nat
         | _ => true
         end
      then mkWorld (<[KEY_OVERRIDE := VRequest (next_ref w)]> (vars w))
                   (responses w) (c_res w) (S (next_ref w))
      else w
  | None => w
  end.

(** Running a handler body against its continuation. The flag is the
    variable [called] of the enclosing frame. *)
Fixpoint exec (stepNext : option nat -> RunState -> Completion JsValue * RunState)
              (p : Prog) (called : bool) (st : RunState)
  : Completion JsValue * RunState * bool :=
  match p with
  | Return v => (Returned v, st, called)
  | Throw e => (Raised e, st, called)
  | CallNext reqOverride k =>
      let '(o, st') := stepNext reqOverride st in
      exec stepNext (k o) true st'
  | Act f k => exec stepNext k called (on_world f st)
  | Observe k => exec stepNext (k (world st)) called st
  end.

Definition is_undefined (v : JsValue) : bool :=
  match v with VUndefined => true | _ => false end.

(** [runAt(i, ctx)]. The source reaches [runAt] at 0 and, from position
    [i], at [i + 1] only, so the handlers [chain[i]], [chain[i+1]], ...
    are passed along as [rest] in place of the index into [chain]; [rest]
    is empty exactly when [i >= chain.length]. *)
Fixpoint runAt (finalNext : option (M JsValue)) (rest : list Handler)
               (i : Z) (ctx : CfContext) (st : RunState) {struct rest}
  : Completion JsValue * RunState :=
  if i <=? idx st then (Raised protocol_error, note Violation st)
  else
    let st := set_idx i st in
    match rest with
    | [] =>
        match finalNext with
        | Some final =>
            let '(o, w) := final (world st) in
            (o, mkRunState (idx st) (events st ++ [CallFinal]) w)
        | None => (Returned VUndefined, st)
        end
    | h :: rest' =>
        let stepNext := fun reqOverride st1 =>
          runAt finalNext rest' (i + 1) ctx
                (on_world (store_override ctx reqOverride) st1) in
        let '(out, st2, called) :=
          exec stepNext (fn h ctx) false (note (Enter i) st) in
        match out with
        | Raised e => (Raised e, st2)
        | Returned v =>
            if is_Response v then (Returned v, st2)
            else if negb (is_undefined v) then (Returned v, st2)
            else if negb called then runAt finalNext rest' (i + 1) ctx st2
            else (Returned v, st2)
        end
    end.

(** The continuation handed to the handler at position [i], whose
    successors are [rest']. *)
Definition stepNext (finalNext : option (M JsValue)) (rest' : list Handler)
                    (i : Z) (ctx : CfContext) (reqOverride : option nat)
                    (st : RunState) : Completion JsValue * RunState :=
  runAt finalNext rest' (i + 1) ctx
        (on_world (store_override ctx reqOverride) st).

(** [fns.filter((fn) => typeof fn === "function")] *)
Definition callables (fns : list Entry) : list Handler :=
  omap (fun e => match e with Callable h => Some h | NotCallable _ => None end)
       fns.

Definition chain_of (exported : Exported) : list Handler :=
  callables match exported with
            | Sequence entries => entries
            | Single entry => [entry]
            end.

(** [composeCFChain(exported)(rootCtx, finalNext)], started in world [w]. *)
Definition composeCFChain (exported : Exported) (rootCtx : CfContext)
                          (finalNext : option (M JsValue)) (w : World)
  : Completion JsValue * RunState :=
  runAt finalNext (chain_of exported) 0 rootCtx (mkRunState (-1) [] w).

End Chain.

(** ** The registration orchestrator: [loadFunctions], PASS 1 *)

Module Orchestrator.
Import JsString Js PathCompiler Chain.

Definition getMethodFromExportName (name : string) : option string :=
  if negb (startsWith name "onRequest") then None
  else
    let suffix := drop_str 9 name in
    if String.eqb suffix "" then Some "ALL"
    else
      let method := toUpperCase suffix in
      if includes ["GET"; "POST"; "PUT"; "DELETE"; "PATCH"; "HEAD"; "OPTIONS"]
                  method
      then Some method else None.

(** [{ method, exported }] *)
Record HandlerExport := mkHandlerExport {
  method : string;
  exported : Exported
}.

(** [{ filepath, routes, isMiddleware, handlers }], an element of [all]. *)
Record FileEntry := mkFileEntry {
  filepath : string;
  entry_routes : list Route;
  entry_isMiddleware : bool;
  handlers : list HandlerExport
}.

(** [typeof exported === "function" || Array.isArray(exported)] *)
Definition usable (e : Exported) : bool :=
  match e with
  | Sequence _ | Single (Callable _) => true
  | Single (NotCallable _) => false
  end.

(** A loaded module: its exports by name, in key order. *)
Definition LoadedModule : Type := list (string * Exported).

Definition default_export (loaded : LoadedModule) : option Exported :=
  snd <$> find (fun kv => String.eqb (fst kv) "default") loaded.

(** The body of the collecting loop for one file; [None] is [continue]. *)
Definition collect_one (baseDir : string) (file : string * LoadedModule)
  : option FileEntry :=
  let '(filepath, loaded) := file in
  let compiled := filepathToRoutes filepath (Some baseDir) in
  let handlers :=
    omap (fun kv =>
            match getMethodFromExportName (fst kv) with
            | Some method =>
                if usable (snd kv) then Some (mkHandlerExport method (snd kv))
                else None
            | None => None
            end) loaded in
  let handlers :=
    match handlers, default_export loaded with
    | [], Some d => if usable d then [mkHandlerExport "ALL" d] else []
    | _, _ => handlers
    end in
  match handlers with
  | [] => None
  | _ => Some (mkFileEntry filepath (routes compiled) (isMiddleware compiled)
                           handlers)
  end.

Definition collect (baseDir : string) (modules : list (string * LoadedModule))
  : list FileEntry :=
  omap (collect_one baseDir) modules.

(** An element of [mwAll]. The handler is the closure
    [makeMiddlewareHandler(allH.exported, arrayParams)], kept as the two
    values it closes over. *)
Record Middleware := mkMiddleware {
  mwRoute : string;
  depth : Z;
  handler : Exported * list string;
  file : string
}.

(** [path === "/" ? "/*" : `${path}/*`] *)
Definition subtree (path : string) : string :=
  if String.eqb path "/" then "/*" else path +:+ "/*".

(** [mwRoute.split("/").length] *)
Definition depth_of (mwRoute : string) : Z :=
  Z.of_nat (length (split_on "/" mwRoute)).

(** The collecting loop of PASS 1. *)
Definition gather (all : list FileEntry) : list Middleware :=
  flat_map
    (fun entry =>
       if negb (entry_isMiddleware entry) then []
       else
         flat_map
           (fun r =>
              let mwRoute := subtree (path r) in
              match find (fun h => String.eqb (method h) "ALL") (handlers entry) with
              | Some allH =>
                  [mkMiddleware mwRoute (depth_of mwRoute)
                                (exported allH, arrayParams r)
                                (filepath entry)]
              | None => []
              end)
           (entry_routes entry))
    all.

(** [mwAll.sort((a, b) => a.depth - b.depth)]: the stable sort by
    ascending depth, as insertion from the right. *)
Fixpoint insert_by_depth (m : Middleware) (l : list Middleware)
  : list Middleware :=
  match l with
  | [] => [m]
  | x :: l' =>
      if depth m <=? depth x then m :: x :: l'
      else x :: insert_by_depth m l'
  end.

Definition sort_by_depth (l : list Middleware) : list Middleware :=
  foldr insert_by_depth [] l.

(** The calls [app.use(m.mwRoute, m.handler)] of PASS 1, in order. *)
Definition pass1 (all : list FileEntry) : list Middleware :=
  sort_by_depth (gather all).

(** The order the registrations are sorted by. *)
Definition shallower_eq (a b : Middleware) : Prop := depth a <= depth b.

End Orchestrator.

(** ** Vocabulary for statements about runs *)

Module ChainTrace.
Import JsString Js Http Hono Reconciler Chain.

(** The events of entering positions [i], [i + 1], ..., [n] of them. *)
Fixpoint enters (i : Z) (n : nat) : list Event :=
  match n with
  | O => []
  | S n' => Enter i :: enters (i + 1) n'
  end.

(** The events a run can add from position [i] on with [n] handlers left:
    consecutive positions are entered, starting at [i]; the final
    continuation is invoked at most once, and only past the last handler;
    protocol errors come last. *)
Inductive shape : Z -> nat -> list Event -> Prop :=
| shape_enter i n es :
    shape (i + 1) n es -> shape i (S n) (Enter i :: es)
| shape_stop i n k :
    shape i n (replicate k Violation)
| shape_final i k :
    shape i 0 (CallFinal :: replicate k Violation).

Definition is_violation (e : Event) : bool :=
  match e with Violation => true | _ => false end.

(** Once the protocol error has been thrown, no handler is entered and the
    final continuation is not invoked. *)
Fixpoint no_link_after_violation (es : list Event) : bool :=
  match es with
  | [] => true
  | Violation :: es' => forallb is_violation es'
  | _ :: es' => no_link_after_violation es'
  end.

(** A handler body that returns no value, never reaches for its
    continuation and does not throw. *)
Inductive quiet : Prog -> Prop :=
| quiet_return : quiet (Return VUndefined)
| quiet_act f k : quiet k -> quiet (Act f k)
| quiet_observe k : (forall w, quiet (k w)) -> quiet (Observe k).

(** What such a body does to the world. *)
Fixpoint settle (p : Prog) (w : World) : World :=
  match p with
  | Act f k => settle k (f w)
  | Observe k => settle (k w) w
  | _ => w
  end.

(** The world after the bodies of [chain] ran one after the other. *)
Definition settle_all (ctx : CfContext) (chain : list Handler) (w : World)
  : World :=
  fold_left (fun w h => settle (fn h ctx) w) chain w.

(** The state in which [run] starts. *)
Definition initial (w : World) : RunState := mkRunState (-1) [] w.

(** The state in which the handler at position [i] starts. *)
Definition entered (i : Z) (st : RunState) : RunState :=
  note (Enter i) (set_idx i st).

(** [typeof fn === "function"] *)
Definition is_callable (e : Entry) : bool :=
  match e with Callable _ => true | NotCallable _ => false end.

End ChainTrace.

(** ** Concrete handlers, contexts and worlds used as examples *)

Module Samples.
Import JsString Js Http Hono Reconciler Chain ChainTrace Orchestrator.

Definition root_ctx : CfContext :=
  mkCfContext (VRequest 0) (VObject []) (VObject []).

(** [async (ctx, next) => { await next() }] *)
Definition awaits_next : Handler :=
  mkHandler 2 (fun _ => CallNext None (fun o =>
                 match o with
                 | Returned _ => Return VUndefined
                 | Raised e => Throw e
                 end)).

(** [async () => "x"] *)
Definition returns_x : Handler := mkHandler 0 (fun _ => Return (VString "x")).

(** [async (ctx) => { ctx.locals.set("seen", true) }] *)
Definition marks_seen : Handler :=
  mkHandler 1 (fun _ => Act (c_set "seen" (VBool true)) (Return VUndefined)).

(** [async (ctx, next) => { await next(); return next() }] *)
Definition calls_twice : Handler :=
  mkHandler 2 (fun _ => CallNext None (fun _ => CallNext None (fun o =>
                 match o with
                 | Returned v => Return v
                 | Raised e => Throw e
                 end))).

(** [{ count: 1n }]: [JSON.stringify] cannot serialize a BigInt. *)
Definition bigint_object : JsValue := VObject [("count", VBigInt 1)].

(** [{ status: 999, headers: {}, body: null }]: shaped like a response,
    with a status the constructor rejects. *)
Definition bad_status_object : JsValue :=
  VObject [("status", VNumber 999); ("headers", VObject []); ("body", VNull)].

(** [{ status: 201, headers: { "X-From-Middleware": "yes" }, body: "hi" }] *)
Definition created_object : JsValue :=
  VObject [("status", VNumber 201);
           ("headers", VObject [("X-From-Middleware", VString "yes")]);
           ("body", VString "hi")].

(** A downstream pipeline in which a middleware materializes the response
    of the request and resolves to no value, as Hono's [next()] does. *)
Definition next_materializes : M JsValue :=
  bind (toMutableResponse created_object)
       (fun ref w => (Returned VUndefined, c_set KEY_SHARED (VResponse ref) w)).

(** The world that pipeline leaves when the wrapper started it with the
    trace id ["lngz8vk5"], and the response it materialized. *)
Definition world_after_middleware : World :=
  snd (next_materializes (c_set KEY_TRACE (VString "lngz8vk5") empty_world)).

Definition created_response : Response :=
  mkResponse 201 "" (Some "hi") false
    (headers_set (headers_set ∅ "X-From-Middleware" "yes")
                 "Content-Type" content_type_text).

(** A downstream pipeline that resolves to a response-shaped object. *)
Definition next_returns_created : M JsValue := ret created_object.

(** [async () => new Response(null, { status: 204 })], as a final
    continuation. *)
Definition final_204 : M JsValue :=
  bind (toMutableResponse VUndefined) (fun ref => ret (VResponse ref)).

(** A context whose response carries an empty [Vary] field. *)
Definition empty_vary_world : World :=
  mkWorld ∅ {[ 0%nat := mkResponse 200 "" None false {[ "vary" := "" ]} ]}
          (Some 0%nat) 1.

(** A context whose response already varies on the encoding. *)
Definition encoding_vary_world : World :=
  mkWorld ∅
          {[ 0%nat := mkResponse 200 "" None false
                                 {[ "vary" := "Accept-Encoding" ]} ]}
          (Some 0%nat) 1.

(** [async (ctx, next) => next()] *)
Definition pass_through : Exported :=
  Single (Callable (mkHandler 2 (fun _ => CallNext None
            (fun o => match o with
                      | Returned v => Return v
                      | Raised e => Throw e
                      end)))).

(** Two middleware files, the deeper one discovered first. *)
Definition sample_modules : list (string * LoadedModule) :=
  [ ("../functions/api/_middleware.js", [("onRequest", pass_through)]);
    ("../functions/_middleware.js", [("onRequest", pass_through)]) ].

Definition sample_all : list FileEntry := collect "../functions" sample_modules.

End Samples.

(** ** More vocabulary for statements about runs *)

Module RunVocabulary.
Import JsString Js Http Hono Reconciler Chain ChainTrace.

Definition is_enter (e : Event) : bool :=
  match e with Enter _ => true | _ => false end.

Definition is_final (e : Event) : bool :=
  match e with CallFinal => true | _ => false end.

(** A handler body that ends with the outcome [o], a returned value or a
    thrown error, without reaching for its continuation. *)
Inductive direct : Prog -> Completion JsValue -> Prop :=
| direct_return v : direct (Return v) (Returned v)
| direct_throw e : direct (Throw e) (Raised e)
| direct_act f k o : direct k o -> direct (Act f k) o
| direct_observe k o : (forall w, direct (k w) o) -> direct (Observe k) o.

End RunVocabulary.

(** ** Values that [JSON.stringify] accepts *)

Module JsonVocabulary.
Import JsString Js Http.

(** No BigInt anywhere in the value. *)
Fixpoint bigint_free (v : JsValue) : bool :=
  match v with
  | VBigInt _ => false
  | VObject props =>
      (fix all (l : list (string * JsValue)) : bool :=
         match l with
         | [] => true
         | (_, x) :: l' => bigint_free x && all l'
         end) props
  | VArray items =>
      (fix all (l : list JsValue) : bool :=
         match l with
         | [] => true
         | x :: l' => bigint_free x && all l'
         end) items
  | _ => true
  end.

(** No function anywhere in the value, hence no [toJSON] method for
    [JSON.stringify] to call. *)
Fixpoint function_free (v : JsValue) : bool :=
  match v with
  | VFunction _ => false
  | VObject props =>
      (fix all (l : list (string * JsValue)) : bool :=
         match l with
         | [] => true
         | (_, x) :: l' => function_free x && all l'
         end) props
  | VArray items =>
      (fix all (l : list JsValue) : bool :=
         match l with
         | [] => true
         | x :: l' => function_free x && all l'
         end) items
  | _ => true
  end.

End JsonVocabulary.

(** ** Header entries that [set] takes as they are *)

Module HeaderVocabulary.
Import JsString Js Http.

(** An entry [k: v] for which [headers.set(k, v)] neither throws nor
    alters the value: [k] is a name of the [token] grammar, and [v] converts
    to a string that is a valid field value with no HTTP white space at
    either end. *)
Definition settable (kv : string * JsValue) : bool :=
  valid_name (fst kv)
  && match toString (snd kv) with
     | Returned s =>
         valid_value s && String.eqb (strip_both is_http_space s) s
     | Raised _ => false
     end.

End HeaderVocabulary.

(** ** Plumbing: [createSharedProxy] and [makeCFContext] *)

Module Plumbing.
Import JsString Js Http Hono Reconciler Chain.

(** A property key: a string or a symbol. *)
Inductive PropKey :=
| KString (name : string)
| KSymbol (description : string).

(** What reading a property of the proxy yields: one of its four methods,
    or a value. *)
Inductive Member :=
| Method (name : string)
| Value (v : JsValue).

Definition is_method_name (name : string) : bool :=
  includes ["get"; "set"; "has"; "delete"] name.

(** The [get] trap: [shared[k]]. *)
Definition proxy_get (k : PropKey) (w : World) : Member :=
  match k with
  | KString name =>
      if is_method_name name then Method name else Value (c_get name w)
  | KSymbol _ => Value VUndefined
  end.

(** The [set] trap: [shared[k] = v]. *)
Definition proxy_set (k : PropKey) (v : JsValue) (w : World) : World :=
  match k with
  | KString name => c_set name v w
  | KSymbol _ => w
  end.

(** The [has] trap: [k in shared]. *)
Definition proxy_has (k : PropKey) (w : World) : bool :=
  match k with
  | KString name => negb (is_undefined (c_get name w))
  | KSymbol _ => false
  end.

(** The [deleteProperty] trap: [delete shared[k]]. *)
Definition proxy_delete (k : PropKey) (w : World) : World :=
  match k with
  | KString name => c_set name VUndefined w
  | KSymbol _ => w
  end.

(** The [ownKeys] trap. *)
Definition proxy_ownKeys (w : World) : list string := [].

(** The four methods: [shared.get(x)], [shared.set(x, v)], [shared.has(x)]
    and [shared.delete(x)]. *)
Definition locals_get (x : string) (w : World) : JsValue := c_get x w.

Definition locals_set (x : string) (v : JsValue) (w : World) : World :=
  c_set x v w.

Definition locals_has (x : string) (w : World) : bool :=
  negb (is_undefined (c_get x w)).

Definition locals_delete (x : string) (w : World) : World :=
  c_set x VUndefined w.

(** What [makeCFContext] reads off the Hono context besides its store:
    [c.req.raw ?? c.req], the parameters [c.req.param()] (or [c.params]) as
    own properties, and [c.env]. *)
Record HonoInput := mkHonoInput {
  req_raw : JsValue;
  req_param : list (string * JsValue);
  c_env : JsValue
}.

(** The names every plain object inherits from [Object.prototype]. *)
Definition inherited_name (name : string) : bool :=
  includes ["constructor"; "__proto__"; "hasOwnProperty"; "isPrototypeOf";
            "propertyIsEnumerable"; "toLocaleString"; "toString"; "valueOf";
            "__defineGetter__"; "__defineSetter__"; "__lookupGetter__";
            "__lookupSetter__"] name.

(** [params[name]]: an own property, else an inherited member (some object
    that is neither an array nor a string), else [undefined]. *)
Definition lookup_param (params : list (string * JsValue)) (name : string)
  : JsValue :=
  if has_prop params name then prop params name
  else if inherited_name name then VFunction "[native code]"
  else VUndefined.

(** [params[name] = v]: an own property is updated in place, a new one is
    added. *)
Fixpoint assign (params : list (string * JsValue)) (name : string)
                (v : JsValue) : list (string * JsValue) :=
  match params with
  | [] => [(name, v)]
  | (k, x) :: rest =>
      if String.eqb k name then (k, v) :: rest
      else (k, x) :: assign rest name v
  end.

(** [v.split("/").filter(Boolean)] *)
Definition segments (s : string) : list string :=
  filter nonempty (split_on "/" s).

(** The body of the loop over [arrayParams]. *)
Definition resolve_param (params : list (string * JsValue)) (name : string)
  : list (string * JsValue) :=
  match lookup_param params name with
  | VArray _ => params
  | VString s => assign params name (VArray (map VString (segments s)))
  | VUndefined | VNull => assign params name (VArray [])
  | _ => params
  end.

(** [makeCFContext(c, arrayParams)]; [random36] feeds [randId()] when the
    store holds no trace id. The result is the context and the world. *)
Definition makeCFContext (c : HonoInput) (arrayParams : list string)
                         (random36 : string) (w : World)
  : CfContext * World :=
  let request := req_raw c in
  let override := c_get KEY_OVERRIDE w in
  let trace := c_get KEY_TRACE w in
  let w' := if truthy trace then w
            else c_set KEY_TRACE (VString (randId random36)) w in
  let params := fold_left resolve_param arrayParams (req_param c) in
  (mkCfContext (if truthy override then override else request)
               (if truthy (c_env c) then c_env c else VObject [])
               (VObject params),
   w').

End Plumbing.

(** ** Wrappers: [makeRouteHandler] *)

Module Wrappers.
Import JsString Js Http Hono Reconciler Chain Plumbing.

(** [makeRouteHandler(exported, arrayParams)(c)]; the two strings feed the
    two places that may call [randId()]. *)
Definition makeRouteHandler (exported : Exported) (arrayParams : list string)
                            (c : HonoInput) (random36 random36' : string)
  : M JsValue :=
  fun w =>
    let trace := trace_of random36 w in
    let '(cfCtx, w1) :=
      makeCFContext c arrayParams random36' (c_set KEY_TRACE trace w) in
    let '(raw, st) := composeCFChain exported cfCtx (Some (ret VUndefined)) w1 in
    match raw with
    | Raised e => (Raised e, world st)
    | Returned v =>
        if is_Response v then (Returned v, world st)
        else if is_undefined v then
          (do! ref := bind (lift (new_Response InitNull 204 "" ∅)) alloc in
           ret (VResponse ref)) (world st)
        else
          (do! ref := toMutableResponse v in ret (VResponse ref)) (world st)
    end.

End Wrappers.

(** ** More vocabulary and examples *)

Module PlumbingVocabulary.
Import JsString Js Http Hono Reconciler Chain Plumbing.

(** The own property [name] that the loop over [arrayParams] leaves when
    [name] is one of the array parameters. *)
Definition resolved_value (params : list (string * JsValue)) (name : string)
  : JsValue :=
  match lookup_param params name with
  | VString s => VArray (map VString (segments s))
  | VUndefined | VNull => VArray []
  | _ => prop params name
  end.

(** A request to [/docs/guide/intro] matched by [/docs/:section{.+}]. *)
Definition docs_request : HonoInput :=
  mkHonoInput (VRequest 0) [("section", VString "guide/intro")] (VObject []).

End PlumbingVocabulary.

(** ** The loader: [loadFunctions], options and PASS 2 *)

Module Loader.
Import JsString Js Http PathCompiler Chain Orchestrator Samples.

(** [options]: the two directory settings are strings when present, and
    [modules], when it is an object, is given by its entries, each module
    already loaded. *)
Record Options := mkOptions {
  functionsDir : option string;
  baseDir : option string;
  modules : option (list (string * LoadedModule))
}.

(** [a || b] for an optional string [a]. *)
Definition or_else (a : option string) (b : string) : string :=
  match a with
  | Some s => if nonempty s then s else b
  | None => b
  end.

(** [options.functionsDir || options.baseDir || "../functions"] *)
Definition given_base (options : Options) : string :=
  or_else (functionsDir options) (or_else (baseDir options) "../functions").

(** The constant [baseDir] of [loadFunctions]. *)
Definition base_of (options : Options) : string :=
  strip_trailing_slashes (backslashes_to_slashes (given_base options)).

(** What the loader asks of [app] beyond [use] and [all], which every
    application has: whether [app[name]] is a function. *)
Definition App : Type := string -> bool.

(** A call the loader makes on [app]. Handlers are the closures of
    [makeMiddlewareHandler] and [makeRouteHandler], kept as the two values
    they close over. *)
Inductive Registration :=
| UseWrapper (route : string)
| UseMiddleware (m : Middleware)
| UseGate (route verb : string) (handler : Exported * list string)
| RouteAll (path : string) (handler : Exported * list string)
| RouteVerb (name path : string) (handler : Exported * list string).

(** Registering: the calls made so far are the state, and a throw leaves
    them made. *)
Definition Reg (A : Type) : Type :=
  list Registration -> Completion A * list Registration.

Definition register (r : Registration) : Reg unit :=
  fun made => (Returned tt, made ++ [r]).

Definition fail (e : JsError) : Reg unit := fun made => (Raised e, made).

Definition skip : Reg unit := fun made => (Returned tt, made).

Definition seq (a b : Reg unit) : Reg unit :=
  fun made => match a made with
              | (Returned _, made') => b made'
              | (Raised e, made') => (Raised e, made')
              end.

(** [for (const x of l) f(x)] *)
Fixpoint for_each {A} (f : A -> Reg unit) (l : list A) : Reg unit :=
  match l with
  | [] => skip
  | x :: l' => seq (f x) (for_each f l')
  end.

Definition quoted (s : string) : string :=
  String quote_char s +:+ String quote_char EmptyString.

Definition unsupported (method path filepath : string) : JsError :=
  Error ("Unsupported HTTP method " +:+ quoted method +:+ " on route "
         +:+ quoted path +:+ " for " +:+ filepath).

Definition modules_required : JsError :=
  Error ("loadFunctions: options.modules is required. Pass "
         +:+ "import.meta.glob('<functionsDir>/**/*.{js,ts}', { eager: false }).").

(** The test of the gate that PASS 2 puts before a method-specific
    middleware: [reqMethod === method], [reqMethod] being the request's
    method in upper case. *)
Definition gate_opens (method reqMethod : string) : bool :=
  String.eqb (toUpperCase reqMethod) method.

(** PASS 2, a handler of a middleware file. *)
Definition register_gate (mwRoute : string) (arrayParams : list string)
                         (h : HandlerExport) : Reg unit :=
  if String.eqb (method h) "ALL" then skip
  else register (UseGate mwRoute (method h) (exported h, arrayParams)).

(** PASS 2, a handler of a route file. *)
Definition register_route (app : App) (path : string)
                          (arrayParams : list string) (filepath : string)
                          (h : HandlerExport) : Reg unit :=
  if String.eqb (method h) "ALL"
  then register (RouteAll path (exported h, arrayParams))
  else
    if app (toLowerCase (method h))
    then register (RouteVerb (toLowerCase (method h)) path
                             (exported h, arrayParams))
    else fail (unsupported (method h) path filepath).

Definition register_entry (app : App) (entry : FileEntry) : Reg unit :=
  for_each
    (fun r =>
       if entry_isMiddleware entry
       then for_each (register_gate (subtree (path r)) (arrayParams r))
                     (handlers entry)
       else for_each (register_route app (path r) (arrayParams r)
                                     (filepath entry))
                     (handlers entry))
    (entry_routes entry).

Definition pass2 (app : App) (all : list FileEntry) : Reg unit :=
  for_each (register_entry app) all.

(** [loadFunctions(app, options)] *)
Definition loadFunctions (app : App) (options : Options) : Reg unit :=
  let baseDir := base_of options in
  match modules options with
  | None => fail modules_required
  | Some modules =>
      seq (register (UseWrapper "/*"))
          (let all := collect baseDir modules in
           seq (for_each (fun m => register (UseMiddleware m)) (pass1 all))
               (pass2 app all))
  end.

(** The seven verbs an export name can carry. *)
Definition verbs : list string :=
  ["GET"; "POST"; "PUT"; "DELETE"; "PATCH"; "HEAD"; "OPTIONS"].

(** A handler under one of the eight methods. *)
Definition reserved (h : HandlerExport) : Prop :=
  method h = "ALL" \/ In (method h) verbs.

(** A registration of PASS 2 that is in order: a gate for one of the
    seven verbs, a route for all methods, or a route under a method the
    application has. *)
Definition of_pass2 (app : App) (r : Registration) : Prop :=
  match r with
  | UseGate _ verb _ => In verb verbs
  | RouteAll _ _ => True
  | RouteVerb name _ _ =>
      app name = true /\ In name (map toLowerCase verbs)
  | UseWrapper _ | UseMiddleware _ => False
  end.

(** [h.method === "ALL"] *)
Definition for_all_methods (h : HandlerExport) : bool :=
  String.eqb (method h) "ALL".

(** An application with a method for each of the seven verbs. *)
Definition full_app : App := includes (map toLowerCase verbs).

(** An application with a method for each verb but [HEAD]. *)
Definition app_without_head : App :=
  includes ["get"; "post"; "put"; "delete"; "options"; "patch"].

(** A root middleware, and a route file that answers [GET] and [HEAD]. *)
Definition site_modules : list (string * LoadedModule) :=
  [ ("../functions/_middleware.js",
     [("onRequest", pass_through); ("onRequestPost", pass_through)]);
    ("../functions/users/[id].js",
     [("onRequestGet", pass_through); ("onRequestHead", pass_through)]) ].

Definition site_options : Options :=
  mkOptions None (Some "..\functions\") (Some site_modules).

End Loader.

(** ** Nested retrievals *)

Module NestedRetrieval.
Import JsString Js Http Hono Reconciler Samples.

(** The inner one of two nested middleware, as the downstream of the outer
    one: it retrieves the shared response, sets a header on it and resolves
    to no value, as Hono's [next()] does. *)
Definition inner_link : M JsValue :=
  do! v := getSharedMutableResponse next_returns_created in
  fun w => match v with
           | VResponse ref =>
               (Returned VUndefined, set_header ref "X-Inner" "1" w)
           | _ => (Returned VUndefined, w)
           end.

(** The world once the outer retrieval, which awaited [inner_link], has
    returned. *)
Definition world_after_nested : World :=
  snd (getSharedMutableResponse inner_link empty_world).

End NestedRetrieval.

(** ** The chain composer with continuations that are not awaited *)

Module AsyncChain.
Import JsString Js Http Hono Reconciler Chain ChainTrace.

(** A handler as an async function that may leave a call of [next()]
    unawaited. Calling [next()] runs the rest of the chain up to its first
    suspension and hands back a promise; awaiting a promise suspends the
    handler until the promise is settled; awaiting anything else suspends it
    for a turn of the job queue. A returned promise is adopted by the
    handler's own promise. Promises are numbered. *)
Inductive AProg :=
| AReturn (v : JsValue)
| AReturnPromise (p : nat)
| AThrow (e : JsError)
| ANext (reqOverride : option nat) (k : nat -> AProg)
| AAwait (p : nat) (k : Completion JsValue -> AProg)
| AYield (k : AProg)
| AAct (f : World -> World) (k : AProg)
| AObserve (k : World -> AProg).

Record AHandler := mkAHandler { a_arity : nat; a_fn : CfContext -> AProg }.

(** A suspended activation, waiting for a promise to settle: a handler at
    an [await], [runAt] at [await fn(...)], or a promise that adopts
    another (the promise of an async function that returned one). [own] is
    the promise of the activation itself. *)
Inductive Kont :=
| KHandler (i : Z) (rest' : list AHandler) (own : nat)
           (k : Completion JsValue -> AProg)
| KRunAt (i : Z) (rest' : list AHandler) (own : nat)
| KAdopt (own : nat).

(** State of one [run]: [idx], the events and the world; the positions
    whose variable [called] is true; the promises that are settled; the next
    promise number; and the suspended activations, oldest first. *)
Record AState := mkAState {
  now : RunState;
  called : list Z;
  settled : gmap nat (Completion JsValue);
  fresh : nat;
  waiting : list (nat * Kont)
}.

Definition on_run (f : RunState -> RunState) (st : AState) : AState :=
  mkAState (f (now st)) (called st) (settled st) (fresh st) (waiting st).

Definition new_promise (st : AState) : nat * AState :=
  (fresh st,
   mkAState (now st) (called st) (settled st) (S (fresh st)) (waiting st)).

Definition settle (p : nat) (c : Completion JsValue) (st : AState) : AState :=
  mkAState (now st) (called st) (<[p := c]> (settled st)) (fresh st)
           (waiting st).

Definition await (p : nat) (K : Kont) (st : AState) : AState :=
  mkAState (now st) (called st) (settled st) (fresh st)
           (waiting st ++ [(p, K)]).

Definition mark_called (i : Z) (st : AState) : AState :=
  mkAState (now st) (i :: called st) (settled st) (fresh st) (waiting st).

Definition is_called (i : Z) (st : AState) : bool :=
  existsb (Z.eqb i) (called st).

(** The handler at position [i], whose own promise is [own], from the
    point [p] of its body up to its next suspension or its end. *)
Fixpoint exec (stepNext : option nat -> AState -> nat * AState)
              (i : Z) (rest' : list AHandler) (own : nat)
              (p : AProg) (st : AState) : AState :=
  match p with
  | AReturn v => settle own (Returned v) st
  | AReturnPromise q => await q (KAdopt own) st
  | AThrow e => settle own (Raised e) st
  | ANext reqOverride k =>
      let '(q, st') := stepNext reqOverride st in
      exec stepNext i rest' own (k q) st'
  | AAwait q k => await q (KHandler i rest' own k) st
  | AYield k =>
      let '(q, st') := new_promise st in
      await q (KHandler i rest' own (fun _ => k))
            (settle q (Returned VUndefined) st')
  | AAct f k => exec stepNext i rest' own k (on_run (on_world f) st)
  | AObserve k => exec stepNext i rest' own (k (world (now st))) st
  end.

Section Run.
Variable ctx : CfContext.
Variable finalNext : option (M JsValue).

(** [runAt(i, ctx)] up to its first suspension; the result is its
    promise. As in [Chain.runAt], the handlers from position [i] on are
    passed along as [rest]. The final continuation is taken to settle
    without suspending. *)
Fixpoint runAt (rest : list AHandler) (i : Z) (st : AState) {struct rest}
  : nat * AState :=
  let '(own, st) := new_promise st in
  if i <=? idx (now st)
  then (own, settle own (Raised protocol_error) (on_run (note Violation) st))
  else
    let st := on_run (set_idx i) st in
    match rest with
    | [] =>
        match finalNext with
        | Some final =>
            let '(o, w) := final (world (now st)) in
            let st :=
              on_run (fun r => mkRunState (idx r) (events r ++ [CallFinal]) w)
                     st in
            let '(q, st) := new_promise st in
            (own, await q (KAdopt own) (settle q o st))
        | None => (own, settle own (Returned VUndefined) st)
        end
    | h :: rest' =>
        let stepNext := fun reqOverride st1 =>
          let st1 := mark_called i st1 in
          let st1 := on_run (on_world (store_override ctx reqOverride)) st1 in
          let '(r, st1) := runAt rest' (i + 1) st1 in
          let '(s, st1) := new_promise st1 in
          (s, await r (KAdopt s) st1) in
        let st := on_run (note (Enter i)) st in
        let '(hp, st) := new_promise st in
        let st := exec stepNext i rest' hp (a_fn h ctx) st in
        (own, await hp (KRunAt i rest' own) st)
    end.

(** The continuation handed to the handler at position [i], an async
    function as well: its promise adopts that of [runAt(i + 1, ctx)]. *)
Definition stepNext (rest' : list AHandler) (i : Z)
                    (reqOverride : option nat) (st : AState) : nat * AState :=
  let st := mark_called i st in
  let st := on_run (on_world (store_override ctx reqOverride)) st in
  let '(r, st) := runAt rest' (i + 1) st in
  let '(s, st) := new_promise st in
  (s, await r (KAdopt s) st).

(** One job: a suspended activation goes on with the outcome [c] of the
    promise it waited for. *)
Definition resume (K : Kont) (c : Completion JsValue) (st : AState) : AState :=
  match K with
  | KHandler i rest' own k => exec (stepNext rest' i) i rest' own (k c) st
  | KRunAt i rest' own =>
      match c with
      | Raised e => settle own (Raised e) st
      | Returned v =>
          if is_Response v then settle own (Returned v) st
          else if negb (is_undefined v) then settle own (Returned v) st
          else if negb (is_called i st) then
            let '(r, st) := runAt rest' (i + 1) st in
            await r (KAdopt own) st
          else settle own (Returned v) st
      end
  | KAdopt own => settle own c st
  end.

(** The states one job away: for every suspended activation whose promise
    is settled, the state after it was resumed. JavaScript takes the jobs in
    the order in which they became ready, which is one of these orders. *)
Fixpoint jobs_from (pre l : list (nat * Kont)) (st : AState) : list AState :=
  match l with
  | [] => []
  | (p, K) :: l' =>
      match settled st !! p with
      | Some c =>
          [resume K c (mkAState (now st) (called st) (settled st) (fresh st)
                                (pre ++ l'))]
      | None => []
      end ++ jobs_from (pre ++ [(p, K)]) l' st
  end.

Definition jobs (st : AState) : list AState := jobs_from [] (waiting st) st.

Definition step (st st' : AState) : Prop := In st' (jobs st).

(** [run(rootCtx, finalNext)] up to its first suspension. *)
Definition start (chain : list AHandler) (w : World) : AState :=
  snd (runAt chain 0 (mkAState (mkRunState (-1) [] w) [] ∅ 0 [])).

(** The runs found along each of several ways on, when all were
    explored to their end. *)
Definition gather_runs (found : list (option (list (list Event))))
  : option (list (list Event)) :=
  foldr (fun r acc => match r, acc with
                      | Some a, Some b => Some (a ++ b)
                      | _, _ => None
                      end)
        (Some []) found.

(** The events of every run from [st] to a state with no job left,
    whatever the order of the jobs; [None] when [fuel] jobs were not enough
    for one of them. *)
Fixpoint explore (fuel : nat) (st : AState) : option (list (list Event)) :=
  match fuel with
  | O => None
  | S fuel' =>
      match jobs st with
      | [] => Some [events (now st)]
      | next => gather_runs (map (explore fuel') next)
      end
  end.

End Run.

(** The chain position of a suspended handler or [runAt]. *)
Definition position (K : Kont) : option Z :=
  match K with
  | KHandler i _ _ _ | KRunAt i _ _ => Some i
  | KAdopt _ => None
  end.

Definition below (m : Z) (t : nat * Kont) : Prop :=
  match position (snd t) with
  | Some i => i < m
  | None => True
  end.

(** No handler and no [runAt] is suspended at the deepest position
    reached: every one that is suspended has a successor that was entered. *)
Definition closed (st : AState) : Prop :=
  List.Forall (below (idx (now st))) (waiting st).

(** What a job does when every call it makes is refused: it adds protocol
    errors only, leaves [idx] alone, and suspends nothing new at the deepest
    position reached. *)
Definition refused (st st' : AState) : Prop :=
  idx (now st') = idx (now st)
  /\ (exists k, events (now st') = events (now st) ++ replicate k Violation)
  /\ (exists more, waiting st' = waiting st ++ more
                   /\ List.Forall (below (idx (now st))) more).

#[global] Instance Event_eq_dec : EqDecision Event.
Proof. solve_decision. Defined.

(** The distinct event sequences of the complete runs of a chain. *)
Definition complete_runs (ctx : CfContext) (finalNext : option (M JsValue))
                         (fuel : nat) (chain : list AHandler) (w : World)
  : option (list (list Event)) :=
  remove_dups <$> explore ctx finalNext fuel (start ctx finalNext chain w).

(** A handler of [Chain], which awaits every [next()]. *)
Fixpoint awaited (p : Prog) : AProg :=
  match p with
  | Return v => AReturn v
  | Throw e => AThrow e
  | CallNext reqOverride k =>
      ANext reqOverride (fun q => AAwait q (fun o => awaited (k o)))
  | Act f k => AAct f (awaited k)
  | Observe k => AObserve (fun w => awaited (k w))
  end.

Definition awaiting (h : Handler) : AHandler :=
  mkAHandler (arity h) (fun c => awaited (fn h c)).

(** [(c, n) => { n(); return n() }] *)
Definition calls_twice_unawaited : AHandler :=
  mkAHandler 2 (fun _ => ANext None (fun _ =>
                          ANext None (fun q => AReturnPromise q))).

(** [async (c, n) => { await 0; return n() }] *)
Definition yields_then_next : AHandler :=
  mkAHandler 2 (fun _ => AYield (ANext None (fun q => AReturnPromise q))).

(** [async () => "x"] *)
Definition a_returns_x : AHandler :=
  mkAHandler 0 (fun _ => AReturn (VString "x")).

(** The state in which the first handler of a chain has just been
    entered: promise 0 is that of [runAt(0)], promise 1 that of the
    handler. *)
Definition first_entered : AState :=
  mkAState (mkRunState 0 [Enter 0] empty_world) [] ∅ 2 [].

(** ** Handlers that await every call of their continuation *)

Definition is_link (e : Event) : bool := negb (is_violation e).

Definition blocked (st : AState) (t : nat * Kont) : Prop :=
  settled st !! fst t = None /\ below (idx (now st)) t.

Definition fresh_ok (st : AState) : Prop :=
  (forall p, (fresh st <= p)%nat -> settled st !! p = None)
  /\ List.Forall (fun t => (fst t < fresh st)%nat) (waiting st).

Definition open (st : AState) : Prop :=
  exists pre hp chain' own post,
    waiting st
    = pre ++ (hp, KRunAt (idx (now st)) (map awaiting chain') own) :: post
    /\ List.Forall (blocked st) (pre ++ post).

Definition cascaded (i : Z) (st : AState) (R : nat) (st' : AState) : Prop :=
  (fresh st <= fresh st')%nat
  /\ (R < fresh st')%nat
  /\ fresh_ok st'
  /\ i <= idx (now st')
  /\ (forall p, (p < fresh st)%nat -> settled st' !! p = settled st !! p)
  /\ (exists es, events (now st') = events (now st) ++ es
                 /\ forallb is_link es = true)
  /\ (closed st' \/ (open st' /\ settled st' !! R = None)).

Definition executed (i : Z) (hp : nat) (st st' : AState) : Prop :=
  (fresh st <= fresh st')%nat
  /\ fresh_ok st'
  /\ (forall p, (p < fresh st)%nat -> p <> hp ->
                settled st' !! p = settled st !! p)
  /\ (exists es, events (now st') = events (now st) ++ es
                 /\ forallb is_link es = true)
  /\ ((settled st' !! hp <> None /\ waiting st' = waiting st
       /\ idx (now st') = i)
      \/ (settled st' !! hp = None /\ i < idx (now st')
          /\ (closed st' \/ open st'))).

(** The states of a run of handlers that await: once something refused
    has happened nothing is suspended at the deepest position; until then
    only links have executed, and all that can go on is the [runAt] of the
    deepest handler entered, which has finished. *)
Definition orderly (st : AState) : Prop :=
  (closed st /\ no_link_after_violation (events (now st)) = true)
  \/ (open st /\ fresh_ok st /\ forallb is_link (events (now st)) = true).

End AsyncChain.

(** ** The loader with its imports *)

Module LazyLoader.
Import JsString Js Http PathCompiler Chain Orchestrator Samples Loader.

(** What [await lazy()] comes to for one entry of [options.modules]: a
    module, given by its own enumerable properties, or an error. The error
    is a [TypeError] when [lazy] is not a function (modules globbed eagerly)
    or when the import resolves to [undefined] or [null], whose keys cannot
    be listed; it is the reason of the rejection when the import rejects. *)
Inductive LazyModule :=
| Resolves (loaded : LoadedModule)
| Rejects (e : JsError).

(** [options], with directory settings that are strings when present and
    a [modules] object given by its entries. *)
Record LazyOptions := mkLazyOptions {
  lazy_functionsDir : option string;
  lazy_baseDir : option string;
  lazy_modules : option (list (string * LazyModule))
}.

(** The collecting loop with its imports: the files in order, up to the
    first import that fails. *)
Fixpoint collect_lazy (baseDir : string)
                      (modules : list (string * LazyModule))
  : Completion (list FileEntry) :=
  match modules with
  | [] => Returned []
  | (filepath, imported) :: rest =>
      match imported with
      | Rejects e => Raised e
      | Resolves loaded =>
          try! all := collect_lazy baseDir rest in
          Returned match collect_one baseDir (filepath, loaded) with
                   | Some entry => entry :: all
                   | None => all
                   end
      end
  end.

(** The constant [baseDir] of [loadFunctions]. *)
Definition lazy_base (options : LazyOptions) : string :=
  strip_trailing_slashes
    (backslashes_to_slashes
       (or_else (lazy_functionsDir options)
                (or_else (lazy_baseDir options) "../functions"))).

(** [loadFunctions(app, options)], imports included. *)
Definition loadFunctions (app : App) (options : LazyOptions) : Reg unit :=
  let baseDir := lazy_base options in
  match lazy_modules options with
  | None => fail modules_required
  | Some modules =>
      seq (register (UseWrapper "/*"))
          (fun made =>
             match collect_lazy baseDir modules with
             | Raised e => (Raised e, made)
             | Returned all =>
                 seq (for_each (fun m => register (UseMiddleware m))
                               (pass1 all))
                     (pass2 app all) made
             end)
  end.

(** The options once every import has resolved. *)
Definition resolved (file : string * LoadedModule) : string * LazyModule :=
  (fst file, Resolves (snd file)).

Definition loaded_options (options : LazyOptions)
                          (loaded : list (string * LoadedModule)) : Options :=
  mkOptions (lazy_functionsDir options) (lazy_baseDir options) (Some loaded).

(** The site of [Loader], imported lazily. *)
Definition lazy_site : LazyOptions :=
  mkLazyOptions None (Some "..\functions\") (Some (map resolved site_modules)).

(** A root middleware for [POST] and a route file for [GET]; no file asks
    for [HEAD]. *)
Definition small_site : LazyOptions :=
  mkLazyOptions None None
    (Some [ ("../functions/_middleware.js",
             Resolves [("onRequestPost", pass_through)]);
            ("../functions/users/[id].js",
             Resolves [("onRequestGet", pass_through)]) ]).

(** A site whose second import rejects. *)
Definition broken_site : LazyOptions :=
  mkLazyOptions None None
    (Some [ ("../functions/_middleware.js",
             Resolves [("onRequest", pass_through)]);
            ("../functions/users/[id].js", Rejects (Error "import failed")) ]).

End LazyLoader.

(** * Properties *)

(** ** Path compiler *)

Module PathFacts.
Import JsString PathCompiler.

Example compile_api_hello :
  filepathToRoutes "api/hello" None
  = mkCompiled [mkRoute "/api/hello" []] false.
Proof. vm_compute. reflexivity. Qed.

Example compile_blog_slug_paths :
  map path (routes (filepathToRoutes "blog/[slug]" None))
  = ["/blog/:slug"; "/blog/:slug{.+}"].
Proof. vm_compute. reflexivity. Qed.

Example compile_catchall :
  filepathToRoutes "catchall/[...rest]" None
  = mkCompiled [mkRoute "/catchall/:rest{.+}" ["rest"]] false.
Proof. vm_compute. reflexivity. Qed.

Example compile_api_middleware :
  filepathToRoutes "../functions/api/_middleware.ts" None
  = mkCompiled [mkRoute "/api" []] true.
Proof. vm_compute. reflexivity. Qed.

(** C2, as the specification words it, fails: among the routes compiled
    from ["docs/[[section]]"] the plain member ["/docs/:section"] lists
    ["section"] as an array parameter too, so the augmented member is not
    the only one that does. *)
Lemma docs_section_plain_member_is_array :
  In (mkRoute "/docs/:section" ["section"])
     (routes (filepathToRoutes "docs/[[section]]" None))
  /\ In "section" (arrayParams (mkRoute "/docs/:section" ["section"]))
  /\ path (mkRoute "/docs/:section" ["section"]) <> "/docs/:section{.+}".
Proof.
  split; [|split].
  - vm_compute. right. left. reflexivity.
  - left. reflexivity.
  - discriminate.
Qed.

(** C2, amended: compiling ["docs/[[section]]"] yields exactly the three
    patterns ["/docs"], ["/docs/:section"] and the augmented
    ["/docs/:section{.+}"], in that order; ["/docs"] has no array
    parameter, and ["section"] is an array parameter of both the plain
    ["/docs/:section"] member and the augmented member. *)
Theorem docs_section_routes :
  filepathToRoutes "docs/[[section]]" None
  = mkCompiled [ mkRoute "/docs" [];
                 mkRoute "/docs/:section" ["section"];
                 mkRoute "/docs/:section{.+}" ["section"] ]
               false.
Proof. vm_compute. reflexivity. Qed.

End PathFacts.

(** ** Header reconciliation *)

Module VaryFacts.
Import JsString Js Http Hono Reconciler Samples.

Lemma append_cons a s t : String a s +:+ t = String a (s +:+ t).
Proof. reflexivity. Qed.

Lemma split_on_not_nil c s : split_on c s <> [].
Proof.
  destruct s as [|a s]; simpl; [discriminate|].
  destruct (Ascii.eqb a c); [discriminate|].
  destruct (split_on c s); discriminate.
Qed.

Lemma split_on_app_sep c s t :
  split_on c (s +:+ String c t) = split_on c s ++ split_on c t.
Proof.
  induction s as [|a s IH].
  - change ("" +:+ String c t) with (String c t). simpl.
    rewrite Ascii.eqb_refl. reflexivity.
  - rewrite append_cons. simpl. destruct (Ascii.eqb a c).
    + rewrite IH. reflexivity.
    + rewrite IH. pose proof (split_on_not_nil c s) as Hne.
      destruct (split_on c s) as [|p r]; [contradiction|]. reflexivity.
Qed.

Lemma vary_tokens_append prev :
  vary_tokens (prev +:+ ", Origin") = vary_tokens prev ++ ["origin"].
Proof.
  unfold vary_tokens.
  change ", Origin" with (String "," " Origin").
  rewrite split_on_app_sep, map_app. reflexivity.
Qed.

Lemma field_name_Vary : field_name "Vary" = "vary".
Proof. reflexivity. Qed.

Lemma c_header_sets name value w :
  live_res w -> c_res_header name (c_header name value w) = Some value.
Proof.
  unfold live_res, c_res_header, c_header, get_header, set_header.
  destruct (c_res w) as [ref|] eqn:Hres; simpl.
  - intros [r Hr]. rewrite lookup_alter_eq, Hr. simpl.
    unfold headers_get, headers_set. simpl. apply lookup_insert_eq.
  - intros _. rewrite lookup_insert_eq. simpl.
    unfold headers_get, headers_set. apply lookup_insert_eq.
Qed.

(** C8, as the specification words it, fails on a [Vary] field that exists
    with an empty value: ["origin"] is not among its tokens, yet the field
    becomes ["Origin"], not the old value followed by [", Origin"]. *)
Lemma empty_vary_is_replaced :
  c_res_header "Vary" empty_vary_world = Some ""
  /\ includes (vary_tokens "") "origin" = false
  /\ c_res_header "Vary" (ensureVaryOrigin empty_vary_world) = Some "Origin"
  /\ c_res_header "Vary" (ensureVaryOrigin empty_vary_world)
     <> Some ("" +:+ ", Origin").
Proof. vm_compute. repeat split; discriminate. Qed.

(** C8, amended: [ensureVaryOrigin] is additive. When the context's
    response has no [Vary] field, or one whose value is empty, the field
    becomes ["Origin"]. When it has a non-empty value none of whose
    comma-separated tokens is ["origin"] (trimmed, compared without regard
    to case), [", Origin"] is appended to that value, so the tokens
    afterwards are the old ones followed by ["origin"]. When ["origin"] is
    among the tokens, nothing at all changes. *)
Theorem ensureVaryOrigin_additive (w : World) :
  live_res w ->
  match c_res_header "Vary" w with
  | None =>
      c_res_header "Vary" (ensureVaryOrigin w) = Some "Origin"
  | Some prev =>
      if nonempty prev then
        if includes (vary_tokens prev) "origin"
        then ensureVaryOrigin w = w
        else c_res_header "Vary" (ensureVaryOrigin w)
             = Some (prev +:+ ", Origin")
             /\ vary_tokens (prev +:+ ", Origin")
                = vary_tokens prev ++ ["origin"]
      else c_res_header "Vary" (ensureVaryOrigin w) = Some "Origin"
  end.
Proof.
  intros Hlive. unfold ensureVaryOrigin.
  destruct (c_res_header "Vary" w) as [prev|] eqn:Hprev.
  - destruct (nonempty prev) eqn:Hne; simpl.
    + destruct (includes (vary_tokens prev) "origin") eqn:Hinc; simpl.
      * reflexivity.
      * split; [now apply c_header_sets | apply vary_tokens_append].
    + now apply c_header_sets.
  - now apply c_header_sets.
Qed.

(** A response that already varies on the encoding gains the origin. *)
Lemma ensureVaryOrigin_additive_witness :
  live_res encoding_vary_world
  /\ c_res_header "Vary" (ensureVaryOrigin encoding_vary_world)
     = Some "Accept-Encoding, Origin"
  /\ vary_tokens "Accept-Encoding, Origin" = ["accept-encoding"; "origin"].
Proof.
  assert (Hlive : live_res encoding_vary_world).
  { unfold live_res. simpl. rewrite lookup_singleton_eq. eauto. }
  split; [exact Hlive|].
  exact (ensureVaryOrigin_additive encoding_vary_world Hlive).
Defined.

End VaryFacts.

(** ** Registration order of directory middleware *)

Module OrchestratorFacts.
Import JsString Js PathCompiler Chain Orchestrator Samples.

Lemma insert_by_depth_perm m l : insert_by_depth m l ≡ₚ m :: l.
Proof.
  induction l as [|x l IH]; simpl; [reflexivity|].
  destruct (depth m <=? depth x); [reflexivity|].
  rewrite IH. apply perm_swap.
Qed.

Lemma sort_by_depth_perm l : sort_by_depth l ≡ₚ l.
Proof.
  induction l as [|x l IH]; simpl; [reflexivity|].
  rewrite insert_by_depth_perm. now rewrite IH.
Qed.

Lemma insert_by_depth_sorted m l :
  StronglySorted shallower_eq l ->
  StronglySorted shallower_eq (insert_by_depth m l).
Proof.
  induction 1 as [|x l Hs IH Hall]; simpl.
  - repeat constructor.
  - destruct (depth m <=? depth x) eqn:Hle.
    + apply Z.leb_le in Hle. constructor.
      * now constructor.
      * constructor; [exact Hle|].
        eapply Forall_impl; [exact Hall|].
        intros y Hy. unfold shallower_eq in *. lia.
    + apply Z.leb_gt in Hle. constructor; [exact IH|].
      rewrite insert_by_depth_perm. constructor; [|exact Hall].
      unfold shallower_eq. lia.
Qed.

Lemma sort_by_depth_sorted l : StronglySorted shallower_eq (sort_by_depth l).
Proof.
  induction l as [|x l IH]; simpl; [constructor|].
  now apply insert_by_depth_sorted.
Qed.

(** In a sorted list an element at a smaller index is below one at a
    greater index. *)
Lemma sorted_lookup_le (l : list Middleware) (p q : nat) a b :
  StronglySorted shallower_eq l ->
  l !! p = Some a -> l !! q = Some b -> (p < q)%nat ->
  depth a <= depth b.
Proof.
  intros Hs. revert p q. induction Hs as [|x l Hs IH Hall]; intros p q Hp Hq Hlt.
  - rewrite lookup_nil in Hp. discriminate.
  - destruct q as [|q]; [lia|]. destruct p as [|p]; simpl in *.
    + injection Hp as <-. rewrite Forall_forall in Hall.
      apply Hall. eapply list_elem_of_lookup_2, Hq.
    + eapply IH; eauto. lia.
Qed.


Example sample_registration :
  map (fun m => (mwRoute m, depth m, file m)) (pass1 sample_all)
  = [ ("/*", 2, "../functions/_middleware.js");
      ("/api/*", 3, "../functions/api/_middleware.js") ].
Proof. vm_compute. reflexivity. Qed.


End OrchestratorFacts.

(** ** The chain composer *)

Module ChainFacts.
Import JsString Js Http Hono Reconciler Chain ChainTrace Samples.

Section Run.
Variable finalNext : option (M JsValue).
Variable ctx : CfContext.

Lemma runAt_nil i st :
  runAt finalNext [] i ctx st
  = if i <=? idx st then (Raised protocol_error, note Violation st)
    else match finalNext with
         | Some final =>
             let '(o, w) := final (world st) in
             (o, mkRunState i (events st ++ [CallFinal]) w)
         | None => (Returned VUndefined, set_idx i st)
         end.
Proof. reflexivity. Qed.

Lemma runAt_cons h rest' i st :
  runAt finalNext (h :: rest') i ctx st
  = if i <=? idx st then (Raised protocol_error, note Violation st)
    else
      let '(out, st2, called) :=
        exec (stepNext finalNext rest' i ctx) (fn h ctx) false (entered i st) in
      match out with
      | Raised e => (Raised e, st2)
      | Returned v =>
          if is_Response v then (Returned v, st2)
          else if negb (is_undefined v) then (Returned v, st2)
          else if negb called then runAt finalNext rest' (i + 1) ctx st2
          else (Returned v, st2)
      end.
Proof. reflexivity. Qed.

(** The guard of [runAt]. *)
Lemma runAt_guard rest i st :
  i <= idx st ->
  runAt finalNext rest i ctx st = (Raised protocol_error, note Violation st).
Proof.
  intros Hle. apply Z.leb_le in Hle.
  destruct rest; [rewrite runAt_nil | rewrite runAt_cons]; now rewrite Hle.
Qed.

Lemma shape_snoc_violation i n es :
  shape i n es -> shape i n (es ++ [Violation]).
Proof.
  induction 1 as [i n es _ IH | i n k | i k].
  - simpl. now constructor.
  - change [Violation] with (replicate 1 Violation).
    rewrite <- replicate_add. constructor.
  - simpl. change [Violation] with (replicate 1 Violation).
    rewrite <- replicate_add. constructor.
Qed.

Lemma shape_app_violations i n es k :
  shape i n es -> shape i n (es ++ replicate k Violation).
Proof.
  intros Hs. induction k as [|k IH].
  - now rewrite app_nil_r.
  - rewrite replicate_S_end, app_assoc. now apply shape_snoc_violation.
Qed.

(** After the continuation of position [i] has been invoked once, whatever
    the handler still does adds protocol errors only. *)
Lemma exec_after_call rest' i p :
  forall called st o st' c',
    i + 1 <= idx st ->
    exec (stepNext finalNext rest' i ctx) p called st = (o, st', c') ->
    idx st' = idx st
    /\ (called = true -> c' = true)
    /\ exists k, events st' = events st ++ replicate k Violation.
Proof.
  induction p as [v | e | req k IH | f k IH | k IH];
    intros called st o st' c' Hidx Hex; simpl in Hex.
  - injection Hex as <- <- <-. repeat split; auto.
    exists 0%nat. now rewrite app_nil_r.
  - injection Hex as <- <- <-. repeat split; auto.
    exists 0%nat. now rewrite app_nil_r.
  - unfold stepNext in Hex at 1.
    rewrite runAt_guard in Hex by (simpl; lia).
    apply IH in Hex; [|simpl; lia].
    destruct Hex as (Hi & Hc & n & Hev). simpl in *.
    repeat split; auto.
    exists (S n). rewrite Hev. simpl. now rewrite <- app_assoc.
  - apply IH in Hex; [|simpl; lia]. exact Hex.
  - apply IH in Hex; [|lia]. exact Hex.
Qed.

(** The handler at position [i], started before any call of its
    continuation: either it never calls it, or the first call runs the
    positions from [i + 1] on. *)
Lemma exec_first rest' i
  (IH : forall st o st',
      idx st < i + 1 ->
      runAt finalNext rest' (i + 1) ctx st = (o, st') ->
      i + 1 <= idx st'
      /\ exists es, events st' = events st ++ es
                    /\ shape (i + 1) (length rest') es) p :
  forall st o st' c',
    idx st = i ->
    exec (stepNext finalNext rest' i ctx) p false st = (o, st', c') ->
    (c' = false /\ idx st' = i /\ events st' = events st)
    \/ (c' = true /\ i + 1 <= idx st'
        /\ exists es, events st' = events st ++ es
                      /\ shape (i + 1) (length rest') es).
Proof.
  induction p as [v | e | req k IHp | f k IHp | k IHp];
    intros st o st' c' Hidx Hex; simpl in Hex.
  - injection Hex as <- <- <-. left. auto.
  - injection Hex as <- <- <-. left. auto.
  - right. unfold stepNext in Hex at 1.
    destruct (runAt finalNext rest' (i + 1) ctx
                (on_world (store_override ctx req) st)) as [o1 st1] eqn:Hrun.
    apply IH in Hrun; [|simpl; lia].
    destruct Hrun as (Hi1 & es & Hev1 & Hshape). simpl in Hev1.
    apply exec_after_call in Hex; [|exact Hi1].
    destruct Hex as (Hi & Hc & n & Hev).
    split; [now apply Hc|]. split; [lia|].
    exists (es ++ replicate n Violation). split.
    + rewrite Hev, Hev1. now rewrite <- app_assoc.
    + now apply shape_app_violations.
  - apply IHp in Hex; [|exact Hidx]. exact Hex.
  - apply IHp in Hex; [|exact Hidx]. exact Hex.
Qed.

(** Every call of [runAt] past the positions reached so far advances [idx]
    to at least its own position and adds events of the expected shape. *)
Lemma runAt_fresh rest :
  forall i st o st',
    idx st < i ->
    runAt finalNext rest i ctx st = (o, st') ->
    i <= idx st'
    /\ exists es, events st' = events st ++ es /\ shape i (length rest) es.
Proof.
  induction rest as [|h rest' IH]; intros i st o st' Hlt Hrun.
  - rewrite runAt_nil in Hrun.
    destruct (i <=? idx st) eqn:Hle; [apply Z.leb_le in Hle; lia|].
    destruct finalNext as [final|].
    + destruct (final (world st)) as [o' w'].
      injection Hrun as <- <-. simpl. split; [lia|].
      exists [CallFinal]. split; [reflexivity|].
      apply (shape_final i 0).
    + injection Hrun as <- <-. simpl. split; [lia|].
      exists []. split; [now rewrite app_nil_r|].
      apply (shape_stop i 0 0).
  - rewrite runAt_cons in Hrun.
    destruct (i <=? idx st) eqn:Hle; [apply Z.leb_le in Hle; lia|].
    destruct (exec (stepNext finalNext rest' i ctx) (fn h ctx) false
                   (entered i st))
      as [[out st2] called] eqn:Hex.
    apply (exec_first rest' i (IH (i + 1))) in Hex; [|reflexivity].
    simpl in Hex.
    assert (Hstop : forall o', (o', st2) = (o, st') ->
              i <= idx st'
              /\ exists es, events st' = events st ++ es
                            /\ shape i (S (length rest')) es).
    { intros o' Heq. injection Heq as _ <-.
      destruct Hex as [(_ & Hi & Hev) | (_ & Hi & es & Hev & Hshape)].
      - split; [lia|]. exists [Enter i]. split; [exact Hev|].
        constructor. apply (shape_stop (i + 1) _ 0).
      - split; [lia|]. exists (Enter i :: es). split.
        + rewrite Hev. now rewrite <- app_assoc.
        + now constructor. }
    destruct out as [v|e]; [|now apply (Hstop (Raised e))].
    destruct (is_Response v); [now apply (Hstop (Returned v))|].
    destruct (negb (is_undefined v)); [now apply (Hstop (Returned v))|].
    destruct called; simpl in Hrun; [now apply (Hstop (Returned v))|].
    destruct Hex as [(_ & Hi & Hev) | (Hc & _)]; [|discriminate].
    apply IH in Hrun; [|lia].
    destruct Hrun as (Hi' & es & Hev' & Hshape).
    split; [lia|]. exists (Enter i :: es). split.
    + rewrite Hev', Hev. now rewrite <- app_assoc.
    + now constructor.
Qed.

Lemma violations_quiet k :
  no_link_after_violation (replicate k Violation) = true.
Proof.
  destruct k as [|k]; [reflexivity|]. simpl.
  induction k as [|k IH]; [reflexivity|]. exact IH.
Qed.

Lemma shape_no_link_after_violation i n es :
  shape i n es -> no_link_after_violation es = true.
Proof.
  induction 1 as [i n es _ IH | i n k | i k]; simpl;
    auto using violations_quiet.
Qed.

(** The events of a complete run. *)
Lemma run_shape exported w :
  shape 0 (length (chain_of exported))
        (events (snd (composeCFChain exported ctx finalNext w))).
Proof.
  unfold composeCFChain.
  destruct (runAt finalNext (chain_of exported) 0 ctx (mkRunState (-1) [] w))
    as [o st'] eqn:Hrun.
  apply runAt_fresh in Hrun; [|simpl; lia].
  destruct Hrun as (_ & es & Hev & Hshape). simpl in *. now rewrite Hev.
Qed.

(** A body that is [quiet] returns nothing, leaves [called] alone and
    changes the world only. *)
Lemma exec_quiet sn p :
  quiet p ->
  forall called st,
    exec sn p called st
    = (Returned VUndefined,
       mkRunState (idx st) (events st) (settle p (world st)), called).
Proof.
  induction 1 as [| f k _ IH | k _ IH]; intros called st; simpl.
  - now destruct st.
  - now rewrite IH.
  - now rewrite IH.
Qed.

End Run.

Lemma callables_of_callable chain : callables (Callable <$> chain) = chain.
Proof.
  unfold callables. induction chain as [|h chain IH]; simpl; [reflexivity|].
  f_equal. exact IH.
Qed.

Lemma callables_of_not_callable junk : callables (NotCallable <$> junk) = [].
Proof.
  unfold callables. induction junk as [|v junk IH]; simpl; [reflexivity|].
  exact IH.
Qed.

Lemma callables_filter entries :
  Callable <$> callables entries = List.filter is_callable entries.
Proof.
  unfold callables. induction entries as [|[h|v] entries IH]; simpl.
  - reflexivity.
  - f_equal. exact IH.
  - exact IH.
Qed.

Lemma runAt_quiet ctx final chain :
  forall i st,
    idx st < i ->
    Forall (fun h => quiet (fn h ctx)) chain ->
    runAt (Some final) chain i ctx st
    = (fst (final (settle_all ctx chain (world st))),
       mkRunState (i + Z.of_nat (length chain))
                  (events st ++ enters i (length chain) ++ [CallFinal])
                  (snd (final (settle_all ctx chain (world st))))).
Proof.
  induction chain as [|h chain IH]; intros i st Hlt Hq.
  - rewrite runAt_nil.
    destruct (i <=? idx st) eqn:Hle; [apply Z.leb_le in Hle; lia|].
    unfold settle_all. simpl. rewrite Z.add_0_r.
    now destruct (final (world st)).
  - inversion Hq as [|h' chain' Hh Hrest]; subst.
    rewrite runAt_cons.
    destruct (i <=? idx st) eqn:Hle; [apply Z.leb_le in Hle; lia|].
    rewrite exec_quiet by exact Hh. simpl.
    rewrite IH; [|simpl; lia|exact Hrest]. simpl.
    replace (i + 1 + Z.of_nat (length chain))
      with (i + Z.pos (Pos.of_succ_nat (length chain))) by lia.
    now rewrite <- app_assoc.
Qed.

(** C3, as the specification words it, fails. In the chain of
    [async (ctx, next) => { await next() }] followed by [async () => "x"],
    the first handler returns no value and has invoked its continuation, the
    continuation resolved to ["x"], and yet the chain's result at position 0
    is no value. *)
Lemma awaited_result_is_dropped :
  exec (stepNext None [returns_x] 0 root_ctx) (fn awaits_next root_ctx) false
       (entered 0 (initial empty_world))
  = (Returned VUndefined,
     mkRunState 1 [Enter 0; Enter 1] empty_world, true)
  /\ fst (stepNext None [returns_x] 0 root_ctx None
                  (entered 0 (initial empty_world)))
     = Returned (VString "x")
  /\ fst (runAt None [awaits_next; returns_x] 0 root_ctx (initial empty_world))
     = Returned VUndefined
  /\ Returned VUndefined <> Returned (VString "x").
Proof. vm_compute. repeat split; discriminate. Qed.

(** C3, amended: when the handler at position [i] returns no value after
    having invoked its continuation, the chain's result at position [i] is
    no value, in the state the handler left, whatever the continuation
    resolved to. *)
Theorem no_value_after_next_is_no_value
    (finalNext : option (M JsValue)) (ctx : CfContext)
    (h : Handler) (rest' : list Handler) (i : Z) (st st2 : RunState) :
  idx st < i ->
  exec (stepNext finalNext rest' i ctx) (fn h ctx) false (entered i st)
  = (Returned VUndefined, st2, true) ->
  runAt finalNext (h :: rest') i ctx st = (Returned VUndefined, st2).
Proof.
  intros Hlt Hex. rewrite runAt_cons.
  destruct (i <=? idx st) eqn:Hle; [apply Z.leb_le in Hle; lia|].
  now rewrite Hex.
Qed.

(** The chain of the counterexample, seen through the amended statement. *)
Lemma no_value_after_next_is_no_value_witness :
  runAt None [awaits_next; returns_x] 0 root_ctx (initial empty_world)
  = (Returned VUndefined, mkRunState 1 [Enter 0; Enter 1] empty_world).
Proof.
  apply (no_value_after_next_is_no_value None root_ctx awaits_next [returns_x]).
  - simpl. lia.
  - vm_compute. reflexivity.
Defined.

(** C7: when none of the [N] handlers of a chain returns a value, throws or
    reaches for its continuation, running the chain enters the positions
    0, ..., N-1 in this order, then invokes the final continuation, once and
    in the world the handlers left, and resolves to what it resolves to. *)
Theorem quiet_chain_reaches_final
    (ctx : CfContext) (exported : Exported) (final : M JsValue) (w : World) :
  Forall (fun h => quiet (fn h ctx)) (chain_of exported) ->
  composeCFChain exported ctx (Some final) w
  = (fst (final (settle_all ctx (chain_of exported) w)),
     mkRunState (Z.of_nat (length (chain_of exported)))
                (enters 0 (length (chain_of exported)) ++ [CallFinal])
                (snd (final (settle_all ctx (chain_of exported) w)))).
Proof.
  intros Hq. unfold composeCFChain.
  rewrite (runAt_quiet ctx final (chain_of exported) 0 _);
    [reflexivity|simpl; lia|exact Hq].
Qed.

(** Two handlers that only mark the store, then a final continuation. *)
Lemma quiet_chain_reaches_final_witness :
  composeCFChain (Sequence [Callable marks_seen; Callable marks_seen])
                 root_ctx (Some final_204) empty_world
  = (fst (final_204 (settle_all root_ctx [marks_seen; marks_seen] empty_world)),
     mkRunState 2 [Enter 0; Enter 1; CallFinal]
       (snd (final_204 (settle_all root_ctx [marks_seen; marks_seen]
                                   empty_world)))).
Proof.
  apply (quiet_chain_reaches_final root_ctx
           (Sequence [Callable marks_seen; Callable marks_seen])
           final_204 empty_world).
  repeat constructor.
Defined.


End ChainFacts.

(** ** Continuations that are not awaited *)

Module AsyncChainFacts.
Import JsString Js Http Hono Reconciler Chain ChainTrace Samples.
Import AsyncChain.

Section Run.
Variable ctx : CfContext.
Variable finalNext : option (M JsValue).

Lemma async_runAt_cons h rest' i st :
  runAt ctx finalNext (h :: rest') i st
  = let '(own, st) := new_promise st in
    if i <=? idx (now st)
    then (own, settle own (Raised protocol_error) (on_run (note Violation) st))
    else
      let st := on_run (note (Enter i)) (on_run (set_idx i) st) in
      let '(hp, st) := new_promise st in
      let st := exec (stepNext ctx finalNext rest' i) i rest' hp
                     (a_fn h ctx) st in
      (own, await hp (KRunAt i rest' own) st).
Proof. reflexivity. Qed.

(** The guard of [runAt]: the promise returned is rejected at once and
    nothing else happens. *)
Lemma async_runAt_guard rest i st :
  i <= idx (now st) ->
  runAt ctx finalNext rest i st
  = (fresh st,
     mkAState (note Violation (now st)) (called st)
              (<[fresh st := Raised protocol_error]> (settled st))
              (S (fresh st)) (waiting st)).
Proof.
  intros Hle. apply Z.leb_le in Hle.
  destruct rest as [|h rest']; cbn [runAt new_promise now]; rewrite Hle;
    reflexivity.
Qed.

Lemma stepNext_guard rest' i req st :
  i + 1 <= idx (now st) ->
  stepNext ctx finalNext rest' i req st
  = (S (fresh st),
     mkAState (note Violation (on_world (store_override ctx req) (now st)))
              (i :: called st)
              (<[fresh st := Raised protocol_error]> (settled st))
              (S (S (fresh st)))
              (waiting st ++ [(fresh st, KAdopt (S (fresh st)))])).
Proof.
  intros Hle. unfold stepNext. rewrite async_runAt_guard; [reflexivity|exact Hle].
Qed.

Lemma exec_idx sn i rest' own p :
  (forall req s, idx (now s) <= idx (now (snd (sn req s)))) ->
  forall st, idx (now st) <= idx (now (exec sn i rest' own p st)).
Proof.
  intros Hsn.
  induction p as [v | q | e | req k IH | q k _ | k _ | f k IH | k IH];
    intros st; cbn [exec]; try (cbn; lia).
  - pose proof (Hsn req st) as H. destruct (sn req st) as [q st'].
    cbn [snd] in H. specialize (IH q st'). lia.
  - apply (IH (on_run (on_world f) st)).
  - apply IH.
Qed.

Lemma runAt_idx rest : forall i st,
  idx (now st) <= idx (now (snd (runAt ctx finalNext rest i st)))
  /\ i <= idx (now (snd (runAt ctx finalNext rest i st))).
Proof.
  induction rest as [|h rest' IH]; intros i st.
  - cbn [runAt new_promise now].
    destruct (i <=? idx (now st)) eqn:Hle.
    + apply Z.leb_le in Hle. cbn. lia.
    + apply Z.leb_gt in Hle. destruct finalNext as [final|].
      * cbn. destruct (final _) as [o w]. cbn. lia.
      * cbn. lia.
  - assert (forall req s,
              idx (now s)
              <= idx (now (snd (stepNext ctx finalNext rest' i req s))))
      as Hsn.
    { intros req s. unfold stepNext.
      pose proof (IH (i + 1) (on_run (on_world (store_override ctx req))
                                     (mark_called i s))) as [H1 _].
      destruct (runAt _ _ _ _ _) as [r s1]. cbn in *. exact H1. }
    rewrite async_runAt_cons. cbn [new_promise now].
    destruct (i <=? idx (now st)) eqn:Hle.
    + apply Z.leb_le in Hle. cbn. lia.
    + apply Z.leb_gt in Hle. cbn [snd await now].
      match goal with
      | |- context [exec ?sn ?i0 ?r ?o ?p ?s] =>
          pose proof (exec_idx sn i0 r o p Hsn s) as Hex;
          remember (exec sn i0 r o p s) as e
      end.
      cbn in Hex. lia.
Qed.

Lemma stepNext_idx rest' i req st :
  idx (now st) <= idx (now (snd (stepNext ctx finalNext rest' i req st)))
  /\ i + 1 <= idx (now (snd (stepNext ctx finalNext rest' i req st))).
Proof.
  unfold stepNext.
  pose proof (runAt_idx rest' (i + 1)
                (on_run (on_world (store_override ctx req)) (mark_called i st)))
    as [H1 H2].
  destruct (runAt _ _ _ _ _) as [r s1]. cbn in *. lia.
Qed.

Lemma resume_idx K c st :
  idx (now st) <= idx (now (resume ctx finalNext K c st)).
Proof.
  destruct K as [i rest' own k | i rest' own | own]; cbn [resume].
  - apply exec_idx. intros req s. apply stepNext_idx.
  - destruct c as [v|e]; [|cbn; lia].
    destruct (is_Response v); [cbn; lia|].
    destruct (negb (is_undefined v)); [cbn; lia|].
    destruct (negb (is_called i st)); [|cbn; lia].
    pose proof (runAt_idx rest' (i + 1) st) as [H _].
    destruct (runAt _ _ _ _ _) as [r s1]. cbn in *. exact H.
  - cbn. lia.
Qed.

Lemma jobs_from_idx l : forall pre st st',
  In st' (jobs_from ctx finalNext pre l st) ->
  idx (now st) <= idx (now st').
Proof.
  induction l as [|[p K] l IH]; intros pre st st'; cbn [jobs_from];
    [intros []|].
  intros Hin. apply in_app_or in Hin as [Hin|Hin].
  - destruct (settled st !! p) as [c|]; [|destruct Hin].
    destruct Hin as [<-|[]].
    match goal with
    | |- _ <= idx (now (resume _ _ _ _ ?s)) =>
        pose proof (resume_idx K c s) as H
    end.
    exact H.
  - exact (IH _ _ _ Hin).
Qed.

Lemma steps_idx a b :
  rtc (step ctx finalNext) a b -> idx (now a) <= idx (now b).
Proof.
  induction 1 as [a | a b c Hab _ IH]; [lia|].
  apply jobs_from_idx in Hab. lia.
Qed.

Lemma refused_same st st' :
  now st' = now st -> waiting st' = waiting st -> refused st st'.
Proof.
  intros Hn Hw. split; [now rewrite Hn|]. split.
  - exists 0%nat. now rewrite Hn, app_nil_r.
  - exists []. split; [now rewrite Hw, app_nil_r|constructor].
Qed.

Lemma refused_refl st : refused st st.
Proof. now apply refused_same. Qed.

Lemma refused_trans a b c : refused a b -> refused b c -> refused a c.
Proof.
  intros (Hi1 & (k1 & He1) & (m1 & Hw1 & Hf1))
         (Hi2 & (k2 & He2) & (m2 & Hw2 & Hf2)).
  split; [congruence|]. split.
  - exists (k1 + k2)%nat.
    now rewrite He2, He1, <- app_assoc, replicate_add.
  - exists (m1 ++ m2). split; [now rewrite Hw2, Hw1, app_assoc|].
    apply Forall_app. split; [exact Hf1|]. now rewrite <- Hi1.
Qed.

Lemma exec_refused rest' i own p : forall st,
  i < idx (now st) ->
  refused st (exec (stepNext ctx finalNext rest' i) i rest' own p st).
Proof.
  induction p as [v | q | e | req k IH | q k _ | k _ | f k IH | k IH];
    intros st Hlt; cbn [exec].
  - now apply refused_same.
  - split; [reflexivity|]. split; [exists 0%nat; cbn; now rewrite app_nil_r|].
    exists [(q, KAdopt own)]. split; [reflexivity|]. now repeat constructor.
  - now apply refused_same.
  - rewrite stepNext_guard by lia.
    eapply refused_trans; [|apply IH; cbn; lia].
    split; [reflexivity|]. split; [now exists 1%nat|].
    eexists. split; [reflexivity|]. now repeat constructor.
  - split; [reflexivity|]. split; [exists 0%nat; cbn; now rewrite app_nil_r|].
    eexists. split; [reflexivity|].
    constructor; [exact Hlt|constructor].
  - split; [reflexivity|]. split; [exists 0%nat; cbn; now rewrite app_nil_r|].
    eexists. split; [reflexivity|].
    constructor; [exact Hlt|constructor].
  - eapply refused_trans; [|apply IH; cbn; lia].
    split; [reflexivity|]. split; [exists 0%nat; cbn; now rewrite app_nil_r|].
    exists []. split; [cbn; now rewrite app_nil_r|constructor].
  - now apply IH.
Qed.

Lemma resume_refused K c st :
  below (idx (now st)) (0%nat, K) ->
  refused st (resume ctx finalNext K c st).
Proof.
  destruct K as [i rest' own k | i rest' own | own]; cbn [resume];
    unfold below; cbn [snd position]; intros Hlt.
  - now apply exec_refused.
  - destruct c as [v|e]; [|now apply refused_same].
    destruct (is_Response v); [now apply refused_same|].
    destruct (negb (is_undefined v)); [now apply refused_same|].
    destruct (negb (is_called i st)); [|now apply refused_same].
    rewrite async_runAt_guard by lia.
    split; [reflexivity|]. split; [now exists 1%nat|].
    eexists. split; [reflexivity|]. now repeat constructor.
  - now apply refused_same.
Qed.

Lemma jobs_from_closed l : forall pre st st',
  List.Forall (below (idx (now st))) (pre ++ l) ->
  In st' (jobs_from ctx finalNext pre l st) ->
  closed st'
  /\ exists k, events (now st') = events (now st) ++ replicate k Violation.
Proof.
  induction l as [|[p K] l IH]; intros pre st st' Hall; cbn [jobs_from];
    [intros []|].
  intros Hin. apply in_app_or in Hin as [Hin|Hin].
  - destruct (settled st !! p) as [c|]; [|destruct Hin].
    destruct Hin as [<-|[]].
    apply Forall_app in Hall as [Hpre Hl].
    inversion Hl as [|t l0 HK Hl']; subst.
    match goal with
    | |- closed (resume _ _ _ _ ?s) /\ _ =>
        destruct (resume_refused K c s HK)
          as (Hidx & Hev & (more & Hw & Hmore))
    end.
    split; [|exact Hev].
    unfold closed. rewrite Hw, Hidx. cbn [now waiting].
    apply Forall_app. split; [|exact Hmore].
    apply Forall_app. split; assumption.
  - apply (IH (pre ++ [(p, K)])); [|exact Hin].
    now rewrite <- app_assoc.
Qed.

Lemma steps_closed a b :
  closed a ->
  rtc (step ctx finalNext) a b ->
  closed b
  /\ exists k, events (now b) = events (now a) ++ replicate k Violation.
Proof.
  intros Ha Hsteps. induction Hsteps as [a | a b c Hab _ IH].
  - split; [exact Ha|]. exists 0%nat. now rewrite app_nil_r.
  - apply (jobs_from_closed _ [] a b Ha) in Hab as [Hb (k1 & He1)].
    destruct (IH Hb) as [Hc (k2 & He2)]. split; [exact Hc|].
    exists (k1 + k2)%nat.
    now rewrite He2, He1, <- app_assoc, replicate_add.
Qed.

Lemma gather_runs_In found : forall runs a es,
  gather_runs found = Some runs ->
  In (Some a) found -> In es a -> In es runs.
Proof.
  induction found as [|r found IH]; intros runs a es; [intros _ []|].
  cbn [gather_runs foldr]. fold (gather_runs found).
  destruct r as [a0|]; [|discriminate].
  destruct (gather_runs found) as [b|]; [|discriminate].
  intros H. injection H as <-. intros [Hhead|Htail] Hes; apply in_or_app.
  - injection Hhead as ->. now left.
  - right. exact (IH b a es eq_refl Htail Hes).
Qed.

(** Exploring every order of the jobs misses no complete run. *)
Lemma explore_sound fuel : forall st runs,
  explore ctx finalNext fuel st = Some runs ->
  forall st',
    rtc (step ctx finalNext) st st' ->
    jobs ctx finalNext st' = [] ->
    In (events (now st')) runs.
Proof.
  induction fuel as [|fuel IH]; intros st runs; [discriminate|].
  cbn [explore]. intros Hruns st' Hsteps Hdone.
  destruct Hsteps as [st | st mid st' Hstep Hsteps].
  - rewrite Hdone in Hruns. injection Hruns as <-. now left.
  - unfold step in Hstep.
    destruct (jobs ctx finalNext st) as [|s0 next] eqn:Hjobs; [destruct Hstep|].
    destruct (explore ctx finalNext fuel mid) as [a|] eqn:Ha.
    + eapply gather_runs_In; [exact Hruns| |exact (IH _ _ Ha _ Hsteps Hdone)].
      rewrite <- Ha. now apply in_map.
    + exfalso. clear - Hruns Hstep Ha.
      revert runs Hruns. induction (s0 :: next) as [|s l IHl];
        [destruct Hstep|].
      intros runs. cbn [map gather_runs foldr]. fold (gather_runs (map (explore ctx finalNext fuel) l)).
      destruct Hstep as [->|Hin].
      * rewrite Ha. discriminate.
      * destruct (explore ctx finalNext fuel s); [|discriminate].
        destruct (gather_runs _) as [b|] eqn:Hb; [|discriminate].
        intros _. exact (IHl Hin b eq_refl).
Qed.

End Run.

(** ** Handlers that await every call of their continuation *)

Lemma below_le m m' t : below m t -> m <= m' -> below m' t.
Proof.
  unfold below. destruct (position (snd t)); [lia|auto].
Qed.

Lemma closed_await p K st :
  closed st -> below (idx (now st)) (p, K) -> closed (await p K st).
Proof.
  unfold closed. cbn. intros Hc Hb. apply Forall_app. split; [exact Hc|].
  now constructor.
Qed.

Lemma open_await p K st :
  open st -> blocked st (p, K) -> open (await p K st).
Proof.
  intros (pre & hp & chain' & own & post & Hw & Hall) Hb.
  exists pre, hp, chain', own, (post ++ [(p, K)]). cbn. split.
  - rewrite Hw. now rewrite <- app_assoc.
  - rewrite app_assoc. apply Forall_app. split; [exact Hall|].
    constructor; [exact Hb|constructor].
Qed.

Section Awaited.
Variable ctx : CfContext.
Variable finalNext : option (M JsValue).

Section Handler.
Variable chain' : list Handler.
Variable i : Z.
Variable hp : nat.
Hypothesis deeper : forall st,
  idx (now st) < i + 1 ->
  fresh_ok st ->
  List.Forall (fun t => settled st !! fst t = None /\ below (i + 1) t)
              (waiting st) ->
  cascaded (i + 1) st
           (fst (runAt ctx finalNext (map awaiting chain') (i + 1) st))
           (snd (runAt ctx finalNext (map awaiting chain') (i + 1) st)).

Lemma exec_awaited prog : forall st,
  idx (now st) = i ->
  fresh_ok st ->
  (hp < fresh st)%nat ->
  settled st !! hp = None ->
  List.Forall (fun t => settled st !! fst t = None /\ below i t) (waiting st) ->
  executed i hp st
           (exec (stepNext ctx finalNext (map awaiting chain') i) i
                 (map awaiting chain') hp (awaited prog) st).
Proof.
  induction prog as [v | e | req k IH | f k IH | k IH];
    intros st Hidx [Hfresh Hwait] Hhp Hunset Hall; cbn [awaited exec].
  - (* return *)
    split; [cbn; lia|]. split.
    { split; cbn.
      - intros p Hp. rewrite lookup_insert_ne by lia. now apply Hfresh.
      - exact Hwait. }
    split; [intros p _ Hne; cbn; now rewrite lookup_insert_ne|].
    split; [exists []; cbn; now rewrite app_nil_r|].
    left. cbn. rewrite lookup_insert_eq. repeat split; [discriminate|exact Hidx].
  - (* throw *)
    split; [cbn; lia|]. split.
    { split; cbn.
      - intros p Hp. rewrite lookup_insert_ne by lia. now apply Hfresh.
      - exact Hwait. }
    split; [intros p _ Hne; cbn; now rewrite lookup_insert_ne|].
    split; [exists []; cbn; now rewrite app_nil_r|].
    left. cbn. rewrite lookup_insert_eq. repeat split; [discriminate|exact Hidx].
  - (* call, then await *)
    unfold stepNext.
    set (st_a := on_run (on_world (store_override ctx req)) (mark_called i st)).
    assert (Hpre : cascaded (i + 1) st_a
                     (fst (runAt ctx finalNext (map awaiting chain') (i + 1) st_a))
                     (snd (runAt ctx finalNext (map awaiting chain') (i + 1) st_a))).
    { apply deeper.
      - subst st_a. cbn. lia.
      - split; [exact Hfresh|exact Hwait].
      - subst st_a. cbn. eapply Forall_impl; [exact Hall|].
        intros t [Hu Hb]. split; [exact Hu|]. eapply below_le; [exact Hb|lia]. }
    destruct (runAt ctx finalNext (map awaiting chain') (i + 1) st_a)
      as [r st_b].
    cbn [fst snd] in Hpre.
    destruct Hpre as (Hf & Hr & [Hfresh' Hwait'] & Hi & Hold & (es & Hes & Hlinks)
                      & Hshape).
    cbn [new_promise exec].
    split; [cbn; subst st_a; cbn in Hf; lia|]. split.
    { split; cbn.
      - intros p Hp. apply Hfresh'. lia.
      - apply Forall_app. split.
        + apply Forall_app. split.
          * eapply Forall_impl; [exact Hwait'|]. cbn. intros t Ht. lia.
          * constructor; [cbn; lia|constructor].
        + constructor; [cbn; lia|constructor]. }
    split; [intros p Hp Hne; cbn; now apply Hold|].
    split; [exists es; cbn; split; [exact Hes|exact Hlinks]|].
    right. cbn. split; [rewrite Hold by exact Hhp; exact Hunset|].
    split; [lia|].
    destruct Hshape as [Hclosed|[Hopen Hrunset]].
    + left.
      apply (closed_await (fresh st_b) (KHandler i (map awaiting chain') hp
                                          (fun o => awaited (k o)))
               (await r (KAdopt (fresh st_b))
                      (mkAState (now st_b) (called st_b) (settled st_b)
                                (S (fresh st_b)) (waiting st_b)))).
      * apply (closed_await r (KAdopt (fresh st_b))
                 (mkAState (now st_b) (called st_b) (settled st_b)
                           (S (fresh st_b)) (waiting st_b)));
          [exact Hclosed|exact I].
      * unfold below. cbn. lia.
    + right.
      apply (open_await (fresh st_b) (KHandler i (map awaiting chain') hp
                                        (fun o => awaited (k o)))
               (await r (KAdopt (fresh st_b))
                      (mkAState (now st_b) (called st_b) (settled st_b)
                                (S (fresh st_b)) (waiting st_b)))).
      * apply (open_await r (KAdopt (fresh st_b))
                 (mkAState (now st_b) (called st_b) (settled st_b)
                           (S (fresh st_b)) (waiting st_b)));
          [exact Hopen|]. split; [exact Hrunset|exact I].
      * split; cbn; [apply Hfresh'; lia|unfold below; cbn; lia].
  - (* act *)
    apply (IH (on_run (on_world f) st)); try assumption.
    split; assumption.
  - (* observe *)
    apply IH; try assumption. split; assumption.
Qed.

End Handler.

Lemma runAt_enter h rest' i st :
  idx (now st) < i ->
  runAt ctx finalNext (h :: rest') i st
  = (fresh st,
     await (S (fresh st)) (KRunAt i rest' (fresh st))
           (exec (stepNext ctx finalNext rest' i) i rest' (S (fresh st))
                 (a_fn h ctx)
                 (mkAState (mkRunState i (events (now st) ++ [Enter i])
                                       (world (now st)))
                           (called st) (settled st) (S (S (fresh st)))
                           (waiting st)))).
Proof.
  intros Hlt. rewrite async_runAt_cons. cbn [new_promise now].
  destruct (i <=? idx (now st)) eqn:Hle; [apply Z.leb_le in Hle; lia|].
  reflexivity.
Qed.

(** Entering the chain at a position above [idx]: links only, and in the
    end either nothing is suspended at the deepest position, or only the
    [runAt] of a handler that has finished. *)
Lemma cascade chain : forall i st,
  idx (now st) < i ->
  fresh_ok st ->
  List.Forall (fun t => settled st !! fst t = None /\ below i t) (waiting st) ->
  cascaded i st
           (fst (runAt ctx finalNext (map awaiting chain) i st))
           (snd (runAt ctx finalNext (map awaiting chain) i st)).
Proof.
  induction chain as [|h chain' IH]; intros i st Hlt [Hfresh Hwait] Hall.
  - cbn [map runAt new_promise now].
    destruct (i <=? idx (now st)) eqn:Hle; [apply Z.leb_le in Hle; lia|].
    destruct finalNext as [final|].
    + cbn. destruct (final (world (now st))) as [o w]. unfold cascaded. cbn.
      split; [lia|]. split; [lia|]. split.
      { split; cbn.
        - intros p Hp. rewrite lookup_insert_ne by lia. apply Hfresh. lia.
        - apply Forall_app. split.
          + eapply Forall_impl; [exact Hwait|]. cbn. intros t Ht. lia.
          + constructor; [cbn; lia|constructor]. }
      split; [lia|].
      split; [intros p Hp; now rewrite lookup_insert_ne by lia|].
      split; [now exists [CallFinal]|].
      left. unfold closed. cbn. apply Forall_app. split.
      * eapply Forall_impl; [exact Hall|]. intros t [_ Hb]. exact Hb.
      * now repeat constructor.
    + unfold cascaded. cbn. split; [lia|]. split; [lia|]. split.
      { split; cbn.
        - intros p Hp. rewrite lookup_insert_ne by lia. apply Hfresh. lia.
        - eapply Forall_impl; [exact Hwait|]. cbn. intros t Ht. lia. }
      split; [lia|].
      split; [intros p Hp; now rewrite lookup_insert_ne by lia|].
      split; [exists []; now rewrite app_nil_r|].
      left. unfold closed. cbn.
      eapply Forall_impl; [exact Hall|]. intros t [_ Hb]. exact Hb.
  - cbn [map]. rewrite (runAt_enter _ _ _ _ Hlt).
    change (a_fn (awaiting h) ctx) with (awaited (fn h ctx)).
    set (st3 := mkAState (mkRunState i (events (now st) ++ [Enter i])
                                     (world (now st)))
                         (called st) (settled st) (S (S (fresh st)))
                         (waiting st)).
    assert (Hex : executed i (S (fresh st)) st3
                    (exec (stepNext ctx finalNext (map awaiting chain') i) i
                          (map awaiting chain') (S (fresh st))
                          (awaited (fn h ctx)) st3)).
    { apply (exec_awaited chain' i (S (fresh st))).
      - intros s Hs Hf Ha. now apply IH.
      - reflexivity.
      - split; cbn.
        + intros p Hp. apply Hfresh. lia.
        + eapply Forall_impl; [exact Hwait|]. cbn. intros t Ht. lia.
      - cbn. lia.
      - cbn. apply Hfresh. lia.
      - exact Hall. }
    set (st4 := exec _ _ _ _ _ st3) in *.
    destruct Hex as (Hf & [Hfresh4 Hwait4] & Hold & (es & Hes & Hlinks) & Hcase).
    cbn [fst snd]. cbn in Hf.
    assert (Hown : settled st4 !! fresh st = None).
    { rewrite Hold; [apply Hfresh; lia|cbn; lia|lia]. }
    split; [cbn; lia|]. split; [cbn; lia|]. split.
    { split; cbn.
      - exact Hfresh4.
      - apply Forall_app. split; [exact Hwait4|].
        constructor; [cbn; lia|constructor]. }
    assert (Hidx4 : i <= idx (now st4)).
    { destruct Hcase as [(_ & _ & ->)|(_ & Hlt4 & _)]; lia. }
    split; [exact Hidx4|].
    split; [intros p Hp; cbn; apply Hold; cbn; lia|].
    split.
    { exists (Enter i :: es). cbn. rewrite Hes. cbn.
      split; [now rewrite <- app_assoc|exact Hlinks]. }
    destruct Hcase as [(Hset & Hsame & Hi4)|(Hunset & Hlt4 & [Hclosed|Hopen])].
    + right. split; [|exact Hown].
      exists (waiting st), (S (fresh st)), chain', (fresh st), []. cbn.
      rewrite Hsame, Hi4. split; [reflexivity|].
      rewrite app_nil_r. apply List.Forall_forall. intros t Hin.
      rewrite List.Forall_forall in Hall, Hwait.
      destruct (Hall t Hin) as [Hu Hb]. specialize (Hwait t Hin).
      split; [|cbn; rewrite Hi4; exact Hb].
      cbn. rewrite Hold; [exact Hu|cbn; lia|lia].
    + left. apply closed_await; [exact Hclosed|]. unfold below. cbn. lia.
    + right. split; [|exact Hown].
      apply open_await; [exact Hopen|].
      split; [exact Hunset|unfold below; cbn; lia].
Qed.

Lemma jobs_from_spec l : forall pre st st',
  In st' (jobs_from ctx finalNext pre l st) ->
  exists l1 p K l2 c,
    l = l1 ++ (p, K) :: l2
    /\ settled st !! p = Some c
    /\ st' = resume ctx finalNext K c
                    (mkAState (now st) (called st) (settled st) (fresh st)
                              ((pre ++ l1) ++ l2)).
Proof.
  induction l as [|[p K] l IH]; intros pre st st'; cbn [jobs_from];
    [intros []|].
  intros Hin. apply in_app_or in Hin as [Hin|Hin].
  - destruct (settled st !! p) as [c|] eqn:Hp; [|destruct Hin].
    destruct Hin as [<-|[]].
    exists [], p, K, l, c. now rewrite app_nil_r.
  - apply IH in Hin as (l1 & p' & K' & l2 & c & -> & Hp & ->).
    exists ((p, K) :: l1), p', K', l2, c. split; [reflexivity|].
    split; [exact Hp|].
    now rewrite <- (List.app_assoc pre [(p, K)] l1).
Qed.

Lemma split_at {A} (x y : A) pre post : forall l1 l2,
  pre ++ x :: post = l1 ++ y :: l2 ->
  ~ In y (pre ++ post) ->
  l1 = pre /\ y = x /\ l2 = post.
Proof.
  induction pre as [|a pre IH]; intros [|b l1] l2; cbn; intros Heq Hnot.
  - injection Heq as -> ->. auto.
  - injection Heq as -> ->. exfalso. apply Hnot, in_or_app. right. now left.
  - injection Heq as -> _. exfalso. apply Hnot. now left.
  - injection Heq as -> Heq.
    destruct (IH l1 l2 Heq) as (-> & -> & ->); [tauto|auto].
Qed.

Lemma links_quiet es :
  forallb is_link es = true -> no_link_after_violation es = true.
Proof.
  induction es as [|[j| |] es IH]; cbn; auto. discriminate.
Qed.

Lemma quiet_app_violations es k :
  no_link_after_violation es = true ->
  no_link_after_violation (es ++ replicate k Violation) = true.
Proof.
  induction es as [|[j| |] es IH]; cbn; auto.
  - intros _. apply ChainFacts.violations_quiet.
  - intros Hv. rewrite forallb_app, Hv. cbn. clear.
    induction k as [|k IHk]; [reflexivity|exact IHk].
Qed.

Lemma orderly_cascaded i st R st' K :
  forallb is_link (events (now st)) = true ->
  cascaded i st R st' ->
  position K = None ->
  orderly (await R K st').
Proof.
  intros Hlinks (Hf & HR & [Hfresh Hwait] & Hi & Hold & (es & Hes & Hes') & Hcase)
         HK.
  assert (forallb is_link (events (now st')) = true) as Hall.
  { rewrite Hes, forallb_app, Hlinks. exact Hes'. }
  destruct Hcase as [Hclosed|[Hopen Hunset]].
  - left. split; [|cbn; now apply links_quiet].
    apply closed_await; [exact Hclosed|]. unfold below. cbn. now rewrite HK.
  - right. split; [|split; [|exact Hall]].
    + apply open_await; [exact Hopen|]. split; [exact Hunset|].
      unfold below. cbn. now rewrite HK.
    + split; cbn; [exact Hfresh|].
      apply Forall_app. split; [exact Hwait|]. now repeat constructor.
Qed.

Lemma orderly_step st st' :
  orderly st -> step ctx finalNext st st' -> orderly st'.
Proof.
  intros [[Hclosed Hquiet]|(Hopen & [Hfresh Hwait] & Hlinks)] Hstep.
  - destruct (jobs_from_closed ctx finalNext _ [] st st' Hclosed Hstep)
      as [Hclosed' (k & Hev)].
    left. split; [exact Hclosed'|]. rewrite Hev.
    now apply quiet_app_violations.
  - apply jobs_from_spec in Hstep as (l1 & p & K & l2 & c & Hw & Hp & ->).
    destruct Hopen as (pre & hp & chain' & own & post & Hw' & Hall).
    rewrite Hw' in Hw.
    destruct (split_at _ _ _ _ _ _ Hw) as (-> & HK & ->).
    { intros Hin. rewrite List.Forall_forall in Hall.
      destruct (Hall _ Hin) as [Hu _]. cbn in Hu. congruence. }
    injection HK as -> ->. cbn [app].
    set (st0 := mkAState (now st) (called st) (settled st) (fresh st)
                         (pre ++ post)).
    assert (Hclosed0 : closed st0).
    { unfold closed. cbn. eapply Forall_impl; [exact Hall|].
      intros t [_ Hb]. exact Hb. }
    assert (Hdone : forall o, orderly (settle own o st0)).
    { intros o. left. split; [exact Hclosed0|]. cbn. now apply links_quiet. }
    cbn [resume]. destruct c as [v|e]; [|apply Hdone].
    destruct (is_Response v); [apply Hdone|].
    destruct (negb (is_undefined v)); [apply Hdone|].
    destruct (negb (is_called (idx (now st)) st0)); [|apply Hdone].
    assert (Hc : cascaded (idx (now st) + 1) st0
                   (fst (runAt ctx finalNext (map awaiting chain')
                               (idx (now st) + 1) st0))
                   (snd (runAt ctx finalNext (map awaiting chain')
                               (idx (now st) + 1) st0))).
    { apply cascade.
      - cbn. lia.
      - split; cbn; [exact Hfresh|].
        rewrite Hw' in Hwait. apply Forall_app in Hwait as [H1 H2].
        inversion H2; subst. apply Forall_app. split; assumption.
      - cbn. eapply Forall_impl; [exact Hall|].
        intros t [Hu Hb]. split; [exact Hu|].
        eapply below_le; [exact Hb|lia]. }
    destruct (runAt _ _ _ _ st0) as [r st1]. cbn [fst snd] in Hc.
    now apply (orderly_cascaded _ _ _ _ (KAdopt own) Hlinks Hc).
Qed.

Lemma orderly_start chain w :
  orderly (start ctx finalNext (map awaiting chain) w).
Proof.
  unfold start.
  set (st0 := mkAState (mkRunState (-1) [] w) [] ∅ 0 []).
  assert (Hc : cascaded 0 st0
                 (fst (runAt ctx finalNext (map awaiting chain) 0 st0))
                 (snd (runAt ctx finalNext (map awaiting chain) 0 st0))).
  { apply cascade.
    - cbn. lia.
    - split; cbn; [intros p _; apply lookup_empty|constructor].
    - constructor. }
  destruct Hc as (_ & _ & Hfresh & _ & _ & (es & Hes & Hlinks) & Hcase).
  cbn in Hes.
  destruct Hcase as [Hclosed|[Hopen _]].
  - left. split; [exact Hclosed|]. rewrite Hes. now apply links_quiet.
  - right. split; [exact Hopen|]. split; [exact Hfresh|]. now rewrite Hes.
Qed.

(** In a run of handlers that await every call of their continuation, in
    whatever order the jobs are taken, no link executes once a protocol
    error has been raised. *)
Lemma awaited_steps_quiet chain w st :
  rtc (step ctx finalNext) (start ctx finalNext (map awaiting chain) w) st ->
  no_link_after_violation (events (now st)) = true.
Proof.
  intros Hsteps.
  assert (orderly st) as [[_ H]|(_ & _ & H)].
  { pose proof (orderly_start chain w) as H0.
    induction Hsteps as [a | a b c Hab _ IH]; [exact H0|].
    apply IH. now apply (orderly_step a b). }
  - exact H.
  - now apply links_quiet.
Qed.

End Awaited.




(** On handlers that await every call, the runs found here are the run of
    [Chain]: a handler that awaits its continuation twice, in front of two
    others. *)
Example awaited_run_agrees :
  complete_runs root_ctx (Some final_204) 30
                (map awaiting [calls_twice; marks_seen; returns_x]) empty_world
  = Some [events (snd (Chain.runAt (Some final_204)
                                   [calls_twice; marks_seen; returns_x]
                                   0 root_ctx (initial empty_world)))]
  /\ events (snd (Chain.runAt (Some final_204)
                              [calls_twice; marks_seen; returns_x]
                              0 root_ctx (initial empty_world)))
     = [Enter 0; Enter 1; Enter 2; Violation].
Proof. vm_compute. split; reflexivity. Qed.

End AsyncChainFacts.

(** ** Normalization, the shared response and the global wrapper *)

Module ReconcilerFacts.
Import JsString Js Http Hono Reconciler Samples NestedRetrieval.

(** The constructor accepts the fields of an intact response, whatever the
    headers given. *)
Lemma new_Response_intact r h :
  intact r = true ->
  new_Response (body_of r) (status r) (statusText r) h
  = Returned (mkResponse (status r) (statusText r) (body r) false h).
Proof.
  unfold intact, new_Response, body_of. intros H.
  apply andb_prop in H as [Hrange Hbody].
  apply andb_prop in Hrange as [Hlo Hhi].
  apply Z.leb_le in Hlo. apply Z.leb_le in Hhi.
  assert (Hr : (status r <? 200) || (599 <? status r) = false).
  { apply orb_false_intro; apply Z.ltb_ge; lia. }
  destruct (body r) as [content|]; [|now rewrite Hr].
  apply andb_prop in Hbody as [Hused Hnull].
  apply negb_true_iff in Hused. apply negb_true_iff in Hnull.
  now rewrite Hused, Hr, Hnull.
Qed.

(** [Response.json] of a value that serializes. *)
Lemma Response_json_ok data t :
  stringify data = Returned (Some t) ->
  Response_json data
  = Returned (mkResponse 200 "" (Some t) false
                         (headers_set ∅ "Content-Type" content_type_json)).
Proof.
  intros H. unfold Response_json. rewrite H. simpl.
  unfold new_Response. simpl.
  unfold headers_get, headers_set. now rewrite lookup_insert_eq.
Qed.

(** A primitive given as a body. *)
Lemma new_Response_text s :
  new_Response (InitString s) 200 "" ∅
  = Returned (mkResponse 200 "" (Some s) false
                         (headers_set ∅ "Content-Type" content_type_text)).
Proof. reflexivity. Qed.

Lemma normalized_object res t :
  typeof res = "object" ->
  is_Response res = false -> res <> VNull ->
  stringify res = Returned (Some t) ->
  forall w, exists out,
    normalized w res = Returned out
    /\ (forall e, rebuild res = Raised e -> normalized w res = Response_json res).
Proof.
  intros Hobj Hresp Hnull Hs w.
  assert (Hn : normalized w res
               = match rebuild res with
                 | Returned out => Returned out
                 | Raised _ => Response_json res
                 end).
  { destruct res; try discriminate; try reflexivity. congruence. }
  rewrite Hn. destruct (rebuild res) as [out|e] eqn:Hre.
  - exists out. split; [reflexivity|]. intros e' He'. discriminate He'.
  - rewrite (Response_json_ok res t Hs). eexists. split; [reflexivity|].
    intros _ _. reflexivity.
Qed.

(** The object cases of [normalizable]. *)
Ltac serializable_object v Hn w :=
  destruct (stringify v) as [[?|]|] eqn:?; try discriminate Hn;
  match goal with
  | Hs : stringify v = Returned (Some ?t) |- _ =>
      destruct (normalized_object v t eq_refl eq_refl ltac:(discriminate) Hs w)
        as (? & ? & _); eauto
  end.




Lemma c_get_c_set key v w : c_get key (c_set key v w) = v.
Proof. unfold c_get, c_set. simpl. now rewrite lookup_insert_eq. Qed.

Lemma c_get_set_header key ref name value w :
  c_get key (set_header ref name value w) = c_get key w.
Proof. reflexivity. Qed.

(** What a successful retrieval leaves in the store. *)
Lemma getShared_stores next w v w1 :
  getSharedMutableResponse next w = (Returned v, w1) ->
  c_get KEY_SHARED w1 = v /\ truthy v = true.
Proof.
  unfold getSharedMutableResponse.
  destruct (truthy (c_get KEY_SHARED w)) eqn:Ht.
  - intros H. injection H as <- <-. auto.
  - unfold bind. destruct (next w) as [[downstream|e] w'];
      [|intros H; discriminate H].
    destruct (toMutableResponse _ w') as [[ref|e] w''];
      [|intros H; discriminate H].
    intros H. injection H as <- <-. split; [apply c_get_c_set|reflexivity].
Qed.

Lemma getShared_reuses next w :
  truthy (c_get KEY_SHARED w) = true ->
  getSharedMutableResponse next w = (Returned (c_get KEY_SHARED w), w).
Proof. intros H. unfold getSharedMutableResponse. now rewrite H. Qed.

Lemma get_header_set_header ref name value w :
  is_Some (responses w !! ref) ->
  get_header ref name (set_header ref name value w) = Some value.
Proof.
  intros [r Hr]. unfold get_header, set_header. simpl.
  rewrite lookup_alter_eq, Hr. simpl.
  unfold headers_get, headers_set. apply lookup_insert_eq.
Qed.

(** A retrieval that finds the slot empty returns the object it creates
    once downstream has resolved, and stores it. *)
Lemma getShared_fresh next w v w1 :
  truthy (c_get KEY_SHARED w) = false ->
  getSharedMutableResponse next w = (Returned v, w1) ->
  v = VResponse (next_ref (snd (next w))) /\ c_get KEY_SHARED w1 = v.
Proof.
  unfold getSharedMutableResponse. intros ->. unfold bind.
  destruct (next w) as [[downstream|e] w'];
    [|intros H; discriminate H].
  unfold toMutableResponse, bind, lift, alloc. cbn [snd].
  destruct (normalized w' _) as [r|e]; [|intros H; discriminate H].
  intros H. injection H as <- <-. split; [reflexivity|apply c_get_c_set].
Qed.




Lemma field_name_trace : field_name "X-Trace-Id" = "x-trace-id".
Proof. reflexivity. Qed.

(** C1: when the pipeline behind the global wrapper resolves and the
    response materialized for the request is intact at the moment of the
    final cloning, the wrapper returns a new response with the status,
    status text and body of the materialized one, whose headers are those of
    the materialized response at that moment overlaid with [X-Trace-Id]:
    every field present stays present, every field other than [X-Trace-Id]
    keeps its value, and [X-Trace-Id] is the trace id the wrapper obtained
    when it started, the one generated there when the store held none. *)
Theorem global_wrapper_stamps_trace
    (next : M JsValue) (random36 : string) (w w1 w2 : World)
    (res : JsValue) (shared : nat) (r : Response) (t : string) :
  next (c_set KEY_TRACE (trace_of random36 w) w) = (Returned res, w1) ->
  materialized res w1 = (Returned (VResponse shared), w2) ->
  toString (trace_of random36 w) = Returned t ->
  responses (c_header "X-Trace-Id" t w2) !! shared = Some r ->
  intact r = true ->
  let w3 := c_header "X-Trace-Id" t w2 in
  let final :=
    mkResponse (status r) (statusText r) (body r) false
               (headers_set (headers r) "X-Trace-Id" t) in
  globalWrapper next random36 w
  = (Returned (next_ref w3),
     mkWorld (vars w3) (<[next_ref w3 := final]> (responses w3))
             (c_res w3) (S (next_ref w3)))
  /\ (forall name,
        is_Some (headers_get (headers r) name) ->
        is_Some (headers_get (headers final) name))
  /\ (forall name,
        field_name name <> "x-trace-id" ->
        headers_get (headers final) name = headers_get (headers r) name)
  /\ headers_get (headers final) "X-Trace-Id" = Some t
  /\ (truthy (c_get KEY_TRACE w) = false -> t = randId random36).
Proof.
  intros Hnext Hmat Hts Hr Hintact w3 final. subst w3.
  split; [|split; [|split; [|split]]].
  - unfold globalWrapper, bind. rewrite Hnext, Hmat.
    unfold lift at 1. rewrite Hts.
    unfold cloneWithExtraHeaders, bind, lift, clone_of.
    rewrite Hr. simpl. rewrite Hts. simpl.
    now rewrite new_Response_intact.
  - intros name Hsome. subst final. simpl.
    unfold headers_get, headers_set in *. rewrite field_name_trace.
    destruct (decide ("x-trace-id" = field_name name)) as [<-|Hne].
    + rewrite lookup_insert_eq. eauto.
    + now rewrite lookup_insert_ne.
  - intros name Hne. subst final. simpl.
    unfold headers_get, headers_set. rewrite field_name_trace.
    now rewrite lookup_insert_ne.
  - subst final. simpl. unfold headers_get, headers_set.
    apply lookup_insert_eq.
  - intros Hfresh. unfold trace_of in Hts. rewrite Hfresh in Hts.
    simpl in Hts. now injection Hts as <-.
Qed.

(** A request whose middleware materialized a response with a header of its
    own: the final response carries that header and the trace id. *)
Lemma global_wrapper_stamps_trace_witness :
  exists final,
    responses (snd (globalWrapper next_materializes "0.lngz8vk5abc" empty_world))
      !! 2%nat = Some final
    /\ fst (globalWrapper next_materializes "0.lngz8vk5abc" empty_world)
       = Returned 2%nat
    /\ status final = 201 /\ body final = Some "hi"
    /\ headers_get (headers final) "X-From-Middleware" = Some "yes"
    /\ headers_get (headers final) "X-Trace-Id" = Some "lngz8vk5".
Proof.
  destruct (global_wrapper_stamps_trace next_materializes "0.lngz8vk5abc"
              empty_world world_after_middleware world_after_middleware
              VUndefined 0%nat created_response "lngz8vk5")
    as (Hrun & _ & Hvals & Htrace & _).
  - vm_compute. reflexivity.
  - vm_compute. reflexivity.
  - vm_compute. reflexivity.
  - vm_compute. reflexivity.
  - vm_compute. reflexivity.
  - eexists. rewrite Hrun. simpl. split; [apply lookup_insert_eq|].
    split; [reflexivity|]. split; [reflexivity|]. split; [reflexivity|].
    split; [|exact Htrace].
    rewrite Hvals; [reflexivity|]. vm_compute. discriminate.
Defined.

End ReconcilerFacts.

(** ** More on [ensureVaryOrigin] *)

Module VaryMore.
Import JsString Js Http Hono Reconciler Samples.

Lemma c_header_live name value w : live_res w -> live_res (c_header name value w).
Proof.
  unfold live_res, c_header, set_header.
  destruct (c_res w) as [ref|] eqn:Hres; simpl.
  - intros [r Hr]. rewrite lookup_alter_eq, Hr. simpl. eauto.
  - intros _. rewrite lookup_insert_eq. eauto.
Qed.

Lemma c_header_reads name value w :
  live_res w -> c_res_header name (c_header name value w) = Some value.
Proof.
  unfold live_res, c_res_header, c_header, get_header, set_header.
  destruct (c_res w) as [ref|] eqn:Hres; simpl.
  - intros [r Hr]. rewrite lookup_alter_eq, Hr. simpl.
    unfold headers_get, headers_set. simpl. apply lookup_insert_eq.
  - intros _. rewrite lookup_insert_eq. simpl.
    unfold headers_get, headers_set. apply lookup_insert_eq.
Qed.

(** [c.header] leaves every other field of the context's response alone. *)
Lemma c_header_other name value other w :
  field_name other <> field_name name ->
  c_res_header other (c_header name value w) = c_res_header other w.
Proof.
  intros Hne. unfold c_res_header, c_header, get_header, set_header.
  destruct (c_res w) as [ref|] eqn:Hres; simpl.
  - rewrite lookup_alter_eq.
    destruct (responses w !! ref) as [r|]; simpl; [|reflexivity].
    unfold headers_get, headers_set. simpl. now rewrite lookup_insert_ne.
  - rewrite lookup_insert_eq. simpl.
    unfold headers_get, headers_set. rewrite lookup_insert_ne by congruence.
    apply lookup_empty.
Qed.

Lemma includes_snoc l x : includes (l ++ [x]) x = true.
Proof.
  unfold includes. rewrite existsb_app. simpl.
  rewrite String.eqb_refl. now rewrite orb_true_r.
Qed.

Lemma nonempty_app s t : nonempty s = true -> nonempty (s +:+ t) = true.
Proof. destruct s; [discriminate|reflexivity]. Qed.

(** What [ensureVaryOrigin] leaves in the [Vary] field. *)
Lemma ensureVaryOrigin_result w :
  live_res w ->
  exists v,
    c_res_header "Vary" (ensureVaryOrigin w) = Some v
    /\ nonempty v = true
    /\ includes (vary_tokens v) "origin" = true.
Proof.
  intros Hlive. unfold ensureVaryOrigin.
  destruct (c_res_header "Vary" w) as [prev|] eqn:Hprev.
  - destruct (nonempty prev) eqn:Hne; simpl.
    + destruct (includes (vary_tokens prev) "origin") eqn:Hinc; simpl.
      * exists prev. auto.
      * exists (prev +:+ ", Origin"). split; [now apply c_header_reads|].
        split; [now apply nonempty_app|].
        change ", Origin" with (String "," " Origin").
        unfold vary_tokens.
        rewrite VaryFacts.split_on_app_sep, map_app. apply includes_snoc.
    + exists "Origin". split; [now apply c_header_reads|]. split; reflexivity.
  - exists "Origin". split; [now apply c_header_reads|]. split; reflexivity.
Qed.

(** X1: after [ensureVaryOrigin] the context's response has a [Vary] field
    one of whose comma-separated tokens is ["origin"] (trimmed, without
    regard to case), and running it a second time changes nothing. *)
Theorem ensureVaryOrigin_idempotent (w : World) :
  live_res w ->
  (exists v, c_res_header "Vary" (ensureVaryOrigin w) = Some v
             /\ includes (vary_tokens v) "origin" = true)
  /\ ensureVaryOrigin (ensureVaryOrigin w) = ensureVaryOrigin w.
Proof.
  intros Hlive.
  destruct (ensureVaryOrigin_result w Hlive) as (v & Hv & Hne & Hinc).
  split; [eauto|].
  unfold ensureVaryOrigin at 1. now rewrite Hv, Hne, Hinc.
Qed.

(** A response without any [Vary] field. *)
Lemma ensureVaryOrigin_idempotent_witness :
  (exists v, c_res_header "Vary" (ensureVaryOrigin empty_world) = Some v
             /\ includes (vary_tokens v) "origin" = true)
  /\ ensureVaryOrigin (ensureVaryOrigin empty_world)
     = ensureVaryOrigin empty_world.
Proof. apply (ensureVaryOrigin_idempotent empty_world). exact I. Defined.

(** X2: [ensureVaryOrigin] touches no field of the context's response other
    than [Vary]. *)
Theorem ensureVaryOrigin_other_fields (w : World) (name : string) :
  field_name name <> "vary" ->
  c_res_header name (ensureVaryOrigin w) = c_res_header name w.
Proof.
  intros Hne. unfold ensureVaryOrigin.
  destruct (c_res_header "Vary" w) as [prev|].
  - destruct (nonempty prev); simpl.
    + destruct (includes (vary_tokens prev) "origin"); simpl;
        [reflexivity | now apply c_header_other].
    + now apply c_header_other.
  - now apply c_header_other.
Qed.

(** The content type of a response that varies on the encoding. *)
Lemma ensureVaryOrigin_other_fields_witness :
  c_res_header "Content-Type" (ensureVaryOrigin encoding_vary_world)
  = c_res_header "Content-Type" encoding_vary_world.
Proof.
  apply (ensureVaryOrigin_other_fields encoding_vary_world "Content-Type").
  vm_compute. discriminate.
Defined.

End VaryMore.

(** ** More on export names and on the registration order *)

Module OrchestratorMore.
Import JsString Js PathCompiler Chain Orchestrator Samples.

Lemma includes_In l x : includes l x = true -> In x l.
Proof.
  unfold includes. rewrite existsb_exists. intros (y & Hy & Heq).
  apply String.eqb_eq in Heq. now subst.
Qed.

(** X3: an export name maps to a method only when it starts with
    ["onRequest"], and the method is then ["ALL"] or one of the seven
    verbs, never anything else. *)
Theorem export_method_is_reserved (name method : string) :
  getMethodFromExportName name = Some method ->
  startsWith name "onRequest" = true
  /\ In method ["ALL"; "GET"; "POST"; "PUT"; "DELETE"; "PATCH"; "HEAD"; "OPTIONS"].
Proof.
  unfold getMethodFromExportName.
  destruct (startsWith name "onRequest"); cbv zeta; cbn [negb];
    [|discriminate].
  destruct (String.eqb (drop_str 9 name) "").
  - intros H. injection H as <-. split; [reflexivity|]. now left.
  - destruct (includes _ (toUpperCase (drop_str 9 name))) eqn:Hinc;
      [|discriminate].
    intros H. injection H as <-. split; [reflexivity|].
    right. now apply includes_In.
Qed.

(** The export [onRequestPatch]. *)
Lemma export_method_is_reserved_witness :
  startsWith "onRequestPatch" "onRequest" = true
  /\ In "PATCH" ["ALL"; "GET"; "POST"; "PUT"; "DELETE"; "PATCH"; "HEAD"; "OPTIONS"].
Proof.
  apply (export_method_is_reserved "onRequestPatch" "PATCH"). reflexivity.
Defined.

Lemma upper_char_idempotent c : upper_char (upper_char c) = upper_char c.
Proof. destruct c as [[] [] [] [] [] [] [] []]; reflexivity. Qed.

Lemma toUpperCase_idempotent s : toUpperCase (toUpperCase s) = toUpperCase s.
Proof.
  induction s as [|c s IH]; simpl; [reflexivity|].
  now rewrite upper_char_idempotent, IH.
Qed.

Lemma toUpperCase_empty s :
  String.eqb (toUpperCase s) "" = String.eqb s "".
Proof. destruct s; reflexivity. Qed.

Lemma startsWith_onRequest s :
  startsWith ("onRequest" +:+ s) "onRequest" = true.
Proof. destruct s; reflexivity. Qed.

(** X4: the verb after ["onRequest"] is read without regard to case: an
    export name and the same name with its suffix in upper case map to the
    same method. *)
Theorem export_method_ignores_case (suffix : string) :
  getMethodFromExportName ("onRequest" +:+ suffix)
  = getMethodFromExportName ("onRequest" +:+ toUpperCase suffix).
Proof.
  unfold getMethodFromExportName.
  rewrite !startsWith_onRequest.
  change (drop_str 9 ("onRequest" +:+ suffix)) with suffix.
  change (drop_str 9 ("onRequest" +:+ toUpperCase suffix))
    with (toUpperCase suffix).
  cbv zeta. cbn [negb].
  rewrite toUpperCase_empty, toUpperCase_idempotent. reflexivity.
Qed.

(** Sorting keeps, among the entries of any one depth, the order in which
    they were gathered. *)
Lemma insert_by_depth_filter d m l :
  StronglySorted shallower_eq l ->
  List.filter (fun x => depth x =? d) (insert_by_depth m l)
  = List.filter (fun x => depth x =? d) (m :: l).
Proof.
  induction 1 as [|x l Hs IH Hall]; [reflexivity|].
  simpl. destruct (depth m <=? depth x) eqn:Hle; [reflexivity|].
  apply Z.leb_gt in Hle. simpl. rewrite IH. simpl.
  destruct (depth m =? d) eqn:Hm; [|reflexivity].
  apply Z.eqb_eq in Hm.
  destruct (depth x =? d) eqn:Hx; [|reflexivity].
  apply Z.eqb_eq in Hx. lia.
Qed.

(** X5: the sort of PASS 1 is stable: middleware whose patterns have the
    same depth are registered in the order in which the files were
    discovered. *)
Theorem pass1_keeps_discovery_order (all : list FileEntry) (d : Z) :
  List.filter (fun m => depth m =? d) (pass1 all)
  = List.filter (fun m => depth m =? d) (gather all).
Proof.
  unfold pass1. induction (gather all) as [|m l IH]; [reflexivity|].
  simpl sort_by_depth.
  rewrite insert_by_depth_filter
    by apply OrchestratorFacts.sort_by_depth_sorted.
  simpl. now rewrite IH.
Qed.

End OrchestratorMore.

(** ** More on the path compiler *)

Module PathMore.
Import JsString PathCompiler Http.

Lemma existsb_eqb_In x l : existsb (String.eqb x) l = true <-> In x l.
Proof.
  rewrite existsb_exists. split.
  - intros (y & Hy & Heq). apply String.eqb_eq in Heq. now subst.
  - intros Hin. exists x. split; [assumption|apply String.eqb_refl].
Qed.

Lemma set_add_In x y l : In y (set_add x l) <-> y = x \/ In y l.
Proof.
  unfold set_add. destruct (existsb (String.eqb x) l) eqn:Hex.
  - apply existsb_eqb_In in Hex. split; [auto|]. intros [->|H]; assumption.
  - rewrite in_app_iff. simpl. intuition.
Qed.

Lemma set_add_NoDup x l : List.NoDup l -> List.NoDup (set_add x l).
Proof.
  intros Hnd. unfold set_add.
  destruct (existsb (String.eqb x) l) eqn:Hex; [assumption|].
  assert (Hnot : ~ In x l).
  { intros Hin. apply existsb_eqb_In in Hin. congruence. }
  clear Hex. induction Hnd as [|a l Ha Hnd IH]; simpl.
  - constructor; [intros []|constructor].
  - constructor.
    + rewrite in_app_iff. simpl. intros [H|[H|[]]]; [now apply Ha|].
      apply Hnot. now left.
    + apply IH. intros H. apply Hnot. now right.
Qed.

Lemma set_add_not_nil x l : set_add x l <> [].
Proof.
  unfold set_add. destruct (existsb (String.eqb x) l) eqn:Hex.
  - destruct l; [discriminate Hex|discriminate].
  - destruct l; discriminate.
Qed.

Lemma fold_set_add_In l : forall acc y,
  In y (fold_left (fun acc x => set_add x acc) l acc) <-> In y acc \/ In y l.
Proof.
  induction l as [|x l IH]; intros acc y; simpl; [intuition|].
  rewrite IH, set_add_In. intuition.
Qed.

Lemma fold_set_add_NoDup l : forall acc,
  List.NoDup acc ->
  List.NoDup (fold_left (fun acc x => set_add x acc) l acc).
Proof.
  induction l as [|x l IH]; intros acc Hnd; simpl; [assumption|].
  apply IH. now apply set_add_NoDup.
Qed.

Lemma set_of_list_In l y : In y (set_of_list l) <-> In y l.
Proof. unfold set_of_list. rewrite fold_set_add_In. simpl. intuition. Qed.

Lemma set_of_list_NoDup l : List.NoDup (set_of_list l).
Proof. apply fold_set_add_NoDup. constructor. Qed.

(** The loop that adds the augmented members. *)
Lemma widen_In l : forall acc y,
  In y (fold_left
          (fun acc r =>
             if ends_in_plain_param r then set_add (r +:+ "{.+}") acc else acc)
          l acc)
  <-> In y acc
      \/ exists r, In r l /\ ends_in_plain_param r = true /\ y = r +:+ "{.+}".
Proof.
  induction l as [|x l IH]; intros acc y; simpl.
  - split; [auto|]. intros [H|(r & [] & _)]. assumption.
  - rewrite IH. destruct (ends_in_plain_param x) eqn:Hx.
    + rewrite set_add_In. split.
      * intros [[->|H]|(r & Hr & He & ->)]; eauto 8.
      * intros [H|(r & [->|Hr] & He & ->)]; eauto 8.
    + split.
      * intros [H|(r & Hr & He & ->)]; eauto 8.
      * intros [H|(r & [->|Hr] & He & ->)]; eauto 8. congruence.
Qed.

Lemma widen_NoDup l : forall acc,
  List.NoDup acc ->
  List.NoDup
    (fold_left
       (fun acc r =>
          if ends_in_plain_param r then set_add (r +:+ "{.+}") acc else acc)
       l acc).
Proof.
  induction l as [|x l IH]; intros acc Hnd; simpl; [assumption|].
  apply IH. destruct (ends_in_plain_param x); [now apply set_add_NoDup|assumption].
Qed.

Lemma prefix_empty s : String.prefix "" s = true.
Proof. now destruct s. Qed.

Lemma startsWith_slash s : startsWith ("/" +:+ s) "/" = true.
Proof. unfold startsWith. cbn. apply prefix_empty. Qed.

Lemma startsWith_slash_app r t :
  startsWith r "/" = true -> startsWith (r +:+ t) "/" = true.
Proof.
  unfold startsWith. destruct r as [|c r]; [discriminate|].
  change (String c r +:+ t) with (String c (r +:+ t)).
  cbn -[ascii_dec].
  destruct (ascii_dec "/" c) as [Hc|Hc]; [|intros H; discriminate H].
  intros _. apply prefix_empty.
Qed.

(** A pattern with the rest-capture suffix does not end in a plain
    parameter. *)
Lemma span_word_suffix s :
  String.eqb (snd (span_word (s +:+ "{.+}"))) "" = false.
Proof.
  induction s as [|c s IH]; [reflexivity|].
  change (String c s +:+ "{.+}") with (String c (s +:+ "{.+}")). simpl.
  destruct (is_word_char c); [|reflexivity].
  destruct (span_word (s +:+ "{.+}")) as [w r]. exact IH.
Qed.

Lemma augmented_not_plain r : ends_in_plain_param (r +:+ "{.+}") = false.
Proof.
  induction r as [|c r IH]; [reflexivity|].
  change (String c r +:+ "{.+}") with (String c (r +:+ "{.+}")).
  cbn [ends_in_plain_param]. rewrite IH, orb_false_r.
  destruct r as [|d w]; [now rewrite andb_false_r|].
  change (String d w +:+ "{.+}") with (String d (w +:+ "{.+}")).
  cbv iota. rewrite span_word_suffix. now rewrite !andb_false_r.
Qed.

Lemma path_route_of o l : map path (map (route_of o) l) = l.
Proof. induction l as [|p l IH]; simpl; [reflexivity|]. now rewrite IH. Qed.

(** The patterns [filepathToRoutes] returns are the augmentation of a
    non-empty, duplicate-free list of patterns that start with a slash. *)
Lemma compiled_paths filepath baseDir :
  exists base,
    base <> [] /\ List.NoDup base
    /\ Forall (fun p => startsWith p "/" = true) base
    /\ map path (routes (filepathToRoutes filepath baseDir))
       = fold_left
           (fun acc r =>
              if ends_in_plain_param r then set_add (r +:+ "{.+}") acc else acc)
           base (set_of_list base).
Proof.
  unfold filepathToRoutes. cbv zeta.
  destruct (pop _) as [popped last].
  match goal with
  | |- context [set_of_list (map ?f ?rp)] =>
      set (raw := set_of_list (map f rp));
      assert (Hall : Forall (fun p => startsWith p "/" = true) raw);
      [ apply Forall_forall; intros p Hp;
        apply list_elem_of_In, set_of_list_In, in_map_iff in Hp;
        destruct Hp as (pp & <- & _); apply startsWith_slash
      | assert (Hnd : List.NoDup raw) by apply set_of_list_NoDup ]
  end.
  clearbody raw.
  exists (match raw with [] => ["/"] | _ => raw end).
  split; [destruct raw; discriminate|].
  split; [destruct raw; [repeat constructor; intros []|assumption]|].
  split; [destruct raw; [repeat constructor|assumption]|].
  simpl. now rewrite path_route_of.
Qed.

(** X6: whatever the file path and the base directory, the compiler
    returns at least one route, every pattern starts with a slash, and no
    pattern occurs twice. *)
Theorem compiled_routes_well_formed
    (filepath : string) (baseDir : option string) :
  routes (filepathToRoutes filepath baseDir) <> []
  /\ Forall (fun p => startsWith p "/" = true)
            (map path (routes (filepathToRoutes filepath baseDir)))
  /\ List.NoDup (map path (routes (filepathToRoutes filepath baseDir))).
Proof.
  destruct (compiled_paths filepath baseDir)
    as (base & Hne & Hnd & Hall & Hpaths).
  split; [|split].
  - intros Hnil. rewrite Hnil in Hpaths. simpl in Hpaths.
    destruct base as [|p base]; [now apply Hne|].
    assert (Hin : In p (fold_left
                          (fun acc r =>
                             if ends_in_plain_param r
                             then set_add (r +:+ "{.+}") acc else acc)
                          (p :: base) (set_of_list (p :: base)))).
    { apply widen_In. left. apply set_of_list_In. now left. }
    rewrite <- Hpaths in Hin. destruct Hin.
  - rewrite Hpaths. apply Forall_forall. intros p Hp.
    apply list_elem_of_In, widen_In in Hp.
    rewrite Forall_forall in Hall.
    destruct Hp as [Hp|(r & Hr & _ & ->)].
    + apply Hall, list_elem_of_In. now apply set_of_list_In.
    + apply startsWith_slash_app, Hall, list_elem_of_In, Hr.
  - rewrite Hpaths. apply widen_NoDup, set_of_list_NoDup.
Qed.

(** X7: tail widening. Whenever a compiled pattern ends in a plain named
    parameter, the same pattern with the rest-capture suffix is compiled
    too. *)
Theorem plain_tail_is_widened
    (filepath : string) (baseDir : option string) (p : string) :
  In p (map path (routes (filepathToRoutes filepath baseDir))) ->
  ends_in_plain_param p = true ->
  In (p +:+ "{.+}") (map path (routes (filepathToRoutes filepath baseDir))).
Proof.
  destruct (compiled_paths filepath baseDir)
    as (base & Hne & Hnd & Hall & Hpaths).
  rewrite Hpaths. intros Hin Hends.
  apply widen_In in Hin. apply widen_In. right. exists p.
  split; [|split; [assumption|reflexivity]].
  destruct Hin as [Hin|(r & _ & _ & ->)].
  - now apply set_of_list_In.
  - rewrite augmented_not_plain in Hends. discriminate Hends.
Qed.

(** A route with one dynamic segment. *)
Lemma plain_tail_is_widened_witness :
  In ("/blog/:slug" +:+ "{.+}")
     (map path (routes (filepathToRoutes "blog/[slug].ts" None))).
Proof.
  apply (plain_tail_is_widened "blog/[slug].ts" None "/blog/:slug").
  - vm_compute. left. reflexivity.
  - reflexivity.
Defined.

Lemma backslashes_to_slashes_idempotent s :
  backslashes_to_slashes (backslashes_to_slashes s) = backslashes_to_slashes s.
Proof.
  induction s as [|c s IH]; simpl; [reflexivity|]. rewrite IH.
  destruct (Ascii.eqb c "\") eqn:Hc; [reflexivity|]. now rewrite Hc.
Qed.

(** X8: a path written with backslashes compiles to the same routes as
    the path written with slashes, for the file and for the base directory
    alike. *)
Theorem backslashes_compile_alike (filepath baseDir : string) :
  filepathToRoutes (backslashes_to_slashes filepath)
                   (Some (backslashes_to_slashes baseDir))
  = filepathToRoutes filepath (Some baseDir).
Proof.
  unfold filepathToRoutes. cbv [from_option id].
  now rewrite !backslashes_to_slashes_idempotent.
Qed.

Lemma route_of_arrayParams o p :
  List.NoDup (arrayParams (route_of o p))
  /\ forall n, In n (matchAll_rest_params p) -> In n (arrayParams (route_of o p)).
Proof.
  unfold route_of. simpl. split.
  - destruct o as [t|]; [|apply set_of_list_NoDup].
    destruct (_ || _); [apply set_add_NoDup|]; apply set_of_list_NoDup.
  - intros n Hn. apply set_of_list_In in Hn.
    destruct o as [t|]; [|assumption].
    destruct (_ || _); [|assumption]. apply set_add_In. now right.
Qed.

Lemma compiled_routes_shape filepath baseDir :
  exists o l, routes (filepathToRoutes filepath baseDir) = map (route_of o) l.
Proof.
  unfold filepathToRoutes. cbv zeta.
  destruct (pop _) as [popped last]. simpl. eauto.
Qed.

Lemma app_cons a s t : String a s +:+ t = String a (s +:+ t).
Proof. reflexivity. Qed.

Lemma app_empty_r s : s +:+ "" = s.
Proof.
  induction s as [|a s IH]; [reflexivity|]. rewrite app_cons. now rewrite IH.
Qed.

Lemma len_app s t : len (s +:+ t) = (len s + len t)%nat.
Proof.
  unfold len. induction s as [|a s IH]; [reflexivity|].
  rewrite app_cons. cbn [String.length Nat.add]. now rewrite IH.
Qed.

(** A run of word characters is spanned whole. *)
Lemma span_word_word n rest :
  all_chars is_word_char n = true ->
  span_word (n +:+ rest)
  = (n +:+ fst (span_word rest), snd (span_word rest)).
Proof.
  induction n as [|a n IH]; cbn [all_chars].
  - intros _. change ("" +:+ rest) with rest.
    now destruct (span_word rest).
  - intros H. apply andb_prop in H as [Ha Hn].
    rewrite app_cons. cbn [span_word]. rewrite Ha, (IH Hn).
    reflexivity.
Qed.

(** The span of word characters stops at the latest where a character
    that is not one stands. *)
Lemma span_word_stop c tail pre : forall w r,
  is_word_char c = false ->
  span_word (pre +:+ String c tail) = (w, r) ->
  exists p0, pre = w +:+ p0 /\ r = p0 +:+ String c tail.
Proof.
  induction pre as [|a pre IH]; intros w r Hc.
  - change ("" +:+ String c tail) with (String c tail).
    cbn [span_word]. rewrite Hc. intros H. injection H as <- <-.
    now exists "".
  - rewrite app_cons. cbn [span_word].
    destruct (is_word_char a).
    + destruct (span_word (pre +:+ String c tail)) as [w' r'] eqn:Hs.
      intros H. injection H as <- <-.
      destruct (IH w' r' Hc eq_refl) as (p0 & -> & ->).
      now exists p0.
    + intros H. injection H as <- <-. now exists (String a pre).
Qed.

(** The suffix [{.+}] cannot straddle a colon. *)
Lemma rest_suffix_before_colon p0 x :
  startsWith (p0 +:+ String ":" x) "{.+}" = true ->
  exists p1, p0 = "{.+}" +:+ p1.
Proof.
  unfold startsWith.
  destruct p0 as [|a [|b [|c [|d p1]]]];
    rewrite ?app_cons; change ("" +:+ String ":" x) with (String ":" x);
    cbn -[ascii_dec];
    repeat match goal with
           | |- context [ascii_dec ?u ?v] =>
               destruct (ascii_dec u v) as [e|ne];
               [try discriminate e; try subst|try discriminate]
           end;
    try discriminate.
  intros _. now exists p1.
Qed.

(** Every occurrence of a colon, a name and the suffix [{.+}] in a
    pattern is found by the scan for rest captures, which yields its name. *)
Lemma rest_params_occurrence n post : forall fuel s pre,
  nonempty n = true ->
  all_chars is_word_char n = true ->
  (len s < fuel)%nat ->
  s = pre +:+ String ":" (n +:+ "{.+}" +:+ post) ->
  In n (rest_params fuel s).
Proof.
  induction fuel as [|fuel IH]; intros s pre Hne Hword Hlen ->; [lia|].
  cbn [rest_params].
  destruct pre as [|c pre].
  - change ("" +:+ String ":" (n +:+ "{.+}" +:+ post))
      with (String ":" (n +:+ "{.+}" +:+ post)).
    cbn [rest_param_here]. cbn [Ascii.eqb Bool.eqb andb].
    rewrite (span_word_word n ("{.+}" +:+ post) Hword).
    change (span_word ("{.+}" +:+ post)) with ("", "{.+}" +:+ post).
    cbn [fst snd]. rewrite app_empty_r, Hne.
    change (startsWith ("{.+}" +:+ post) "{.+}")
      with (startsWith post ""). unfold startsWith. rewrite prefix_empty.
    now left.
  - rewrite app_cons. rewrite len_app in Hlen.
    change (len (String c pre)) with (S (len pre)) in Hlen.
    set (tail := String ":" (n +:+ "{.+}" +:+ post)) in *.
    assert (Hskip : In n (rest_params fuel (pre +:+ tail))).
    { apply (IH (pre +:+ tail) pre Hne Hword);
        [rewrite len_app; lia|reflexivity]. }
    cbn [rest_param_here].
    destruct (Ascii.eqb c ":"); [|exact Hskip].
    destruct (span_word (pre +:+ tail)) as [w r0] eqn:Hs.
    destruct (nonempty w && startsWith r0 "{.+}") eqn:Hm; [|exact Hskip].
    right. apply andb_prop in Hm as [_ Hstart].
    destruct (span_word_stop ":" _ pre w r0 eq_refl Hs) as (p0 & -> & ->).
    destruct (rest_suffix_before_colon p0 _ Hstart) as (p1 & ->).
    change (drop_str 4 (("{.+}" +:+ p1) +:+ tail)) with (p1 +:+ tail).
    apply (IH (p1 +:+ tail) p1 Hne Hword); [|reflexivity].
    rewrite !len_app in Hlen. rewrite len_app. lia.
Qed.

(** X9: the array parameters of a compiled route name no parameter
    twice, and they include the name of every rest capture of its pattern:
    wherever the pattern holds a colon, a name made of word characters and
    the suffix [{.+}], that name is an array parameter. *)
Theorem rest_captures_are_array_params
    (filepath : string) (baseDir : option string) (r : Route)
    (pre n post : string) :
  In r (routes (filepathToRoutes filepath baseDir)) ->
  path r = pre +:+ ":" +:+ n +:+ "{.+}" +:+ post ->
  nonempty n = true ->
  all_chars is_word_char n = true ->
  List.NoDup (arrayParams r) /\ In n (arrayParams r).
Proof.
  destruct (compiled_routes_shape filepath baseDir) as (o & l & ->).
  intros Hin Hpath Hne Hword. apply in_map_iff in Hin as (p & <- & _).
  destruct (route_of_arrayParams o p) as [Hnd Hall].
  split; [exact Hnd|]. apply Hall. unfold matchAll_rest_params.
  apply (rest_params_occurrence n post _ _ pre Hne Hword); [lia|].
  exact Hpath.
Qed.

(** The catch-all route. *)
Lemma rest_captures_are_array_params_witness :
  List.NoDup (arrayParams (mkRoute "/catchall/:rest{.+}" ["rest"]))
  /\ In "rest" (arrayParams (mkRoute "/catchall/:rest{.+}" ["rest"])).
Proof.
  apply (rest_captures_are_array_params "catchall/[...rest]" None
           (mkRoute "/catchall/:rest{.+}" ["rest"]) "/catchall/" "rest" "").
  - vm_compute. left. reflexivity.
  - reflexivity.
  - reflexivity.
  - reflexivity.
Defined.

End PathMore.

(** ** More on the chain composer *)

Module ChainMore.
Import JsString Js Http Hono Reconciler Chain ChainTrace RunVocabulary Samples.

Lemma filter_enter_violations k :
  List.filter is_enter (replicate k Violation) = []
  /\ List.filter is_final (replicate k Violation) = []
  /\ ~ In CallFinal (replicate k Violation).
Proof.
  induction k as [|k (He & Hf & Hin)]; simpl; [tauto|].
  repeat split; try assumption. intros [H|H]; [discriminate H|tauto].
Qed.

Lemma violations_split k pre post :
  replicate k Violation <> pre ++ CallFinal :: post.
Proof.
  intros H. destruct (filter_enter_violations k) as (_ & _ & Hin).
  apply Hin. rewrite H. apply in_or_app. right. now left.
Qed.

Lemma shape_entered i n es :
  shape i n es ->
  exists m, (m <= n)%nat
            /\ List.filter is_enter es = enters i m
            /\ (length (List.filter is_final es) <= 1)%nat
            /\ (forall pre post,
                  es = pre ++ CallFinal :: post ->
                  List.filter is_enter pre = enters i n
                  /\ List.filter is_enter post = []).
Proof.
  induction 1 as [i n es _ (m & Hm & He & Hf & Hsplit) | i n k | i k].
  - exists (S m). split; [lia|]. split; [simpl; now rewrite He|].
    split; [exact Hf|].
    intros [|e pre] post Heq; [discriminate Heq|].
    injection Heq as <- Heq. destruct (Hsplit pre post Heq) as [Hpre Hpost].
    split; [simpl; now rewrite Hpre|exact Hpost].
  - destruct (filter_enter_violations k) as (He & Hf & Hin).
    exists 0%nat. rewrite He, Hf. split; [lia|]. split; [reflexivity|].
    split; [simpl; lia|]. intros pre post Heq.
    now apply violations_split in Heq.
  - destruct (filter_enter_violations k) as (He & Hf & Hin).
    exists 0%nat. simpl. rewrite He, Hf. split; [lia|].
    split; [reflexivity|]. split; [simpl; lia|].
    intros [|e pre] post Heq.
    + injection Heq as <-. split; [reflexivity|exact He].
    + injection Heq as _ Heq. now apply violations_split in Heq.
Qed.

(** X10: in every run of a chain, whatever its handlers do, the positions
    entered are 0, 1, ..., m-1 for some m, each once and in this order; the
    final continuation is invoked at most once, and only after all the
    handlers have been entered: the events before its invocation enter
    every position of the chain, and the events after it enter none. *)
Theorem handlers_run_once_in_order
    (exported : Exported) (ctx : CfContext)
    (finalNext : option (M JsValue)) (w : World) :
  exists m,
    (m <= length (chain_of exported))%nat
    /\ List.filter is_enter
         (events (snd (composeCFChain exported ctx finalNext w)))
       = enters 0 m
    /\ (length (List.filter is_final
                  (events (snd (composeCFChain exported ctx finalNext w))))
        <= 1)%nat
    /\ (forall pre post,
          events (snd (composeCFChain exported ctx finalNext w))
          = pre ++ CallFinal :: post ->
          List.filter is_enter pre = enters 0 (length (chain_of exported))
          /\ List.filter is_enter post = []).
Proof. apply shape_entered, ChainFacts.run_shape. Qed.

Lemma exec_direct sn p o :
  direct p o ->
  forall called st,
    exec sn p called st
    = (o, mkRunState (idx st) (events st) (settle p (world st)), called).
Proof.
  induction 1 as [v | e | f k o _ IH | k o _ IH]; intros called st; simpl.
  - now destruct st.
  - now destruct st.
  - now rewrite IH.
  - now rewrite IH.
Qed.

Lemma runAt_short_circuit finalNext ctx h post o pre :
  direct (fn h ctx) o ->
  o <> Returned VUndefined ->
  forall i st,
    idx st < i ->
    Forall (fun h => quiet (fn h ctx)) pre ->
    runAt finalNext (pre ++ h :: post) i ctx st
    = (o, mkRunState (i + Z.of_nat (length pre))
                     (events st ++ enters i (S (length pre)))
                     (settle (fn h ctx) (settle_all ctx pre (world st)))).
Proof.
  intros Hd Ho. induction pre as [|q pre IH]; intros i st Hlt Hq.
  - simpl app. rewrite ChainFacts.runAt_cons.
    destruct (i <=? idx st) eqn:Hle; [apply Z.leb_le in Hle; lia|].
    rewrite (exec_direct _ _ _ Hd). simpl. rewrite Z.add_0_r.
    destruct o as [v|e]; [|reflexivity].
    destruct (is_Response v); [reflexivity|].
    destruct v; try reflexivity. now contradiction Ho.
  - inversion Hq as [|q' pre' Hh Hrest]; subst.
    simpl app. rewrite ChainFacts.runAt_cons.
    destruct (i <=? idx st) eqn:Hle; [apply Z.leb_le in Hle; lia|].
    rewrite ChainFacts.exec_quiet by exact Hh. simpl.
    rewrite IH; [|simpl; lia|exact Hrest]. simpl.
    replace (i + 1 + Z.of_nat (length pre))
      with (i + Z.pos (Pos.of_succ_nat (length pre))) by lia.
    now rewrite <- app_assoc.
Qed.

(** X11: short circuit. When the handlers before position [k] return
    nothing without reaching for their continuation, and the handler at [k]
    returns a value or throws without reaching for it either, the run
    resolves to that value or error; the positions 0, ..., k are entered,
    no later handler is, and the final continuation is not invoked. *)
Theorem chain_short_circuits
    (exported : Exported) (ctx : CfContext) (finalNext : option (M JsValue))
    (w : World) (pre post : list Handler) (h : Handler)
    (o : Completion JsValue) :
  chain_of exported = pre ++ h :: post ->
  Forall (fun h => quiet (fn h ctx)) pre ->
  direct (fn h ctx) o ->
  o <> Returned VUndefined ->
  composeCFChain exported ctx finalNext w
  = (o, mkRunState (Z.of_nat (length pre))
                   (enters 0 (S (length pre)))
                   (settle (fn h ctx) (settle_all ctx pre w))).
Proof.
  intros Hchain Hq Hd Ho. unfold composeCFChain. rewrite Hchain.
  rewrite (runAt_short_circuit finalNext ctx h post o pre Hd Ho);
    [reflexivity|simpl; lia|exact Hq].
Qed.

(** A handler that marks the store, one that returns ["x"], and one that
    is never reached. *)
Lemma chain_short_circuits_witness :
  composeCFChain (Sequence [Callable marks_seen; Callable returns_x;
                            Callable calls_twice])
                 root_ctx (Some final_204) empty_world
  = (Returned (VString "x"),
     mkRunState 1 [Enter 0; Enter 1]
                (settle (fn returns_x root_ctx)
                        (settle_all root_ctx [marks_seen] empty_world))).
Proof.
  apply (chain_short_circuits
           (Sequence [Callable marks_seen; Callable returns_x;
                      Callable calls_twice])
           root_ctx (Some final_204) empty_world
           [marks_seen] [calls_twice] returns_x (Returned (VString "x"))).
  - reflexivity.
  - repeat constructor.
  - constructor.
  - discriminate.
Defined.

End ChainMore.

(** ** More on normalization, cloning and the shared response *)

Module ReconcilerMore.
Import JsString Js Http Hono Reconciler JsonVocabulary HeaderVocabulary Samples.

(** [JSON.stringify] raises on a BigInt only. *)
Lemma stringify_total : forall v,
  bigint_free v = true -> exists o, stringify v = Returned o.
Proof.
  fix IH 1. intros [| |b|n|n|s|d|src|ref|ref|h|props|items] Hfree;
    try (eexists; reflexivity); try discriminate Hfree.
  - assert (Hm : exists ms,
               (fix go (l : list (string * JsValue)) : Completion (list string) :=
                  match l with
                  | [] => Returned []
                  | (k, x) :: l' =>
                      try! sx := stringify x in
                      try! rest := go l' in
                      Returned match sx with
                               | Some t => (json_quote k +:+ ":" +:+ t) :: rest
                               | None => rest
                               end
                  end) props = Returned ms).
    { simpl in Hfree. induction props as [|[k x] props IHp].
      - eexists. reflexivity.
      - apply andb_prop in Hfree as [Hx Hrest].
        destruct (IH x Hx) as (o & Ho). destruct (IHp Hrest) as (ms & Hms).
        rewrite Ho, Hms. simpl. eauto. }
    destruct Hm as (ms & Hms). cbn [stringify]. rewrite Hms. simpl. eauto.
  - assert (Hm : exists ms,
               (fix go (l : list JsValue) : Completion (list string) :=
                  match l with
                  | [] => Returned []
                  | x :: l' =>
                      try! sx := stringify x in
                      try! rest := go l' in
                      Returned (default "null" sx :: rest)
                  end) items = Returned ms).
    { simpl in Hfree. induction items as [|x items IHp].
      - eexists. reflexivity.
      - apply andb_prop in Hfree as [Hx Hrest].
        destruct (IH x Hx) as (o & Ho). destruct (IHp Hrest) as (ms & Hms).
        rewrite Ho, Hms. simpl. eauto. }
    destruct Hm as (ms & Hms). cbn [stringify]. rewrite Hms. simpl. eauto.
Qed.

(** A plain object or an array never serializes to [undefined]. *)
Lemma stringify_plain v o :
  match v with VObject _ | VArray _ => True | _ => False end ->
  stringify v = Returned o -> exists t, o = Some t.
Proof.
  destruct v; try contradiction; intros _ H; cbn [stringify] in H;
    unfold bindC in H;
    match type of H with
    | match ?c with _ => _ end = _ => destruct c; [|discriminate H]
    end;
    injection H as <-; eauto.
Qed.

(** X12: a plain object or an array of data always normalizes. When
    the value is a finite tree of own data properties (as every value of
    [JsValue] is: it has no cycle) that holds, at any depth, no BigInt and
    no function, so that [JSON.stringify] finds no [toJSON] method to call,
    [toMutableResponse] returns a new response for it and does not raise. *)
Theorem plain_data_normalizes (w : World) (res : JsValue) :
  match res with VObject _ | VArray _ => True | _ => False end ->
  bigint_free res = true ->
  function_free res = true ->
  exists out,
    toMutableResponse res w
    = (Returned (next_ref w),
       mkWorld (vars w) (<[next_ref w := out]> (responses w))
               (c_res w) (S (next_ref w))).
Proof.
  intros Hplain Hfree _.
  destruct (stringify_total res Hfree) as (o & Ho).
  destruct (stringify_plain res o Hplain Ho) as (t & ->).
  assert (Hout : exists out, normalized w res = Returned out).
  { destruct res; try contradiction;
      match type of Ho with
      | stringify ?v = _ =>
          destruct (ReconcilerFacts.normalized_object v t eq_refl eq_refl
                      ltac:(discriminate) Ho w) as (out & Hout & _); eauto
      end. }
  destruct Hout as (out & Hout). exists out.
  unfold toMutableResponse, bind, lift. now rewrite Hout.
Qed.

(** An object with nested data and a symbol-valued property. *)
Lemma plain_data_normalizes_witness :
  exists out,
    toMutableResponse
      (VObject [("items", VArray [VNumber 1; VNull; VString "a"]);
                ("tag", VSymbol "t")])
      empty_world
    = (Returned (next_ref empty_world),
       mkWorld (vars empty_world)
               (<[next_ref empty_world := out]> (responses empty_world))
               (c_res empty_world) (S (next_ref empty_world))).
Proof.
  apply (plain_data_normalizes empty_world
           (VObject [("items", VArray [VNumber 1; VNull; VString "a"]);
                     ("tag", VSymbol "t")])).
  - exact I.
  - reflexivity.
  - reflexivity.
Defined.

(** X13: normalizing a response copies it. The result is a new object
    with the status, status text, body and headers of the source; the source
    is left as it was, and a header set on either of the two afterwards is
    not seen through the other. *)
Theorem normalized_copy_does_not_alias
    (w : World) (ref : nat) (r : Response) (name value : string) :
  responses w !! ref = Some r ->
  intact r = true ->
  ref <> next_ref w ->
  exists w',
    toMutableResponse (VResponse ref) w = (Returned (next_ref w), w')
    /\ responses w' !! next_ref w
       = Some (mkResponse (status r) (statusText r) (body r) false (headers r))
    /\ responses w' !! ref = Some r
    /\ get_header ref name (set_header (next_ref w) name value w')
       = headers_get (headers r) name
    /\ get_header (next_ref w) name (set_header ref name value w')
       = headers_get (headers r) name.
Proof.
  intros Hr Hintact Hne. eexists.
  split.
  { unfold toMutableResponse, bind, lift, normalized. rewrite Hr.
    rewrite ReconcilerFacts.new_Response_intact by exact Hintact.
    reflexivity. }
  simpl. split; [apply lookup_insert_eq|].
  split; [now rewrite lookup_insert_ne by congruence|].
  unfold get_header, set_header. simpl. split.
  - rewrite lookup_alter_ne by congruence.
    rewrite lookup_insert_ne by congruence. now rewrite Hr.
  - rewrite lookup_alter_ne by congruence.
    now rewrite lookup_insert_eq.
Qed.

(** The response a middleware materialized, normalized once more. *)
Lemma normalized_copy_does_not_alias_witness :
  exists w',
    toMutableResponse (VResponse 0) world_after_middleware
    = (Returned (next_ref world_after_middleware), w')
    /\ responses w' !! next_ref world_after_middleware
       = Some (mkResponse (status created_response)
                          (statusText created_response)
                          (body created_response) false
                          (headers created_response))
    /\ responses w' !! 0%nat = Some created_response
    /\ get_header 0 "X-Late"
         (set_header (next_ref world_after_middleware) "X-Late" "1" w')
       = headers_get (headers created_response) "X-Late"
    /\ get_header (next_ref world_after_middleware) "X-Late"
         (set_header 0 "X-Late" "1" w')
       = headers_get (headers created_response) "X-Late".
Proof.
  apply (normalized_copy_does_not_alias world_after_middleware 0
           created_response "X-Late" "1").
  - vm_compute. reflexivity.
  - reflexivity.
  - vm_compute. discriminate.
Defined.

(** What the entries of [extra] do to a header collection. *)
Lemma set_entries_untouched extra : forall h h' name,
  set_entries h extra = Returned h' ->
  (forall k v, In (k, v) extra -> field_name k <> field_name name) ->
  headers_get h' name = headers_get h name.
Proof.
  induction extra as [|[k v] extra IH]; intros h h' name Hset Hnot;
    simpl in Hset.
  - now injection Hset as <-.
  - destruct (toString v) as [s|e]; [|discriminate Hset]. simpl in Hset.
    rewrite (IH _ _ name Hset) by (intros; eapply Hnot; right; eauto).
    unfold headers_get, headers_set. apply lookup_insert_ne.
    apply (Hnot k v). now left.
Qed.

Lemma set_entries_last pre : forall h h' k v s,
  set_entries h (pre ++ [(k, v)]) = Returned h' ->
  toString v = Returned s ->
  headers_get h' k = Some s.
Proof.
  induction pre as [|[k0 v0] pre IH]; intros h h' k v s Hset Hs;
    simpl in Hset.
  - rewrite Hs in Hset. simpl in Hset. injection Hset as <-.
    unfold headers_get, headers_set. apply lookup_insert_eq.
  - destruct (toString v0) as [s0|e]; [|discriminate Hset]. simpl in Hset.
    eapply IH; eauto.
Qed.

(** X14: [cloneWithExtraHeaders] of an intact response, with extra
    entries that [headers.set] takes as they are (valid field names, and
    valid field values with no white space around them), returns a new
    object with the status, status text and body of the source and leaves
    the source as it was. Every field that [extra] does not name, whatever
    the case of the letters, has the value it has on the source (so with no
    extra at all the headers are the same), and the field named by the last
    entry of [extra] has the value of that entry. *)
Theorem clone_overlays_extra
    (w : World) (ref : nat) (r : Response)
    (extra : list (string * JsValue)) (h' : Headers) :
  responses w !! ref = Some r ->
  intact r = true ->
  ref <> next_ref w ->
  forallb settable extra = true ->
  set_entries (headers r) extra = Returned h' ->
  cloneWithExtraHeaders (VResponse ref) extra w
  = (Returned (next_ref w),
     mkWorld (vars w)
             (<[next_ref w :=
                  mkResponse (status r) (statusText r) (body r) false h']>
                (responses w))
             (c_res w) (S (next_ref w)))
  /\ (<[next_ref w :=
          mkResponse (status r) (statusText r) (body r) false h']>
        (responses w)) !! ref = Some r
  /\ (forall name,
        (forall k v, In (k, v) extra -> field_name k <> field_name name) ->
        headers_get h' name = headers_get (headers r) name)
  /\ (forall pre k v s,
        extra = pre ++ [(k, v)] -> toString v = Returned s ->
        headers_get h' k = Some s).
Proof.
  intros Hr Hintact Hne _ Hset. split; [|split; [|split]].
  - unfold cloneWithExtraHeaders, bind, lift, clone_of. rewrite Hr, Hset.
    simpl. now rewrite ReconcilerFacts.new_Response_intact.
  - now rewrite lookup_insert_ne by congruence.
  - intros name Hnot. eapply set_entries_untouched; eauto.
  - intros pre k v s -> Hs. eapply set_entries_last; eauto.
Qed.

(** The copy the global wrapper returns: the trace id as extra header. *)
Lemma clone_overlays_extra_witness :
  cloneWithExtraHeaders (VResponse 0) [("X-Trace-Id", VString "lngz8vk5")]
                        world_after_middleware
  = (Returned 1%nat,
     mkWorld (vars world_after_middleware)
             (<[1%nat :=
                  mkResponse 201 "" (Some "hi") false
                    (headers_set (headers created_response)
                                 "X-Trace-Id" "lngz8vk5")]>
                (responses world_after_middleware))
             (c_res world_after_middleware) 2%nat).
Proof.
  destruct (clone_overlays_extra world_after_middleware 0 created_response
              [("X-Trace-Id", VString "lngz8vk5")]
              (headers_set (headers created_response)
                           "X-Trace-Id" "lngz8vk5")) as (Hclone & _).
  - vm_compute. reflexivity.
  - reflexivity.
  - vm_compute. discriminate.
  - vm_compute. reflexivity.
  - reflexivity.
  - exact Hclone.
Defined.

(** X15: a retrieval that finds the store slot empty either returns a
    reference to a live response, which is then what the slot holds, or
    fails; and when it fails it has stored nothing: the store is as
    downstream left it. *)
Theorem fresh_retrieval_stores_or_fails (next : M JsValue) (w : World) :
  truthy (c_get KEY_SHARED w) = false ->
  match getSharedMutableResponse next w with
  | (Returned v, w2) =>
      exists ref, v = VResponse ref
                  /\ is_Some (responses w2 !! ref)
                  /\ c_get KEY_SHARED w2 = v
  | (Raised e, w2) => vars w2 = vars (snd (next w))
  end.
Proof.
  intros Hslot. unfold getSharedMutableResponse. rewrite Hslot.
  unfold bind at 1. destruct (next w) as [[d|e] w1]; [|reflexivity].
  unfold bind, toMutableResponse, lift.
  destruct (normalized w1 _) as [out|e]; [|reflexivity].
  simpl. eexists. split; [reflexivity|].
  split; [rewrite lookup_insert_eq; eauto|].
  apply ReconcilerFacts.c_get_c_set.
Qed.

(** A first retrieval whose downstream resolves to a response-shaped
    object. *)
Lemma fresh_retrieval_stores_or_fails_witness :
  exists ref,
    VResponse 0 = VResponse ref
    /\ is_Some (responses
                  (snd (getSharedMutableResponse next_returns_created
                                                 empty_world)) !! ref)
    /\ c_get KEY_SHARED
         (snd (getSharedMutableResponse next_returns_created empty_world))
       = VResponse 0.
Proof.
  exact (fresh_retrieval_stores_or_fails next_returns_created empty_world
           eq_refl).
Defined.

End ReconcilerMore.

(** ** The shared store and the handler context *)

Module PlumbingFacts.
Import JsString Js Http Hono Reconciler Chain ChainTrace Plumbing
       PlumbingVocabulary Samples.

(** X16: the shared store seen through its methods. Deleting a key stores
    [undefined] under it: the key is then reported absent and reads as
    [undefined], yet it is still bound in the context store; other keys are
    left alone. A value that was set is what is read back, and a key is
    reported present exactly when the value set is not [undefined]. *)
Theorem shared_delete_is_set_undefined
    (x y : string) (v : JsValue) (w : World) :
  locals_has x (locals_delete x w) = false
  /\ locals_get x (locals_delete x w) = VUndefined
  /\ vars (locals_delete x w) !! x = Some VUndefined
  /\ (x <> y -> locals_get y (locals_delete x w) = locals_get y w)
  /\ locals_get x (locals_set x v w) = v
  /\ locals_has x (locals_set x v w) = negb (is_undefined v)
  /\ (x <> y -> locals_get y (locals_set x v w) = locals_get y w).
Proof.
  unfold locals_has, locals_get, locals_delete, locals_set, c_get, c_set.
  simpl. rewrite !lookup_insert_eq. simpl.
  repeat split; try reflexivity; intros Hne; now rewrite lookup_insert_ne.
Qed.

(** X17: a property of the proxy named like one of its four methods always
    reads as that method, even after a value was assigned to it; the value
    is in the store all the same and the method [get] returns it. Under any
    other string key an assigned value is what the property reads as, and
    assigning under a symbol does nothing. *)
Theorem proxy_methods_shadow_keys
    (name description : string) (v : JsValue) (w : World) :
  proxy_get (KString name) (proxy_set (KString name) v w)
  = (if is_method_name name then Method name else Value v)
  /\ locals_get name (proxy_set (KString name) v w) = v
  /\ proxy_set (KSymbol description) v w = w
  /\ proxy_get (KSymbol description) w = Value VUndefined.
Proof.
  unfold proxy_get, proxy_set, locals_get.
  rewrite ReconcilerFacts.c_get_c_set. now destruct (is_method_name name).
Qed.

Lemma prop_assign_eq ps k v : prop (assign ps k v) k = v.
Proof.
  induction ps as [|[k0 x] ps IH]; simpl.
  - now rewrite String.eqb_refl.
  - destruct (String.eqb k0 k) eqn:Hk; simpl; now rewrite Hk.
Qed.

Lemma prop_assign_ne ps k v k' :
  k <> k' -> prop (assign ps k v) k' = prop ps k'.
Proof.
  intros Hne. induction ps as [|[k0 x] ps IH]; simpl.
  - apply String.eqb_neq in Hne. now rewrite Hne.
  - destruct (String.eqb k0 k) eqn:Hk; simpl.
    + apply String.eqb_eq in Hk. subst k0.
      apply String.eqb_neq in Hne. now rewrite Hne.
    + now rewrite IH.
Qed.

Lemma has_prop_assign_eq ps k v : has_prop (assign ps k v) k = true.
Proof.
  unfold has_prop. induction ps as [|[k0 x] ps IH]; simpl.
  - now rewrite String.eqb_refl.
  - destruct (String.eqb k0 k) eqn:Hk; simpl; rewrite Hk; [reflexivity|].
    exact IH.
Qed.

Lemma has_prop_assign_ne ps k v k' :
  k <> k' -> has_prop (assign ps k v) k' = has_prop ps k'.
Proof.
  intros Hne. unfold has_prop. induction ps as [|[k0 x] ps IH]; simpl.
  - apply String.eqb_neq in Hne. now rewrite Hne.
  - destruct (String.eqb k0 k) eqn:Hk; simpl; [reflexivity|]. now rewrite IH.
Qed.

Lemma lookup_param_assign_eq ps k v : lookup_param (assign ps k v) k = v.
Proof.
  unfold lookup_param. now rewrite has_prop_assign_eq, prop_assign_eq.
Qed.

Lemma lookup_param_assign_ne ps k v k' :
  k <> k' -> lookup_param (assign ps k v) k' = lookup_param ps k'.
Proof.
  intros Hne. unfold lookup_param.
  now rewrite has_prop_assign_ne, prop_assign_ne.
Qed.

(** One round of the loop, seen from the name it handles and from any
    other name. *)
Lemma resolve_param_same ps a :
  prop (resolve_param ps a) a = resolved_value ps a
  /\ resolved_value (resolve_param ps a) a = resolved_value ps a.
Proof.
  unfold resolve_param, resolved_value.
  destruct (lookup_param ps a) eqn:Hl;
    rewrite ?prop_assign_eq, ?lookup_param_assign_eq, ?Hl; auto.
Qed.

Lemma resolve_param_other ps a name :
  a <> name ->
  prop (resolve_param ps a) name = prop ps name
  /\ resolved_value (resolve_param ps a) name = resolved_value ps name.
Proof.
  intros Hne. unfold resolve_param, resolved_value.
  destruct (lookup_param ps a) eqn:Hl;
    rewrite ?prop_assign_ne, ?lookup_param_assign_ne by exact Hne; auto.
Qed.

Lemma fold_resolve_param ap : forall ps name,
  prop (fold_left resolve_param ap ps) name
  = if includes ap name then resolved_value ps name else prop ps name.
Proof.
  induction ap as [|a ap IH]; intros ps name; [reflexivity|].
  simpl fold_left. rewrite IH. unfold includes. simpl.
  destruct (String.eqb name a) eqn:Heq.
  - apply String.eqb_eq in Heq. subst a. simpl.
    destruct (resolve_param_same ps name) as [Hp Hr].
    rewrite Hp, Hr. now destruct (existsb _ ap).
  - apply String.eqb_neq in Heq.
    destruct (resolve_param_other ps a name) as [Hp Hr]; [congruence|].
    rewrite Hp, Hr. reflexivity.
Qed.

(** X18: the parameters of the handler context. A name that is not an
    array parameter keeps the value the router gave it. For an array
    parameter, a string becomes the array of its segments, an absent, null
    or undefined parameter becomes the empty array, and an array (or any
    other value, such as a member inherited from [Object.prototype]) is left
    as it is. *)
Theorem context_params_resolved
    (c : HonoInput) (arrayParams : list string) (random36 name : string)
    (w : World) :
  exists ps,
    params (fst (makeCFContext c arrayParams random36 w)) = VObject ps
    /\ prop ps name
       = if includes arrayParams name
         then match lookup_param (req_param c) name with
              | VString s => VArray (map VString (segments s))
              | VUndefined | VNull => VArray []
              | _ => prop (req_param c) name
              end
         else prop (req_param c) name.
Proof.
  eexists. split; [reflexivity|]. apply fold_resolve_param.
Qed.

Lemma split_on_no_sep c s :
  Forall (fun piece => all_chars (fun a => negb (Ascii.eqb a c)) piece = true)
         (split_on c s).
Proof.
  induction s as [|a s IH]; simpl; [repeat constructor|].
  destruct (Ascii.eqb a c) eqn:Hac.
  - constructor; [reflexivity|exact IH].
  - destruct (split_on c s) as [|piece rest]; [repeat constructor; simpl; now rewrite Hac|].
    inversion IH as [|p r Hp Hr]; subst.
    constructor; [simpl; now rewrite Hac, Hp|exact Hr].
Qed.

(** X19: the segments a string parameter is split into are never empty
    and never contain a slash. *)
Theorem segments_are_clean (s piece : string) :
  In piece (segments s) ->
  nonempty piece = true
  /\ all_chars (fun a => negb (Ascii.eqb a "/")) piece = true.
Proof.
  unfold segments. intros Hin.
  apply list_elem_of_In, list_elem_of_filter in Hin as [Hne Hin].
  split; [now apply Is_true_true|].
  pose proof (split_on_no_sep "/" s) as Hall.
  rewrite Forall_forall in Hall. now apply Hall.
Qed.

(** A path with a doubled and a trailing slash. *)
Lemma segments_are_clean_witness :
  nonempty "intro" = true
  /\ all_chars (fun a => negb (Ascii.eqb a "/")) "intro" = true.
Proof.
  apply (segments_are_clean "guide//intro/" "intro").
  vm_compute. right. left. reflexivity.
Defined.

(** X20: once the store holds a trace id, building a context leaves the
    world as it is. So the id in the store after the first context was
    built (the one found there, or a generated one that is not empty) is the
    id every later context of the request sees. *)
Theorem context_keeps_trace_id
    (c1 c2 : HonoInput) (ap1 ap2 : list string) (r1 r2 : string) (w : World) :
  truthy (c_get KEY_TRACE w) = true \/ nonempty (randId r1) = true ->
  c_get KEY_TRACE (snd (makeCFContext c1 ap1 r1 w)) = trace_of r1 w
  /\ snd (makeCFContext c2 ap2 r2 (snd (makeCFContext c1 ap1 r1 w)))
     = snd (makeCFContext c1 ap1 r1 w)
  /\ (truthy (c_get KEY_TRACE w) = true
      -> snd (makeCFContext c1 ap1 r1 w) = w).
Proof.
  intros H. unfold makeCFContext, trace_of. cbn [snd].
  destruct (truthy (c_get KEY_TRACE w)) eqn:Ht.
  - rewrite Ht. repeat split.
  - destruct H as [H|H]; [discriminate|].
    rewrite ReconcilerFacts.c_get_c_set. cbn [truthy]. rewrite H.
    repeat split. discriminate.
Qed.

(** A request without a trace id, and a draw of [Math.random()]. *)
Lemma context_keeps_trace_id_witness :
  c_get KEY_TRACE (snd (makeCFContext docs_request ["section"] "0.k3f9x2ab7" empty_world))
  = trace_of "0.k3f9x2ab7" empty_world
  /\ snd (makeCFContext docs_request [] "0.zzzzzzzzz"
            (snd (makeCFContext docs_request ["section"] "0.k3f9x2ab7" empty_world)))
     = snd (makeCFContext docs_request ["section"] "0.k3f9x2ab7" empty_world)
  /\ (truthy (c_get KEY_TRACE empty_world) = true
      -> snd (makeCFContext docs_request ["section"] "0.k3f9x2ab7" empty_world)
         = empty_world).
Proof.
  apply (context_keeps_trace_id docs_request docs_request ["section"] []
           "0.k3f9x2ab7" "0.zzzzzzzzz" empty_world).
  right. reflexivity.
Defined.

(** X21: a replacement request handed to a continuation, when it is not
    the context's own request, reaches the next handler context built for
    the same Hono context: that context's [request] is the copy that was
    stored, a newly numbered object, whatever request the router holds.
    Storing the copy leaves the responses as they were. *)
Theorem override_reaches_next_context
    (ctx : CfContext) (ref : nat) (c : HonoInput) (arrayParams : list string)
    (random36 : string) (w : World) :
  request ctx <> VRequest ref ->
  request (fst (makeCFContext c arrayParams random36
                  (store_override ctx (Some ref) w)))
  = VRequest (next_ref w)
  /\ next_ref (store_override ctx (Some ref) w) = S (next_ref w)
  /\ responses (store_override ctx (Some ref) w) = responses w.
Proof.
  intros Hne. unfold store_override.
  assert (match request ctx with
          | VRequest own => negb (ref =? own)%nat
          | _ => true
          end = true) as ->.
  { destruct (request ctx) eqn:Hr; try reflexivity.
    apply negb_true_iff, Nat.eqb_neq. congruence. }
  unfold makeCFContext. cbn [fst request]. unfold c_get. cbn [vars].
  rewrite lookup_insert_eq. repeat split.
Qed.

(** A handler of the root context passes on the request object [7]. *)
Lemma override_reaches_next_context_witness :
  request (fst (makeCFContext docs_request [] "0.k3f9x2ab7"
                  (store_override root_ctx (Some 7%nat) empty_world)))
  = VRequest (next_ref empty_world)
  /\ next_ref (store_override root_ctx (Some 7%nat) empty_world)
     = S (next_ref empty_world)
  /\ responses (store_override root_ctx (Some 7%nat) empty_world)
     = responses empty_world.
Proof.
  apply (override_reaches_next_context root_ctx 7%nat docs_request []
           "0.k3f9x2ab7" empty_world).
  discriminate.
Defined.

End PlumbingFacts.

(** ** Route handlers *)

Module WrappersFacts.
Import JsString Js Http Hono Reconciler Chain ChainTrace Plumbing
       PlumbingVocabulary Wrappers Samples.

(** X22: whatever a route handler returns is a [Response]; a chain
    result of any other kind is either turned into one or the handler
    throws. *)
Theorem route_handler_returns_response
    (exported : Exported) (arrayParams : list string) (c : HonoInput)
    (random36 random36' : string) (w : World) (v : JsValue) :
  fst (makeRouteHandler exported arrayParams c random36 random36' w)
  = Returned v ->
  is_Response v = true.
Proof.
  unfold makeRouteHandler.
  destruct (makeCFContext _ _ _ _) as [cfCtx w1].
  destruct (composeCFChain _ _ _ _) as [[raw|e] st]; [|discriminate].
  destruct (is_Response raw) eqn:Hresp.
  - cbn [fst]. intros H. injection H as <-. exact Hresp.
  - destruct (is_undefined raw).
    + unfold bind, lift, alloc, ret.
      destruct (new_Response _ _ _ _); cbn [fst]; [|discriminate].
      intros H. injection H as <-. reflexivity.
    + unfold bind, toMutableResponse, lift, alloc, ret.
      destruct (normalized _ _); cbn [fst]; [|discriminate].
      intros H. injection H as <-. reflexivity.
Qed.

(** The route [async () => "x"]. *)
Lemma route_handler_returns_response_witness :
  is_Response (VResponse 0) = true.
Proof.
  apply (route_handler_returns_response (Single (Callable returns_x))
           ["section"] docs_request "0.k3f9x2ab7" "0.zzzzzzzzz" empty_world).
  vm_compute. reflexivity.
Defined.

(** X23: a route whose handlers all finish without a value, without
    throwing and without reaching for the continuation (an export with no
    handler at all is such a route) answers with a new, empty 204
    response. *)
Theorem silent_route_answers_204
    (exported : Exported) (arrayParams : list string) (c : HonoInput)
    (random36 random36' : string) (w : World) :
  (forall ctx, Forall (fun h => quiet (fn h ctx)) (chain_of exported)) ->
  exists w',
    makeRouteHandler exported arrayParams c random36 random36' w
    = (Returned (VResponse (next_ref w')),
       mkWorld (vars w')
               (<[next_ref w' := mkResponse 204 "" None false ∅]> (responses w'))
               (c_res w') (S (next_ref w')))
    /\ w' = settle_all (fst (makeCFContext c arrayParams random36'
                                (c_set KEY_TRACE (trace_of random36 w) w)))
                       (chain_of exported)
                       (snd (makeCFContext c arrayParams random36'
                                (c_set KEY_TRACE (trace_of random36 w) w))).
Proof.
  intros Hq. eexists. split; [|reflexivity].
  unfold makeRouteHandler.
  destruct (makeCFContext _ _ _ _) as [cfCtx w1]. cbn [fst snd].
  unfold composeCFChain.
  rewrite ChainFacts.runAt_quiet; [|simpl; lia|apply Hq].
  reflexivity.
Qed.

(** A route that only marks the store, exported beside a stray string. *)
Lemma silent_route_answers_204_witness :
  exists w',
    makeRouteHandler (Sequence [Callable marks_seen; NotCallable (VString "x")])
                     [] docs_request "0.k3f9x2ab7" "0.zzzzzzzzz" empty_world
    = (Returned (VResponse (next_ref w')),
       mkWorld (vars w')
               (<[next_ref w' := mkResponse 204 "" None false ∅]> (responses w'))
               (c_res w') (S (next_ref w')))
    /\ w' = settle_all (fst (makeCFContext docs_request [] "0.zzzzzzzzz"
                                (c_set KEY_TRACE (trace_of "0.k3f9x2ab7" empty_world)
                                       empty_world)))
                       (chain_of (Sequence [Callable marks_seen;
                                            NotCallable (VString "x")]))
                       (snd (makeCFContext docs_request [] "0.zzzzzzzzz"
                                (c_set KEY_TRACE (trace_of "0.k3f9x2ab7" empty_world)
                                       empty_world))).
Proof.
  apply (silent_route_answers_204
           (Sequence [Callable marks_seen; NotCallable (VString "x")])
           [] docs_request "0.k3f9x2ab7" "0.zzzzzzzzz" empty_world).
  intros ctx. repeat constructor.
Defined.

End WrappersFacts.

(** ** The loader *)

Module LoaderFacts.
Import JsString Js Http PathCompiler Chain Orchestrator Samples Loader.

Lemma for_each_ok {A} (f : A -> Reg unit) l :
  (forall x made, In x l -> fst (f x made) = Returned tt) ->
  forall made, fst (for_each f l made) = Returned tt.
Proof.
  induction l as [|x l IH]; intros Hf made; [reflexivity|].
  simpl. unfold seq.
  pose proof (Hf x made (or_introl eq_refl)) as Hx.
  destruct (f x made) as [[[]|e] made']; [|discriminate].
  apply IH. intros y m Hy. apply Hf. now right.
Qed.

Lemma for_each_raises {A} (f : A -> Reg unit) l e :
  forall made,
    fst (for_each f l made) = Raised e ->
    exists x made0, In x l /\ fst (f x made0) = Raised e.
Proof.
  induction l as [|x l IH]; intros made; [discriminate|].
  simpl. unfold seq.
  destruct (f x made) as [[u|e'] made'] eqn:Hx.
  - intros H. apply IH in H as (y & m & Hy & He).
    exists y, m. split; [now right|exact He].
  - cbn [fst]. intros H. exists x, made. split; [now left|].
    now rewrite Hx.
Qed.

Lemma for_each_extends {A} (P : Registration -> Prop) (f : A -> Reg unit) l :
  (forall x made, In x l ->
     exists more, snd (f x made) = made ++ more /\ Forall P more) ->
  forall made,
    exists more, snd (for_each f l made) = made ++ more /\ Forall P more.
Proof.
  induction l as [|x l IH]; intros Hf made.
  - exists []. split; [now rewrite app_nil_r|constructor].
  - simpl. unfold seq.
    destruct (Hf x made (or_introl eq_refl)) as (more & Hx & HP).
    destruct (f x made) as [[u|e] made']; cbn [snd] in Hx; subst made'.
    + destruct (IH (fun y m Hy => Hf y m (or_intror Hy)) (made ++ more))
        as (more' & Hl & HP').
      exists (more ++ more'). split; [now rewrite Hl, app_assoc|].
      now apply Forall_app.
    + now exists more.
Qed.

Lemma method_reserved name m :
  getMethodFromExportName name = Some m -> m = "ALL" \/ In m verbs.
Proof.
  unfold getMethodFromExportName.
  destruct (startsWith name "onRequest"); cbv zeta; cbn [negb];
    [|discriminate].
  destruct (String.eqb (drop_str 9 name) "").
  - intros H. injection H as <-. now left.
  - destruct (includes _ (toUpperCase (drop_str 9 name))) eqn:Hinc;
      [|discriminate].
    intros H. injection H as <-. right.
    unfold includes in Hinc. apply existsb_exists in Hinc as (y & Hy & Heq).
    apply String.eqb_eq in Heq. now subst.
Qed.

Lemma Forall_omap_some {A B} (P : B -> Prop) (f : A -> option B) l :
  (forall x y, f x = Some y -> P y) -> List.Forall P (omap f l).
Proof.
  intros Hf. induction l as [|x l IH]; [constructor|].
  simpl. destruct (f x) as [y|] eqn:Hx; [|exact IH].
  constructor; [exact (Hf x y Hx)|exact IH].
Qed.

Lemma collect_one_reserved b file entry :
  collect_one b file = Some entry -> List.Forall reserved (handlers entry).
Proof.
  destruct file as [fp loaded]. unfold collect_one.
  set (named := omap _ loaded).
  assert (List.Forall reserved named) as Hnamed.
  { subst named. apply Forall_omap_some. intros [k v] h. cbn [fst snd].
    destruct (getMethodFromExportName k) as [m|] eqn:Hm; [|discriminate].
    destruct (usable v); [|discriminate].
    intros H. injection H as <-. exact (method_reserved k m Hm). }
  set (hs := match named, default_export loaded with
             | [], Some d => if usable d then [mkHandlerExport "ALL" d] else []
             | _, _ => named
             end).
  assert (List.Forall reserved hs) as Hhs.
  { subst hs. destruct named as [|h named']; [|exact Hnamed].
    destruct (default_export loaded) as [d|]; [|constructor].
    destruct (usable d); repeat constructor. }
  cbv zeta. fold named. fold hs.
  destruct hs as [|h hs']; [discriminate|].
  intros H. injection H as <-. exact Hhs.
Qed.

Lemma collect_reserved b ms entry :
  In entry (collect b ms) -> List.Forall reserved (handlers entry).
Proof.
  unfold collect. intros Hin.
  apply list_elem_of_In, list_elem_of_omap in Hin as (file & _ & Hone).
  exact (collect_one_reserved b file entry Hone).
Qed.

Lemma register_entry_ok app entry :
  (entry_isMiddleware entry = false ->
   forall h, In h (handlers entry) -> method h <> "ALL" ->
             app (toLowerCase (method h)) = true) ->
  forall made, fst (register_entry app entry made) = Returned tt.
Proof.
  intros Happ. unfold register_entry.
  apply for_each_ok. intros r made _.
  destruct (entry_isMiddleware entry).
  - apply for_each_ok. intros h m _. unfold register_gate.
    now destruct (String.eqb (method h) "ALL").
  - apply for_each_ok. intros h m Hh. unfold register_route.
    destruct (String.eqb (method h) "ALL") eqn:Hall; [reflexivity|].
    apply String.eqb_neq in Hall. now rewrite (Happ eq_refl h Hh Hall).
Qed.

(** Loading modules that are there: no throw when the application has the
    methods the route files ask for. *)
Lemma loaded_ok app options ms made :
  modules options = Some ms ->
  (forall entry h,
     In entry (collect (base_of options) ms) ->
     entry_isMiddleware entry = false ->
     In h (handlers entry) -> method h <> "ALL" ->
     app (toLowerCase (method h)) = true) ->
  fst (loadFunctions app options made) = Returned tt.
Proof.
  intros Hms Happ. unfold loadFunctions. rewrite Hms. cbv zeta.
  unfold seq at 1. cbn [register].
  unfold seq.
  set (all := collect (base_of options) ms) in *.
  set (made1 := made ++ [UseWrapper "/*"]).
  pose proof (for_each_ok (fun m => register (UseMiddleware m)) (pass1 all)
                (fun _ _ _ => eq_refl) made1) as H1.
  destruct (for_each _ (pass1 all) made1) as [[[]|e] made2];
    [|discriminate].
  unfold pass2. apply for_each_ok. intros entry m Hin.
  apply register_entry_ok. intros Hmw h Hh Hall.
  exact (Happ entry h Hin Hmw Hh Hall).
Qed.

(** Loading modules that are there: a throw comes from a route file that
    asks for a method the application does not have. *)
Lemma loaded_raises app options ms made e :
  modules options = Some ms ->
  fst (loadFunctions app options made) = Raised e ->
  exists entry r h,
    In entry (collect (base_of options) ms)
    /\ entry_isMiddleware entry = false
    /\ In r (entry_routes entry)
    /\ In h (handlers entry)
    /\ In (method h) verbs
    /\ app (toLowerCase (method h)) = false
    /\ e = unsupported (method h) (path r) (filepath entry).
Proof.
  unfold loadFunctions. intros ->.
  cbv zeta. unfold seq at 1. cbn [register]. unfold seq.
  set (all := collect (base_of options) ms).
  set (made1 := made ++ [UseWrapper "/*"]).
  pose proof (for_each_ok (fun m => register (UseMiddleware m)) (pass1 all)
                (fun _ _ _ => eq_refl) made1) as H1.
  destruct (for_each _ (pass1 all) made1) as [[[]|e'] made2];
    [|discriminate].
  unfold pass2. intros H.
  apply for_each_raises in H as (entry & m & Hin & H).
  unfold register_entry in H.
  apply for_each_raises in H as (r & m' & Hr & H).
  exists entry, r.
  destruct (entry_isMiddleware entry) eqn:Hmw.
  - apply for_each_raises in H as (h & m'' & _ & H).
    unfold register_gate in H.
    destruct (String.eqb (method h) "ALL"); discriminate.
  - apply for_each_raises in H as (h & m'' & Hh & H).
    exists h. unfold register_route in H.
    destruct (String.eqb (method h) "ALL") eqn:Hall; [discriminate|].
    destruct (app (toLowerCase (method h))) eqn:Happ; [discriminate|].
    cbn [fail fst] in H. injection H as <-.
    pose proof (collect_reserved _ _ _ Hin) as Hres.
    rewrite List.Forall_forall in Hres.
    destruct (Hres h Hh) as [HALL|Hverb].
    + apply String.eqb_neq in Hall. contradiction.
    + repeat split; auto.
Qed.

Lemma for_each_register {A} (g : A -> Registration) l :
  forall made,
    for_each (fun x => register (g x)) l made = (Returned tt, made ++ map g l).
Proof.
  induction l as [|x l IH]; intros made; simpl.
  - unfold skip. now rewrite app_nil_r.
  - unfold seq, register. rewrite IH. now rewrite <- app_assoc.
Qed.

Lemma register_entry_extends app entry :
  List.Forall reserved (handlers entry) ->
  forall made,
    exists more,
      snd (register_entry app entry made) = made ++ more
      /\ List.Forall (of_pass2 app) more.
Proof.
  intros Hres. rewrite List.Forall_forall in Hres.
  unfold register_entry. apply for_each_extends. intros r made _.
  destruct (entry_isMiddleware entry).
  - apply for_each_extends. intros h m Hh. unfold register_gate.
    destruct (String.eqb (method h) "ALL") eqn:Hall.
    + exists []. split; [cbn; now rewrite app_nil_r|constructor].
    + eexists. split; [reflexivity|].
      apply List.Forall_cons; [|constructor]. cbn [of_pass2].
      destruct (Hres h Hh) as [HALL|Hverb]; [|exact Hverb].
      apply String.eqb_neq in Hall. contradiction.
  - apply for_each_extends. intros h m Hh. unfold register_route.
    destruct (String.eqb (method h) "ALL") eqn:Hall.
    + eexists. split; [reflexivity|].
      apply List.Forall_cons; [exact I|constructor].
    + destruct (app (toLowerCase (method h))) eqn:Happ.
      * eexists. split; [reflexivity|].
        apply List.Forall_cons; [|constructor]. cbn [of_pass2].
        split; [exact Happ|].
        destruct (Hres h Hh) as [HALL|Hverb].
        -- apply String.eqb_neq in Hall. contradiction.
        -- now apply in_map.
      * exists []. split; [cbn; now rewrite app_nil_r|constructor].
Qed.


Lemma rev_app_rev_app s : forall t u,
  String.rev_app (String.rev_app s t) u = String.rev_app t (s +:+ u).
Proof.
  induction s as [|a s IH]; intros t u; [reflexivity|].
  cbn [String.rev_app]. rewrite IH. reflexivity.
Qed.

Lemma append_empty s : s +:+ "" = s.
Proof.
  induction s as [|a s IH]; [reflexivity|].
  change (String a s +:+ "") with (String a (s +:+ "")). now rewrite IH.
Qed.

Lemma rev_rev s : String.rev (String.rev s) = s.
Proof.
  unfold String.rev. rewrite rev_app_rev_app. cbn [String.rev_app].
  apply append_empty.
Qed.

Lemma backslashes_rev_app s : forall t,
  backslashes_to_slashes (String.rev_app s t)
  = String.rev_app (backslashes_to_slashes s) (backslashes_to_slashes t).
Proof.
  induction s as [|a s IH]; intros t; [reflexivity|].
  cbn [String.rev_app backslashes_to_slashes]. now rewrite IH.
Qed.

Lemma backslashes_strip_leading z :
  backslashes_to_slashes z = z ->
  backslashes_to_slashes (strip_leading_slashes z) = strip_leading_slashes z.
Proof.
  induction z as [|c z IH]; [reflexivity|].
  intros H. cbn [strip_leading_slashes].
  destruct (Ascii.eqb c "/"); [|exact H].
  apply IH. cbn [backslashes_to_slashes] in H. now injection H.
Qed.

Lemma strip_leading_idempotent z :
  strip_leading_slashes (strip_leading_slashes z) = strip_leading_slashes z.
Proof.
  induction z as [|c z IH]; [reflexivity|].
  cbn [strip_leading_slashes].
  destruct (Ascii.eqb c "/") eqn:Hc; [exact IH|].
  cbn [strip_leading_slashes]. now rewrite Hc.
Qed.

Lemma base_normal d :
  strip_trailing_slashes
    (backslashes_to_slashes
       (strip_trailing_slashes (backslashes_to_slashes d)))
  = strip_trailing_slashes (backslashes_to_slashes d).
Proof.
  set (y := backslashes_to_slashes d).
  assert (backslashes_to_slashes y = y) as Hy.
  { subst y. induction d as [|c d IH]; [reflexivity|].
    cbn [backslashes_to_slashes]. rewrite IH.
    destruct (Ascii.eqb c "\") eqn:Hc; [reflexivity|]. now rewrite Hc. }
  assert (backslashes_to_slashes (strip_trailing_slashes y)
          = strip_trailing_slashes y) as ->.
  { unfold strip_trailing_slashes, String.rev.
    rewrite backslashes_rev_app. cbn [backslashes_to_slashes].
    rewrite backslashes_strip_leading; [reflexivity|].
    rewrite backslashes_rev_app. cbn [backslashes_to_slashes].
    now rewrite Hy. }
  unfold strip_trailing_slashes.
  now rewrite rev_rev, strip_leading_idempotent.
Qed.

(** X27: the loader normalizes the base directory and the path compiler
    normalizes it again, to no further effect: the files are collected as
    they would be from the directory as it was given, backslashes and
    trailing slashes included. *)
Theorem base_directory_given_raw
    (options : Options) (ms : list (string * LoadedModule)) :
  collect (base_of options) ms = collect (given_base options) ms.
Proof.
  assert (forall fp, filepathToRoutes fp (Some (base_of options))
                     = filepathToRoutes fp (Some (given_base options))) as Hfp.
  { intros fp. unfold filepathToRoutes, base_of.
    cbv [from_option id]. cbv zeta. now rewrite base_normal. }
  unfold collect. induction ms as [|[fp loaded] ms IH]; [reflexivity|].
  cbn [omap list_omap]. rewrite IH.
  unfold collect_one at 1 3. now rewrite Hfp.
Qed.

Lemma prefix_split p : forall s,
  String.prefix p s = true -> s = p +:+ drop_str (len p) s.
Proof.
  induction p as [|a p IH]; intros s; [reflexivity|].
  destruct s as [|b s]; [discriminate|].
  cbn -[ascii_dec]. destruct (ascii_dec a b) as [<-|]; [|discriminate].
  intros H.
  change (String a s = String a (p +:+ drop_str (len p) s)).
  f_equal. now apply IH.
Qed.

Lemma all_export_name k :
  getMethodFromExportName k = Some "ALL" -> k = "onRequest".
Proof.
  unfold getMethodFromExportName.
  destruct (startsWith k "onRequest") eqn:Hp; cbv zeta; cbn [negb];
    [|discriminate].
  apply prefix_split in Hp. change (len "onRequest") with 9%nat in Hp.
  destruct (String.eqb (drop_str 9 k) "") eqn:He.
  - apply String.eqb_eq in He. rewrite He in Hp. intros _. exact Hp.
  - destruct (includes _ (toUpperCase (drop_str 9 k))) eqn:Hinc;
      [|discriminate].
    intros H.
    assert (toUpperCase (drop_str 9 k) = "ALL") as Hup by congruence.
    rewrite Hup in Hinc. discriminate.
Qed.

Section OneForAll.
Variable named : string * Exported -> option HandlerExport.
Hypothesis named_all :
  forall kv h, named kv = Some h -> for_all_methods h = true ->
               fst kv = "onRequest".

Lemma omap_named_cons kv loaded :
  omap named (kv :: loaded)
  = match named kv with
    | Some h => h :: omap named loaded
    | None => omap named loaded
    end.
Proof. reflexivity. Qed.

Lemma no_onRequest_no_all loaded :
  ~ In "onRequest" (map fst loaded) ->
  List.filter for_all_methods (omap named loaded) = [].
Proof.
  induction loaded as [|kv loaded IH]; [reflexivity|].
  intros Hnot. cbn [map In] in Hnot. rewrite omap_named_cons.
  destruct (named kv) as [h|] eqn:Hkv; [|tauto].
  cbn [List.filter]. destruct (for_all_methods h) eqn:Hall; [|tauto].
  pose proof (named_all kv h Hkv Hall). tauto.
Qed.

Lemma at_most_one_all loaded :
  List.NoDup (map fst loaded) ->
  (length (List.filter for_all_methods (omap named loaded)) <= 1)%nat.
Proof.
  induction loaded as [|kv loaded IH]; [simpl; lia|].
  intros Hnd. inversion Hnd as [|k ks Hnotin Hnd']; subst.
  rewrite omap_named_cons.
  destruct (named kv) as [h|] eqn:Hkv; [|now apply IH].
  cbn [List.filter]. destruct (for_all_methods h) eqn:Hall; [|now apply IH].
  rewrite (named_all kv h Hkv Hall) in Hnotin.
  rewrite (no_onRequest_no_all loaded Hnotin). simpl. lia.
Qed.

End OneForAll.

(** X28: a file whose export names are distinct contributes at most one
    handler under ["ALL"]: the one PASS 1 looks up with [find], and the only
    one PASS 2 skips in a middleware file. *)
Theorem one_handler_for_all_methods
    (base filepath : string) (loaded : LoadedModule) (entry : FileEntry) :
  List.NoDup (map fst loaded) ->
  collect_one base (filepath, loaded) = Some entry ->
  (length (List.filter for_all_methods (handlers entry)) <= 1)%nat.
Proof.
  intros Hnd. unfold collect_one.
  set (f := fun kv : string * Exported =>
              match getMethodFromExportName (fst kv) with
              | Some method =>
                  if usable (snd kv)
                  then Some (mkHandlerExport method (snd kv)) else None
              | None => None
              end).
  assert (length (List.filter for_all_methods (omap f loaded)) <= 1)%nat
    as Hnamed.
  { apply at_most_one_all; [|exact Hnd].
    intros [k v] h. subst f. cbn [fst snd].
    destruct (getMethodFromExportName k) as [m|] eqn:Hm; [|discriminate].
    destruct (usable v); [|discriminate].
    intros H. injection H as <-. unfold for_all_methods. cbn [method].
    intros Hall. apply String.eqb_eq in Hall. subst m.
    now apply all_export_name. }
  cbv zeta. fold f.
  destruct (omap f loaded) as [|h0 named'] eqn:Hom.
  - destruct (default_export loaded) as [d|]; [|discriminate].
    destruct (usable d); [|discriminate].
    intros H. injection H as <-. cbn. lia.
  - intros H. injection H as <-. exact Hnamed.
Qed.

(** The root middleware of the site. *)
Lemma one_handler_for_all_methods_witness :
  (length (List.filter for_all_methods
             [mkHandlerExport "ALL" pass_through;
              mkHandlerExport "POST" pass_through]) <= 1)%nat.
Proof.
  apply (one_handler_for_all_methods "../functions"
           "../functions/_middleware.js"
           [("onRequest", pass_through); ("onRequestPost", pass_through)]
           (mkFileEntry "../functions/_middleware.js"
              [PathCompiler.mkRoute "/" []] true
              [mkHandlerExport "ALL" pass_through;
               mkHandlerExport "POST" pass_through])).
  - repeat constructor; simpl; intuition discriminate.
  - vm_compute. reflexivity.
Defined.

(** X29: the gate before a method-specific middleware opens exactly for
    the requests whose method is, letter case aside, the verb that follows
    ["onRequest"] in the export name. *)
Theorem gate_opens_for_export_verb (suffix verb reqMethod : string) :
  getMethodFromExportName ("onRequest" +:+ suffix) = Some verb ->
  verb <> "ALL" ->
  gate_opens verb reqMethod
  = String.eqb (toUpperCase reqMethod) (toUpperCase suffix).
Proof.
  unfold getMethodFromExportName, gate_opens.
  rewrite OrchestratorMore.startsWith_onRequest.
  change (drop_str 9 ("onRequest" +:+ suffix)) with suffix.
  cbv zeta. cbn [negb].
  destruct (String.eqb suffix "").
  - intros H. injection H as <-. contradiction.
  - destruct (includes _ (toUpperCase suffix)); [|discriminate].
    intros H _. injection H as <-. reflexivity.
Qed.

(** The export [onRequestpost] and a request whose method reads [Post]. *)
Lemma gate_opens_for_export_verb_witness :
  gate_opens "POST" "Post"
  = String.eqb (toUpperCase "Post") (toUpperCase "post").
Proof.
  apply (gate_opens_for_export_verb "post" "POST" "Post").
  - reflexivity.
  - discriminate.
Defined.

End LoaderFacts.

(** ** The loader with its imports *)

Module LazyLoaderFacts.
Import JsString Js Http PathCompiler Chain Orchestrator Samples Loader.
Import LazyLoader.

Lemma collect_cons base file files :
  collect base (file :: files)
  = match collect_one base file with
    | Some entry => entry :: collect base files
    | None => collect base files
    end.
Proof. reflexivity. Qed.

(** A collecting loop that comes to its end imported every module, and
    collected what [collect] collects from them. *)
Lemma collect_lazy_resolved base ms : forall all,
  collect_lazy base ms = Returned all ->
  exists loaded, ms = map resolved loaded /\ all = collect base loaded.
Proof.
  induction ms as [|[fp [loaded|e]] ms IH]; intros all; cbn [collect_lazy].
  - intros H. injection H as <-. now exists [].
  - destruct (collect_lazy base ms) as [rest|e]; [|discriminate].
    cbn [bindC]. intros H. injection H as <-.
    destruct (IH rest eq_refl) as (ls & -> & ->).
    exists ((fp, loaded) :: ls). split; [reflexivity|].
    now rewrite collect_cons.
  - discriminate.
Qed.

Lemma collect_lazy_of_resolved base loaded :
  collect_lazy base (map resolved loaded) = Returned (collect base loaded).
Proof.
  induction loaded as [|[fp l] loaded IH]; [reflexivity|].
  cbn [map resolved fst snd collect_lazy]. rewrite IH. cbn [bindC].
  now rewrite collect_cons.
Qed.

(** The first import that fails ends the collecting loop with its error. *)
Lemma collect_lazy_rejected base ms : forall e,
  collect_lazy base ms = Raised e ->
  exists loaded filepath rest,
    ms = map resolved loaded ++ (filepath, Rejects e) :: rest.
Proof.
  induction ms as [|[fp [loaded|e0]] ms IH]; intros e; cbn [collect_lazy].
  - discriminate.
  - destruct (collect_lazy base ms) as [rest|e1]; [discriminate|].
    cbn [bindC]. intros H. injection H as <-.
    destruct (IH e1 eq_refl) as (ls & fp' & rest & ->).
    now exists ((fp, loaded) :: ls), fp', rest.
  - intros H. injection H as <-. now exists [], fp, ms.
Qed.

(** With every import resolved, loading is the loading of [Loader]. *)
Lemma load_resolved app options loaded made :
  lazy_modules options = Some (map resolved loaded) ->
  loadFunctions app options made
  = Loader.loadFunctions app (loaded_options options loaded) made.
Proof.
  intros Hms. unfold loadFunctions, Loader.loadFunctions. rewrite Hms.
  cbn [modules loaded_options]. cbv zeta. unfold seq at 1 3.
  cbn [register]. rewrite collect_lazy_of_resolved. reflexivity.
Qed.

(** X24: loading does not throw when the modules are given, every
    import resolves, and the application has a method for each verb that a
    file other than a middleware exports a handler for. The directory
    options are strings or absent, and the application has [use] and
    [all]. *)
Theorem load_succeeds
    (app : App) (options : LazyOptions) (ms : list (string * LazyModule))
    (all : list FileEntry) (made : list Registration) :
  lazy_modules options = Some ms ->
  collect_lazy (lazy_base options) ms = Returned all ->
  (forall entry h,
     In entry all -> entry_isMiddleware entry = false ->
     In h (handlers entry) -> method h <> "ALL" ->
     app (toLowerCase (method h)) = true) ->
  fst (loadFunctions app options made) = Returned tt.
Proof.
  intros Hms Hall Happ.
  apply collect_lazy_resolved in Hall as (loaded & -> & ->).
  rewrite (load_resolved app options loaded made Hms).
  apply (LoaderFacts.loaded_ok app (loaded_options options loaded) loaded
           made eq_refl).
  exact Happ.
Qed.

(** A site with no handler for [HEAD], on an application without
    [head]. *)
Lemma load_succeeds_witness :
  fst (loadFunctions app_without_head small_site []) = Returned tt.
Proof.
  apply (load_succeeds app_without_head small_site
           [ ("../functions/_middleware.js",
              Resolves [("onRequestPost", pass_through)]);
             ("../functions/users/[id].js",
              Resolves [("onRequestGet", pass_through)]) ]
           (collect "../functions"
              [ ("../functions/_middleware.js",
                 [("onRequestPost", pass_through)]);
                ("../functions/users/[id].js",
                 [("onRequestGet", pass_through)]) ])
           []).
  - reflexivity.
  - vm_compute. reflexivity.
  - intros entry h Hentry Hmw Hh Hall.
    vm_compute in Hentry.
    destruct Hentry as [<-|[<-|[]]]; [discriminate Hmw|].
    vm_compute in Hh. destruct Hh as [<-|[]]. reflexivity.
Defined.

(** X25: loading throws for three reasons only, given directory
    options that are strings or absent and an application that has [use]
    and [all]. Either no modules were given; or an import fails, and the
    error is that of the first import that fails; or every import resolves
    and some file that is not a middleware exports a handler for a verb the
    application has no method for, and the error names that verb, the route
    and the file. Middleware files never make loading throw. *)
Theorem load_fails_for_three_reasons
    (app : App) (options : LazyOptions) (made : list Registration)
    (e : JsError) :
  fst (loadFunctions app options made) = Raised e ->
  match lazy_modules options with
  | None => e = modules_required
  | Some ms =>
      match collect_lazy (lazy_base options) ms with
      | Raised e' =>
          e = e'
          /\ exists loaded filepath rest,
               ms = map resolved loaded ++ (filepath, Rejects e) :: rest
      | Returned all =>
          exists entry r h,
            In entry all
            /\ entry_isMiddleware entry = false
            /\ In r (entry_routes entry)
            /\ In h (handlers entry)
            /\ In (method h) verbs
            /\ app (toLowerCase (method h)) = false
            /\ e = unsupported (method h) (path r) (filepath entry)
      end
  end.
Proof.
  destruct (lazy_modules options) as [ms|] eqn:Hms.
  - destruct (collect_lazy (lazy_base options) ms) as [all|e'] eqn:Hall.
    + apply collect_lazy_resolved in Hall as (loaded & -> & ->).
      rewrite (load_resolved app options loaded made Hms).
      exact (LoaderFacts.loaded_raises app (loaded_options options loaded)
               loaded made e eq_refl).
    + unfold loadFunctions. rewrite Hms. cbv zeta. unfold seq.
      cbn [register]. rewrite Hall. cbn [fst]. intros H. injection H as <-.
      split; [reflexivity|]. exact (collect_lazy_rejected _ _ _ Hall).
  - unfold loadFunctions. rewrite Hms. cbn [fail fst].
    intros H. now injection H.
Qed.

(** The site of [Loader], whose route file answers [HEAD], on an
    application without [head]. *)
Lemma load_fails_for_three_reasons_witness :
  match lazy_modules lazy_site with
  | None => unsupported "HEAD" "/users/:id" "../functions/users/[id].js"
            = modules_required
  | Some ms =>
      match collect_lazy (lazy_base lazy_site) ms with
      | Raised e' =>
          unsupported "HEAD" "/users/:id" "../functions/users/[id].js" = e'
          /\ exists loaded filepath rest,
               ms = map resolved loaded
                    ++ (filepath,
                        Rejects (unsupported "HEAD" "/users/:id"
                                             "../functions/users/[id].js"))
                       :: rest
      | Returned all =>
          exists entry r h,
            In entry all
            /\ entry_isMiddleware entry = false
            /\ In r (entry_routes entry)
            /\ In h (handlers entry)
            /\ In (method h) verbs
            /\ app_without_head (toLowerCase (method h)) = false
            /\ unsupported "HEAD" "/users/:id" "../functions/users/[id].js"
               = unsupported (method h) (path r) (filepath entry)
      end
  end.
Proof.
  apply (load_fails_for_three_reasons app_without_head lazy_site []).
  vm_compute. reflexivity.
Defined.

(** A failing import is what loading throws, after the global wrapper was
    registered and before anything else is. *)
Example failing_import_is_thrown :
  loadFunctions app_without_head broken_site []
  = (Raised (Error "import failed"), [UseWrapper "/*"]).
Proof. vm_compute. reflexivity. Qed.

End LazyLoaderFacts.
